(** * Hyrise core runtime: buffer-managed pointers, page sizing, frames and the task scheduler

    A shallow embedding of
    - [src/lib/storage/buffer/helper.hpp]  (page size classes, [PageID]),
    - [src/lib/storage/buffer/buffer_managed_ptr.hpp]  ([BufferManagedPtr]),
    - [src/lib/utils/column_id_before_pruning.cpp] and the loops of
      [src/plugins/dependency_mining/dependency_validator.cpp],
    - [src/lib/storage/index/partial_hash/partial_hash_index_impl.cpp],
    - the loops of [src/lib/storage/fsst_segment/fsst_encoder.hpp], the
      [TestPointer] of the pointer benchmark and
      [src/lib/utils/plugin_manager.cpp],
    - the frame / eviction-queue protocol and the task scheduler, whose
      implementation files are not part of the sources at hand and are
      modelled from the specification (every such definition says so);
      their workloads are those of [src/test/lib/scheduler/scheduler_test.cpp]. *)

From stdpp Require Import base numbers list gmap sorting.

Local Open Scope Z_scope.

(** ** Machine integers *)

(** [std::size_t] and [uint64_t]: 64-bit unsigned, arithmetic wraps. *)
Definition size_t_wrap (z : Z) : Z := z mod 2 ^ 64.

(** [std::ptrdiff_t]: 64-bit signed.  Overflow is undefined in C++; the
    model wraps in two's complement, as the target machines do. *)
Definition ptrdiff_wrap (z : Z) : Z := (z + 2 ^ 63) mod 2 ^ 64 - 2 ^ 63.

Definition in_ptrdiff (z : Z) : Prop := - 2 ^ 63 <= z < 2 ^ 63.

(** ** helper.hpp: page size classes *)

(** The range-for loop of [find_fitting_page_size_type] over the
    enumerators still to visit, for the [PageSizeType] of either platform. *)
Fixpoint find_fitting_in {PageSizeType : Type} (bytes_for_size_type : PageSizeType -> Z)
    (values : list PageSizeType) (bytes : Z) : option PageSizeType :=
  match values with
  | [] => None
  | page_size_type :: rest =>
      if bytes <=? bytes_for_size_type page_size_type
      then Some page_size_type
      else find_fitting_in bytes_for_size_type rest bytes
  end.

(** The outcome of [Fail(...)]: the exception with its message argument. *)
Inductive Failure := CannotFit (bytes : Z).

(** The [__linux__] branch. *)
Module Helper.

Definition OS_PAGE_SIZE : Z := 4096.

Inductive PageSizeType :=
  | KiB4 | KiB8 | KiB16 | KiB32 | KiB64 | KiB128 | KiB256 | KiB512 | MiB1 | MiB2.

#[global] Instance PageSizeType_eq_dec : EqDecision PageSizeType.
Proof. solve_decision. Defined.

(** [magic_enum::enum_values<PageSizeType>()]: the enumerators in
    declaration order. *)
Definition enum_values : list PageSizeType :=
  [KiB4; KiB8; KiB16; KiB32; KiB64; KiB128; KiB256; KiB512; MiB1; MiB2].

(** [static_cast<size_t>(size)]: the underlying value of an enumerator. *)
Definition enum_integer (size : PageSizeType) : Z :=
  match size with
  | KiB4 => 0 | KiB8 => 1 | KiB16 => 2 | KiB32 => 3 | KiB64 => 4
  | KiB128 => 5 | KiB256 => 6 | KiB512 => 7 | MiB1 => 8 | MiB2 => 9
  end.

(** [magic_enum::enum_value<PageSizeType>(i)]; out of range is an error. *)
Definition enum_value (i : Z) : option PageSizeType :=
  if decide (0 <= i) then enum_values !! Z.to_nat i else None.

Definition bytes_for_size_type (size : PageSizeType) : Z :=
  size_t_wrap (Z.shiftl OS_PAGE_SIZE (enum_integer size)).

Definition find_fitting_page_size_type (bytes : Z) : Failure + PageSizeType :=
  match find_fitting_in bytes_for_size_type enum_values bytes with
  | Some page_size_type => inr page_size_type
  | None => inl (CannotFit bytes)
  end.

Definition NUM_PAGE_SIZE_TYPES : Z := Z.of_nat (length enum_values).
Definition MIN_PAGE_SIZE_TYPE : PageSizeType := KiB4.
Definition MAX_PAGE_SIZE_TYPE : PageSizeType := MiB2.

(** [boost::static_log2<NUM_PAGE_SIZE_TYPES>::value + 1] *)
Definition PAGE_SIZE_TYPE_BITS : Z := Z.log2 NUM_PAGE_SIZE_TYPES + 1.

(** The bit-field widths of [PageID]. *)
Definition INDEX_BITS : Z := 8 * 8 - PAGE_SIZE_TYPE_BITS - 1.

Record PageID := {
  _valid : bool;
  _size_type : Z;
  index : Z
}.

(** The [constexpr] constructor; a bit-field keeps the low bits of what is
    stored into it. *)
Definition PageID_make (size_type : PageSizeType) (idx : Z) (valid : bool) : PageID :=
  {| _valid := valid;
     _size_type := enum_integer size_type mod 2 ^ PAGE_SIZE_TYPE_BITS;
     index := idx mod 2 ^ INDEX_BITS |}.

Definition size_type (p : PageID) : option PageSizeType := enum_value (_size_type p).
Definition valid (p : PageID) : bool := _valid p.

#[global] Instance PageID_eq_dec : EqDecision PageID.
Proof. solve_decision. Defined.

(** The defaulted [operator<=>] gives member-wise equality. *)
Definition PageID_eqb (a b : PageID) : bool := bool_decide (a = b).

Definition INVALID_PAGE_ID : PageID := PageID_make MIN_PAGE_SIZE_TYPE 0 false.

End Helper.

(** The [__APPLE__] branch: a larger page and eight size classes. *)
Module HelperApple.

Definition OS_PAGE_SIZE : Z := 16384.

Inductive PageSizeType :=
  | KiB16 | KiB32 | KiB64 | KiB128 | KiB256 | KiB512 | MiB1 | MiB2.

Definition enum_values : list PageSizeType :=
  [KiB16; KiB32; KiB64; KiB128; KiB256; KiB512; MiB1; MiB2].

Definition enum_integer (size : PageSizeType) : Z :=
  match size with
  | KiB16 => 0 | KiB32 => 1 | KiB64 => 2 | KiB128 => 3 | KiB256 => 4
  | KiB512 => 5 | MiB1 => 6 | MiB2 => 7
  end.

Definition bytes_for_size_type (size : PageSizeType) : Z :=
  size_t_wrap (Z.shiftl OS_PAGE_SIZE (enum_integer size)).

Definition find_fitting_page_size_type (bytes : Z) : Failure + PageSizeType :=
  match find_fitting_in bytes_for_size_type enum_values bytes with
  | Some page_size_type => inr page_size_type
  | None => inl (CannotFit bytes)
  end.

Definition MAX_PAGE_SIZE_TYPE : PageSizeType := MiB2.

End HelperApple.

Export Helper.

(** ** buffer_managed_ptr.hpp *)

(** A raw pointer is its address; [nullptr] is address 0.  Raw pointer
    arithmetic is arithmetic on 64-bit addresses. *)
Definition nullptr : Z := 0.
Definition ptr_add (address offset : Z) : Z := size_t_wrap (address + offset).

(** What [get_page] hands back: [page->data.data()] is the address of the
    first byte of the page. *)
Record Page := { data : Z }.

(** The buffer manager behind [get_buffer_manager()] is not part of this
    header.  It is a parameter: a state and a [get_page] operation on it. *)
Class BufferManagerOps (BufferManager : Type) := {
  get_page : PageID -> BufferManager -> Page * BufferManager
}.

Module Ptr.

(** Code that may consult the buffer manager threads its state. *)
Definition M (BufferManager A : Type) : Type := BufferManager -> A * BufferManager.

Definition ret {BM A} (a : A) : M BM A := fun bm => (a, bm).
Definition bind {BM A B} (m : M BM A) (k : A -> M BM B) : M BM B :=
  fun bm => let '(a, bm') := m bm in k a bm'.

Notation "x <~ m ;; k" := (bind m (fun x => k))
  (at level 100, m at next level, right associativity).

(** [BufferManagedPtr<PointedType>]; the pointee type is a phantom of the
    two members. *)
Record BufferManagedPtr (PointedType : Type) := Build {
  _page_id : PageID;
  _offset : Z
}.
Arguments Build {PointedType} _ _.
Arguments _page_id {PointedType} _.
Arguments _offset {PointedType} _.

Section Members.
Context {BufferManager : Type} `{!BufferManagerOps BufferManager}.
Context {PointedType : Type}.

Abbreviation ptr := (BufferManagedPtr PointedType).

(** [BufferManagedPtr(pointer ptr = 0)] *)
Definition from_pointer (raw : Z) : ptr := Build INVALID_PAGE_ID 0.

(** [explicit BufferManagedPtr(const PageID page_id, difference_type offset)] *)
Definition from_page_id (page_id : PageID) (offset : Z) : ptr := Build page_id offset.

Definition get_offset (p : ptr) : Z := _offset p.
Definition get_page_id (p : ptr) : PageID := _page_id p.

Definition get_pointer (p : ptr) : M BufferManager Z :=
  if PageID_eqb (_page_id p) INVALID_PAGE_ID then ret nullptr
  else page <~ get_page (_page_id p) ;; ret (ptr_add (data page) (_offset p)).

(** [static_cast<pointer>(this->get_pointer())] keeps the address. *)
Definition get (p : ptr) : M BufferManager Z := get_pointer p.

(** [operator!] *)
Definition operator_not (p : ptr) : M BufferManager bool :=
  a <~ get p ;; ret (a =? 0).

(** [explicit operator bool] *)
Definition operator_bool (p : ptr) : bool :=
  PageID_eqb (_page_id p) INVALID_PAGE_ID || (_offset p =? 0).

(** [operator+(std::ptrdiff_t)], [operator-(std::ptrdiff_t)] *)
Definition operator_plus (p : ptr) (offset : Z) : ptr :=
  Build (_page_id p) (ptrdiff_wrap (_offset p + offset)).
Definition operator_minus (p : ptr) (offset : Z) : ptr :=
  Build (_page_id p) (ptrdiff_wrap (_offset p - offset)).

(** [operator+=], [operator-=]: the object after the call (the returned
    reference is to it).  The bodies only [return *this]. *)
Definition operator_plus_assign (p : ptr) (offset : Z) : ptr := p.
Definition operator_minus_assign (p : ptr) (offset : Z) : ptr := p.

(** [operator++(void)], [operator--(void)]: the object after the call. *)
Definition operator_pre_increment (p : ptr) : ptr :=
  Build (_page_id p) (ptrdiff_wrap (_offset p + 1)).
Definition operator_pre_decrement (p : ptr) : ptr :=
  Build (_page_id p) (ptrdiff_wrap (_offset p - 1)).

(** The friend comparisons of two pointers of one type.  The operands of
    a comparison are resolved left to right. *)
Definition operator_eq (ptr1 ptr2 : ptr) : M BufferManager bool :=
  a <~ get ptr1 ;; b <~ get ptr2 ;; ret (a =? b).
Definition operator_lt (pt1 pt2 : ptr) : M BufferManager bool :=
  a <~ get pt1 ;; b <~ get pt2 ;; ret (a <? b).

(** The friend comparisons with a raw pointer. *)
Definition operator_eq_raw (ptr1 : Z) (ptr2 : ptr) : M BufferManager bool :=
  b <~ get ptr2 ;; ret (ptr1 =? b).
Definition operator_lt_raw_l (pt1 : Z) (pt2 : ptr) : M BufferManager bool :=
  b <~ get pt2 ;; ret (pt1 <? b).
Definition operator_lt_raw_r (pt1 : ptr) (pt2 : Z) : M BufferManager bool :=
  a <~ get pt1 ;; ret (a <? pt2).
End Members.

Section FreeOperators.
Context {BufferManager : Type} `{!BufferManagerOps BufferManager}.
Context {T1 T2 : Type}.

(** The namespace-level templates over two pointee types. *)
Definition operator_eq2 (ptr1 : BufferManagedPtr T1) (ptr2 : BufferManagedPtr T2)
  : M BufferManager bool :=
  a <~ get ptr1 ;; b <~ get ptr2 ;; ret (a =? b).
Definition operator_ne2 (ptr1 : BufferManagedPtr T1) (ptr2 : BufferManagedPtr T2)
  : M BufferManager bool :=
  a <~ get ptr1 ;; b <~ get ptr2 ;; ret (negb (a =? b)).
Definition operator_le2 (pt1 : BufferManagedPtr T1) (pt2 : BufferManagedPtr T2)
  : M BufferManager bool :=
  a <~ get pt1 ;; b <~ get pt2 ;; ret (a <=? b).

(** [operator+(std::ptrdiff_t diff, const BufferManagedPtr<T>& right)] *)
Definition operator_plus_left (diff : Z) (right : BufferManagedPtr T1)
  : BufferManagedPtr T1 :=
  operator_plus right diff.
End FreeOperators.

(** A buffer manager to run the pointer code on: it records every page
    it was asked for and places page [i] of any class at [65536 * (i + 1)]. *)
Definition RecordingManager : Type := list PageID.

#[global] Instance recording_ops : BufferManagerOps RecordingManager := {
  get_page page_id requests :=
    ({| data := 65536 * (index page_id + 1) |}, page_id :: requests)
}.

End Ptr.


(** ** The task scheduler *)

(** The files that implement tasks, queues, workers and the scheduler
    ([abstract_task], [task_queue], [worker], [abstract_scheduler],
    [node_queue_scheduler.cpp]) are missing from the sources; the scheduler's
    header comment and [scheduler_test.cpp] are there.  The operations of this
    module are modelled from the specification, each one says from which
    part; the workloads are those of the test file. *)
Module Scheduler.

Local Open Scope nat_scope.

Abbreviation TaskID := nat.

Inductive TaskState := Created | Scheduled | Ready | Running | Done.

#[global] Instance TaskState_eq_dec : EqDecision TaskState.
Proof. solve_decision. Defined.

Section Model.
Context {Mem : Type}.

(** Modelled from the spec: the task of [abstract_task], which is
    missing (section 3: state, atomic predecessor count, successor list,
    payload). *)
Record Task := {
  state : TaskState;
  pending_predecessors : nat;
  successors : list TaskID;
  payload : Mem -> Mem
}.

Definition with_state (s : TaskState) (t : Task) : Task :=
  {| state := s; pending_predecessors := pending_predecessors t;
     successors := successors t; payload := payload t |}.

Definition with_pending (n : nat) (t : Task) : Task :=
  {| state := state t; pending_predecessors := n;
     successors := successors t; payload := payload t |}.

Definition add_successor (b : TaskID) (t : Task) : Task :=
  {| state := state t; pending_predecessors := pending_predecessors t;
     successors := successors t ++ [b]; payload := payload t |}.

(** A task as [std::make_shared<JobTask>(payload)] leaves it. *)
Definition JobTask (f : Mem -> Mem) : Task :=
  {| state := Created; pending_predecessors := 0; successors := []; payload := f |}.

(** Modelled from the spec: the scheduler state of the missing
    [node_queue_scheduler.cpp], [task_queue] and [worker].  [next] holds the
    successors that a worker executes itself, right after the task whose end
    brought their count to zero; [queue] is the task queue. *)
Record State := {
  tasks : list Task;
  next : list TaskID;
  queue : list TaskID;
  memory : Mem
}.

(** Modelled from the spec: [a->set_as_predecessor_of(b)] of the
    missing [abstract_task] (section 4.9: adds the edge and increments the
    count of [b]), on the task vector. *)
Definition set_as_predecessor_of (a b : TaskID) (ts : list Task) : list Task :=
  if decide (a < length ts /\ b < length ts)
  then alter (fun t => with_pending (S (pending_predecessors t)) t) b
         (alter (add_successor b) a ts)
  else ts.

(** Modelled from the spec: [schedule] of the missing [abstract_task]
    (section 4.9): a created task is marked as scheduled and, when it has no
    pending predecessor, delivered to the queue; otherwise it waits; on a
    task that was scheduled before it is a no-op. *)
Definition schedule (t : TaskID) (st : State) : State :=
  match tasks st !! t with
  | Some tk =>
      match state tk with
      | Created =>
          if pending_predecessors tk =? 0
          then {| tasks := <[t := with_state Ready tk]> (tasks st);
                  next := next st; queue := queue st ++ [t]; memory := memory st |}
          else {| tasks := <[t := with_state Scheduled tk]> (tasks st);
                  next := next st; queue := queue st; memory := memory st |}
      | _ => st
      end
  | None => st
  end.

(** Modelled from the spec: the notification of successor [s] by the
    missing [abstract_task] (sections 3 and 4.9): the count goes down by one;
    a successor whose count hits zero is executed inline by the worker that
    finished its last predecessor, so it is the next task of that worker, and
    it becomes ready if it is scheduled.  A task that was not scheduled yet
    becomes ready with its own [schedule] (lifecycle: constructed, scheduled,
    executed once). *)
Definition on_predecessor_done (acc : list Task * list TaskID) (s : TaskID)
  : list Task * list TaskID :=
  let '(ts, inline) := acc in
  match ts !! s with
  | Some tk =>
      let n := Nat.pred (pending_predecessors tk) in
      if decide (n = 0)
      then (<[s := if decide (state tk = Scheduled)
                   then with_state Ready (with_pending n tk)
                   else with_pending n tk]> ts,
            inline ++ [s])
      else (<[s := with_pending n tk]> ts, inline)
  | None => (ts, inline)
  end.

(** Modelled from the spec: the loop over the successors of a task that
    is done, in the missing [abstract_task]. *)
Definition notify_successors (succs : list TaskID) (ts : list Task)
  : list Task * list TaskID :=
  foldl on_predecessor_done (ts, []) succs.

(** Modelled from the spec: a worker of the missing [worker] takes ready
    task [t] out of the queues and starts it (section 4.11). *)
Definition start (t : TaskID) (st : State) : option State :=
  match tasks st !! t with
  | Some tk =>
      if decide (state tk = Ready)
      then Some {| tasks := <[t := with_state Running tk]> (tasks st);
                   next := filter (fun x => x <> t) (next st);
                   queue := filter (fun x => x <> t) (queue st);
                   memory := memory st |}
      else None
  | None => None
  end.

(** Modelled from the spec: [execute] of the missing [abstract_task]
    comes to its end (section 4.9): the payload of running task [t] has run,
    [t] is done and its successors are notified. *)
Definition finish (t : TaskID) (st : State) : option State :=
  match tasks st !! t with
  | Some tk =>
      if decide (state tk = Running)
      then
        let '(ts, inline) :=
          notify_successors (successors tk) (<[t := with_state Done tk]> (tasks st)) in
        Some {| tasks := ts; next := inline ++ next st; queue := queue st;
                memory := payload tk (memory st) |}
      else None
  | None => None
  end.

(** What the threads of the system do, in any interleaving: some thread
    calls [schedule], some worker starts a ready task, some worker finishes
    the task it runs.  Any number of tasks may be running. *)
Inductive Action := Schedule (t : TaskID) | Start (t : TaskID) | Finish (t : TaskID).

#[global] Instance Action_eq_dec : EqDecision Action.
Proof. solve_decision. Defined.

Definition step (a : Action) (st : State) : option State :=
  match a with
  | Schedule t => Some (schedule t st)
  | Start t => start t st
  | Finish t => finish t st
  end.

Fixpoint run (trace : list Action) (st : State) : option State :=
  match trace with
  | [] => Some st
  | a :: rest => match step a st with Some st' => run rest st' | None => None end
  end.

(** The tasks of a graph: one [JobTask] per payload, then the edges. *)
Definition build (payloads : list (Mem -> Mem)) (edges : list (TaskID * TaskID))
  : list Task :=
  foldl (fun ts e => set_as_predecessor_of e.1 e.2 ts) (JobTask <$> payloads) edges.

Definition initial (ts : list Task) (m : Mem) : State :=
  {| tasks := ts; next := []; queue := []; memory := m |}.

(** [b] is a successor of [a]. *)
Definition predecessor_of (ts : list Task) (a b : TaskID) : Prop :=
  exists ta, ts !! a = Some ta /\ b ∈ successors ta.

(** The number of edges into [b] from tasks that are not done. *)
Definition is_done (t : Task) : bool := bool_decide (state t = Done).

Definition open_edges (b : TaskID) (t : Task) : nat :=
  if is_done t then 0 else length (filter (fun x => x = b) (successors t)).

Definition undone_predecessors (ts : list Task) (b : TaskID) : nat :=
  sum_list_with (open_edges b) ts.

(** The number of notifications for [b] in a successor list. *)
Definition occurrences (b : TaskID) (l : list TaskID) : nat :=
  length (filter (fun x => x = b) l).

(** The static part of a task vector. *)
Definition graph (ts : list Task) : list (list TaskID) := successors <$> ts.
Definition payload_vector (ts : list Task) : list (Mem -> Mem) := payload <$> ts.

Definition started (s : TaskState) : Prop := s = Ready \/ s = Running \/ s = Done.

(** While the successors in [rem] still wait for their notification, the
    count of a task is the number of its open edges plus the notifications
    on their way to it; a task that was delivered has no pending
    predecessor. *)
Record notifying (ts : list Task) (rem : list TaskID) : Prop := {
  counts_open_edges :
    forall b tb, ts !! b = Some tb ->
      pending_predecessors tb = undone_predecessors ts b + occurrences b rem;
  started_without_pending :
    forall b tb, ts !! b = Some tb -> started (state tb) ->
      pending_predecessors tb = 0
}.

Definition consistent (ts : list Task) : Prop := notifying ts [].

(** How one action may change the state of task [i]. *)
Definition transition (a : Action) (i : TaskID) (s s' : TaskState) : Prop :=
  match a with
  | Schedule t => i = t /\ s = Created /\ (s' = Ready \/ s' = Scheduled)
  | Start t => i = t /\ s = Ready /\ s' = Running
  | Finish t => (i = t /\ s = Running /\ s' = Done) \/ (s = Scheduled /\ s' = Ready)
  end.

(** The tasks after some actions: same length, same successors and
    payloads, and states that moved as [R] allows. *)
Definition evolved (R : TaskID -> TaskState -> TaskState -> Prop)
    (ts ts' : list Task) : Prop :=
  length ts' = length ts /\
  forall i tk', ts' !! i = Some tk' ->
    exists tk, ts !! i = Some tk
      /\ successors tk' = successors tk /\ payload tk' = payload tk
      /\ (state tk' = state tk \/ R i (state tk) (state tk')).

(** A notification only turns a scheduled task into a ready one. *)
Definition woken (i : TaskID) (s s' : TaskState) : Prop := s = Scheduled /\ s' = Ready.

Definition all_created (ts : list Task) : Prop := Forall (fun tk => state tk = Created) ts.

(** Nothing changes the successors and payloads of a task. *)
Definition same_graph (ts ts' : list Task) : Prop := evolved (fun _ _ _ => True) ts ts'.

(** What a trace tells about the state it leads to, and the order of its
    actions. *)
Record run_facts (ts0 : list Task) (tr : list Action) (st : State) : Prop := {
  run_consistent : consistent (tasks st);
  run_same_graph : same_graph ts0 (tasks st);
  done_finished :
    forall t tk, tasks st !! t = Some tk -> state tk = Done -> Finish t ∈ tr;
  running_started :
    forall t tk, tasks st !! t = Some tk ->
      state tk = Running \/ state tk = Done -> Start t ∈ tr;
  start_after_predecessors :
    forall a b pre post, predecessor_of ts0 a b ->
      tr = pre ++ Start b :: post -> Finish a ∈ pre;
  finish_after_start :
    forall t pre post, tr = pre ++ Finish t :: post -> Start t ∈ pre
}.

Definition done_count (ts : list Task) : nat :=
  sum_list_with (fun tk => if is_done tk then 1 else 0) ts.

Definition all_done (ts : list Task) : Prop := Forall (fun tk => state tk = Done) ts.

(** A scheduled task that waits has a predecessor that is not done: no
    notification is lost. *)
Definition waits_for_predecessor (tk : Task) : Prop :=
  state tk = Scheduled -> pending_predecessors tk <> 0.

(** The actions of the workers that a task has behind it. *)
Definition worker_actions_of (tk : Task) : nat :=
  match state tk with
  | Running => 1
  | Done => 2
  | _ => 0
  end.

Definition worker_actions (ts : list Task) : nat := sum_list_with worker_actions_of ts.

(** No worker can start or finish a task. *)
Definition workers_idle (st : State) : Prop :=
  forall t, start t st = None /\ finish t st = None.

(** *** One worker *)

(** Modelled from the spec: the choice of the missing [worker]
    (section 4.11 and the scheduler's header comment: "the executing worker
    tries to execute the successors before pulling new tasks from the
    TaskQueues"): first the successor it is to execute inline, then the head
    of the queue. *)
Definition worker_pick (st : State) : option TaskID :=
  match next st with
  | t :: _ => Some t
  | [] => head (queue st)
  end.

(** Modelled from the spec: one round of the loop of the missing
    [worker]; a single worker runs a task to its end before it takes the next
    one.  There is no round when there is nothing to take, or when the
    successor to execute is not scheduled yet: then the worker waits
    ([scheduler_test.cpp]: "successor tasks are called immediately after
    their dependencies finish"). *)
Definition worker_step (st : State) : option State :=
  match worker_pick st with
  | Some t =>
      match start t st with
      | Some st' => finish t st'
      | None => None
      end
  | None => None
  end.

(** Modelled from the spec: [_group_tasks] of the missing
    [node_queue_scheduler.cpp] (section 4.12): task [k] becomes the
    predecessor of task [k + num_groups]. *)
Definition group_tasks (num_groups : nat) (ts : list Task) : list Task :=
  foldl (fun ts k =>
           if decide (k + num_groups < length ts)
           then set_as_predecessor_of k (k + num_groups) ts
           else ts)
        ts (seq 0 (length ts)).

(** Who moves next: the thread that called [schedule_and_wait_for_tasks]
    schedules the next task of the batch, or the worker does a round of its
    loop. *)
Inductive Move := ScheduleNext | WorkerRound.

(** One move, on the tasks the caller has still to schedule and the state
    of the scheduler; it is defined when the move can be made. *)
Definition move (mv : Move) (c : list TaskID * State) : option (list TaskID * State) :=
  match mv with
  | ScheduleNext =>
      match c.1 with
      | t :: rest => Some (rest, schedule t c.2)
      | [] => None
      end
  | WorkerRound =>
      match worker_step c.2 with
      | Some st' => Some (c.1, st')
      | None => None
      end
  end.

(** The moves of the two threads, one after the other; defined when
    every move can be made. *)
Fixpoint interleave (moves : list Move) (c : list TaskID * State)
  : option (list TaskID * State) :=
  match moves with
  | [] => Some c
  | mv :: moves' =>
      match move mv c with
      | Some c' => interleave moves' c'
      | None => None
      end
  end.

(** Modelled from the spec: [schedule_and_wait_for_tasks] of the missing
    [abstract_scheduler] on a scheduler with one worker: group, then schedule
    the tasks in order, while the worker, which was started with the
    scheduler, does its rounds at any point in between; [moves] is the order
    in which the two threads move.  The result is what the caller has still
    to schedule and the state; the wait is over when the tasks are done.
    [determine_group_count], which is missing too, is the parameter
    [num_groups]. *)
Definition schedule_and_wait_for_tasks (num_groups : nat) (moves : list Move) (st : State)
  : option (list TaskID * State) :=
  let grouped := {| tasks := group_tasks num_groups (tasks st); next := next st;
                    queue := queue st; memory := memory st |} in
  interleave moves (seq 0 (length (tasks st)), grouped).

End Model.

Arguments Task : clear implicits.
Arguments State : clear implicits.

(** *** scheduler_test.cpp *)

(** The shared counter of [stress_linear_dependencies] and the number of
    [ASSERT_TRUE(successful)] that failed. *)
Record Counter := { counter : Z; failed_assertions : nat }.

(** [counter.compare_exchange_strong(current_value, desired)] followed by
    [ASSERT_TRUE(successful)]. *)
Definition cas_payload (expected desired : Z) (m : Counter) : Counter :=
  if (counter m =? expected)%Z
  then {| counter := desired; failed_assertions := failed_assertions m |}
  else {| counter := counter m; failed_assertions := S (failed_assertions m) |}.

(** [task1], [task2], [task3] are tasks 0, 1, 2. *)
Definition stress_linear_dependencies_tasks : list (Task Counter) :=
  build [cas_payload 0 1; cas_payload 1 2; cas_payload 2 3]%Z
        [(0, 1); (1, 2)].

Definition stress_linear_dependencies_schedule : list Action :=
  [Schedule 2; Schedule 0; Schedule 1].

Definition counter_zero : Counter := {| counter := 0; failed_assertions := 0 |}.

(** The [Schedule] actions of a trace. *)
Definition is_schedule (a : Action) : bool :=
  match a with Schedule _ => true | _ => false end.

Definition schedule_calls (trace : list Action) : list Action :=
  filter (fun a => is_schedule a = true) trace.

(** The test [Grouping]: task [task_id] appends its id to [output]. *)
Definition grouping_payload (task_id : nat) (output : list nat) : list nat :=
  output ++ [task_id].

(** The [TASK_COUNT] tasks of the test. *)

Definition grouping_tasks (task_count : nat) : list (Task (list nat)) :=
  (fun task_id => JobTask (grouping_payload task_id)) <$> seq 0 task_count.

(** The inner [while] loop of the test, which runs at most [fuel] rounds. *)
Fixpoint expected_group (fuel task_count num_groups group_id task_id : nat)
  : list nat :=
  match fuel with
  | O => []
  | S fuel' =>
      if decide (task_id < task_count)
      then (if decide (task_id `mod` num_groups = group_id) then [task_id] else [])
           ++ expected_group fuel' task_count num_groups group_id (task_id + num_groups)
      else []
  end.

(** The outer [for] loop: one chain per group id. *)
Definition expected_output (task_count num_groups : nat) : list nat :=
  flat_map (fun group_id =>
              expected_group task_count task_count num_groups group_id group_id)
           (seq 0 num_groups).

(** *** The states the grouped batch goes through *)

Section GroupingStates.
Context (task_count num_groups : nat).








(** The ids of the chain that starts at [c]: [c], [c + num_groups], ... *)
Fixpoint chain_ids (fuel c : nat) : list nat :=
  match fuel with
  | O => []
  | S fuel' =>
      if decide (c < task_count) then c :: chain_ids fuel' (c + num_groups) else []
  end.






End GroupingStates.

End Scheduler.

(** ** One worker and tasks that spawn tasks *)

(** The worker and [wait_for_tasks] are missing from the sources.  A
    payload does its own work, creates and schedules its subtasks (they have
    no predecessors, so they go to the queue) and calls [wait_for_tasks] on
    them, as the payloads of [scheduler_test.cpp] do.  The batch is scheduled
    before the worker takes its first task. *)
Module Cooperative.
Import Scheduler.

Local Open Scope nat_scope.

Section Model.
Context {Mem : Type}.

(** A payload: work on the shared memory, then subtasks to spawn and wait
    for. *)
Local Unset Elimination Schemes.
Inductive Job := job (work : Mem -> Mem) (subtasks : list Job).
Local Set Elimination Schemes.

Definition work_of (j : Job) : Mem -> Mem := match j with job w _ => w end.
Definition subtasks_of (j : Job) : list Job := match j with job _ js => js end.


(** Modelled from the spec: the task of the missing [abstract_task], with
    a payload that spawns (section 3). *)
Record Entry := { payload_of : Job; state_of : TaskState }.

(** Modelled from the spec: a call of [wait_for_tasks] of the missing
    [worker]: the task the worker is executing, and the tasks its wait is
    about. *)
Record Frame := { running : TaskID; awaited : list TaskID }.


Definition running_entry (e : Entry) : Entry :=
  {| payload_of := payload_of e; state_of := Running |}.


(** Modelled from the spec: the state of a scheduler with one worker;
    [stack] is the worker's call stack of nested waits. *)
Record State := {
  tasks : list Entry;
  queue : list TaskID;
  stack : list Frame;
  memory : Mem
}.

Definition is_done (ts : list Entry) (t : TaskID) : bool :=
  match ts !! t with
  | Some e => bool_decide (state_of e = Done)
  | None => false
  end.

(** Modelled from the spec: [std::make_shared<JobTask>(...)] and the
    missing [schedule] (section 4.9) for each job, in order: the new tasks
    have no predecessor, so they are ready and queued. *)
Definition spawn (js : list Job) (ts : list Entry) (q : list TaskID)
  : list Entry * list TaskID * list TaskID :=
  let ids := seq (length ts) (length js) in
  (ts ++ ((fun j => {| payload_of := j; state_of := Ready |}) <$> js), q ++ ids, ids).

(** Modelled from the spec: the missing [worker] starts task [t]
    (section 4.11): the payload runs up to its wait. *)
Definition begin (t : TaskID) (q : list TaskID) (st : State) : State :=
  match tasks st !! t with
  | Some e =>
      let running_entry := {| payload_of := payload_of e; state_of := Running |} in
      let '(ts, q', ids) :=
        spawn (subtasks_of (payload_of e)) (<[t := running_entry]> (tasks st)) q in
      {| tasks := ts; queue := q';
         stack := {| running := t; awaited := ids |} :: stack st;
         memory := work_of (payload_of e) (memory st) |}
  | None => {| tasks := tasks st; queue := q; stack := stack st; memory := memory st |}
  end.

(** Modelled from the spec: [wait_for_tasks] of the missing [worker]
    returns for the innermost task (section 4.11: only when all awaited tasks
    are done), and the task is done. *)
Definition complete (fr : Frame) (rest : list Frame) (st : State) : State :=
  {| tasks := alter (fun e => {| payload_of := payload_of e; state_of := Done |})
                    (running fr) (tasks st);
     queue := queue st; stack := rest; memory := memory st |}.

Inductive Outcome := Progress (st : State) | Idle | Blocked.

(** Modelled from the spec: the main loop of the missing [worker] takes
    the next task from the queue (section 4.11); with nothing to take, the
    single worker blocks, which inside a wait is a deadlock. *)
Definition take_next (st : State) : Outcome :=
  match queue st with
  | t :: q => Progress (begin t q st)
  | [] => match stack st with [] => Idle | _ :: _ => Blocked end
  end.

(** Modelled from the spec: cooperative [wait_for_tasks] of the missing
    [worker] (section 4.11): a worker that waits continues the main loop and
    returns only when all awaited tasks are done. *)
Definition step (st : State) : Outcome :=
  match stack st with
  | fr :: rest =>
      if forallb (is_done (tasks st)) (awaited fr)
      then Progress (complete fr rest st)
      else take_next st
  | [] => take_next st
  end.

Inductive Result := Finished (st : State) | Deadlock (st : State) | OutOfFuel (st : State).

(** Modelled from the spec: the loop of the missing [worker], for as
    many rounds as there is fuel. *)
Fixpoint run (fuel : nat) (st : State) : Result :=
  match fuel with
  | O => OutOfFuel st
  | S fuel' =>
      match step st with
      | Progress st' => run fuel' st'
      | Idle => Finished st
      | Blocked => Deadlock st
      end
  end.

(** The batch as the caller schedules it, when it is scheduled before the
    worker takes its first task. *)
Definition scheduled (js : list Job) (m : Mem) : State :=
  let '(ts, q, _) := spawn js [] [] in
  {| tasks := ts; queue := q; stack := []; memory := m |}.






Definition all_done (st : State) : Prop :=
  Forall (fun e => state_of e = Done) (tasks st).






End Model.

Arguments Job : clear implicits.
Arguments State : clear implicits.
Arguments Result : clear implicits.

(** *** scheduler_test.cpp *)

(** [increment_counter_in_subtasks]: ten tasks, each spawning three jobs
    that increment the counter, and waiting for them. *)
Definition increment_counter_in_subtasks : list (Job Z) :=
  replicate 10 (job (fun c => c) (replicate 3 (job (fun c => (c + 1)%Z) []))).

(** [SingleWorkerGuaranteeProgress]: a task whose subtask sets
    [task_done], and which waits for it. *)
Definition single_worker_guarantee_progress : list (Job bool) :=
  [job (fun task_done => task_done) [job (fun _ => true) []]].

End Cooperative.

(** ** Frames, pins and the eviction queue *)

(** [frame.hpp] and the implementation of [BufferManager::pin_page],
    [unpin_page] and of [EvictionItem::can_evict] are missing from the
    sources, which only declare them.  The operations of this module are
    modelled from the specification; each of them is one atomic step. *)
Module BufferPool.

Local Open Scope nat_scope.

#[global] Instance PageID_countable : Countable PageID.
Proof.
  apply (inj_countable' (fun p => (_valid p, _size_type p, index p))
                        (fun t => {| _valid := t.1.1; _size_type := t.1.2; index := t.2 |})).
  by intros [].
Defined.

Inductive FrameState :=
  | EVICTED | LOADING | RESIDENT | MARKED_FOR_EVICTION | LOCKED_EXCLUSIVE.

#[global] Instance FrameState_eq_dec : EqDecision FrameState.
Proof. solve_decision. Defined.

(** Modelled from the spec: the frame of the missing [frame.hpp]
    (section 3): a state and a version that every transition increments, a
    pin count, a dirty flag, and whether it holds a slot of the volatile
    region.  The version is not bounded. *)
Record Frame := {
  state : FrameState;
  version : nat;
  pin_count : nat;
  dirty : bool;
  has_slot : bool
}.

(** [EvictionItem] of helper.hpp. *)
Record EvictionItem := { page_id : PageID; timestamp : nat }.

(** Modelled from the spec: [EvictionItem::can_evict], declared in
    helper.hpp without a body (sections 3 and 4.6): the frame is marked and
    still has the version it was enqueued with. *)
Definition can_evict (item : EvictionItem) (f : Frame) : bool :=
  bool_decide (state f = MARKED_FOR_EVICTION) && (version f =? timestamp item).

(** Modelled from the spec: the buffer manager's frames, page table and
    eviction queue (section 3), and the pages written back. *)
Record BufferManager := {
  frames : gmap PageID Frame;
  page_table : gset PageID;
  eviction_queue : list EvictionItem;
  written : list PageID
}.

Definition empty_manager : BufferManager :=
  {| frames := ∅; page_table := ∅; eviction_queue := []; written := [] |}.

(** Modelled from the spec: one transition of the frame's state in the
    missing [frame.hpp] (section 4.4); the version goes up by one. *)
Definition transit (s : FrameState) (f : Frame) : Frame :=
  {| state := s; version := S (version f); pin_count := pin_count f;
     dirty := dirty f; has_slot := has_slot f |}.

Definition with_pin_count (n : nat) (f : Frame) : Frame :=
  {| state := state f; version := version f; pin_count := n;
     dirty := dirty f; has_slot := has_slot f |}.

Definition with_dirty (d : bool) (f : Frame) : Frame :=
  {| state := state f; version := version f; pin_count := pin_count f;
     dirty := d; has_slot := has_slot f |}.

Definition with_slot (b : bool) (f : Frame) : Frame :=
  {| state := state f; version := version f; pin_count := pin_count f;
     dirty := dirty f; has_slot := b |}.

(** Modelled from the spec: [new_page], declared in buffer_manager.hpp
    (section 3, lifecycle): a freshly allocated page is resident and in the
    page table. *)
Definition new_page (p : PageID) (bm : BufferManager) : option BufferManager :=
  match frames bm !! p with
  | Some _ => None
  | None =>
      Some {| frames := <[p := {| state := RESIDENT; version := 0; pin_count := 0;
                                  dirty := false; has_slot := true |}]> (frames bm);
              page_table := {[p]} ∪ page_table bm;
              eviction_queue := eviction_queue bm; written := written bm |}
  end.

(** Modelled from the spec: what a pin does to the frame it finds
    (sections 4.4 and 4.7): a marked frame goes back to resident, an evicted
    one is loaded into a slot. *)
Definition make_resident (f : Frame) : option Frame :=
  match state f with
  | RESIDENT => Some f
  | MARKED_FOR_EVICTION => Some (transit RESIDENT f)
  | EVICTED => Some (transit RESIDENT (with_slot true (transit LOADING f)))
  | LOADING | LOCKED_EXCLUSIVE => None
  end.

(** Modelled from the spec: [BufferManager::pin_page], declared in
    buffer_manager.hpp (section 4.7): the page is made resident and its pin
    count goes up. *)
Definition pin_page (p : PageID) (bm : BufferManager) : option BufferManager :=
  match frames bm !! p with
  | Some f =>
      match make_resident f with
      | Some f' =>
          Some {| frames := <[p := with_pin_count (S (pin_count f')) f']> (frames bm);
                  page_table := {[p]} ∪ page_table bm;
                  eviction_queue := eviction_queue bm; written := written bm |}
      | None => None
      end
  | None => None
  end.

(** Modelled from the spec: [BufferManager::unpin_page], declared in
    buffer_manager.hpp (sections 4.6 and 4.7): the unpin that brings the
    count to zero marks the frame and enqueues the page with the frame's
    version.  Unpinning a page that is not pinned is a programming error. *)
Definition unpin_page (p : PageID) (is_dirty : bool) (bm : BufferManager)
  : option BufferManager :=
  match frames bm !! p with
  | Some f =>
      match pin_count f with
      | O => None
      | S n =>
          let f1 := with_dirty (dirty f || is_dirty) (with_pin_count n f) in
          if decide (n = 0 /\ state f = RESIDENT)
          then
            let f2 := transit MARKED_FOR_EVICTION f1 in
            Some {| frames := <[p := f2]> (frames bm); page_table := page_table bm;
                    eviction_queue :=
                      eviction_queue bm ++ [{| page_id := p; timestamp := version f2 |}];
                    written := written bm |}
          else
            Some {| frames := <[p := f1]> (frames bm); page_table := page_table bm;
                    eviction_queue := eviction_queue bm; written := written bm |}
      end
  | None => None
  end.

(** Modelled from the spec: one eviction attempt of the missing buffer
    manager implementation (section 4.6): pop a candidate; if it is still
    valid the page is written back when dirty, its slot released and its
    page-table entry erased; otherwise the candidate is stale and skipped. *)
Definition evict (bm : BufferManager) : option BufferManager :=
  match eviction_queue bm with
  | [] => None
  | item :: rest =>
      match frames bm !! page_id item with
      | Some f =>
          if can_evict item f
          then
            Some {| frames :=
                      <[page_id item :=
                          with_slot false (with_dirty false (transit EVICTED f))]>
                        (frames bm);
                    page_table := page_table bm ∖ {[page_id item]};
                    eviction_queue := rest;
                    written := if dirty f then written bm ++ [page_id item]
                               else written bm |}
          else
            Some {| frames := frames bm; page_table := page_table bm;
                    eviction_queue := rest; written := written bm |}
      | None =>
          Some {| frames := frames bm; page_table := page_table bm;
                  eviction_queue := rest; written := written bm |}
      end
  end.

Inductive Operation :=
  | NewPage (p : PageID)
  | Pin (p : PageID)
  | Unpin (p : PageID) (is_dirty : bool)
  | Evict.

(** A step is defined when the operation is legal. *)
Definition step (op : Operation) (bm : BufferManager) : option BufferManager :=
  match op with
  | NewPage p => new_page p bm
  | Pin p => pin_page p bm
  | Unpin p d => unpin_page p d bm
  | Evict => evict bm
  end.

Fixpoint run (ops : list Operation) (bm : BufferManager) : option BufferManager :=
  match ops with
  | [] => Some bm
  | op :: rest => match step op bm with Some bm' => run rest bm' | None => None end
  end.

(** What every legal sequence of operations keeps true. *)
Record pin_safe (bm : BufferManager) : Prop := {
  pinned_resident :
    forall p f, frames bm !! p = Some f -> 0 < pin_count f -> state f = RESIDENT;
  settled :
    forall p f, frames bm !! p = Some f ->
      state f = EVICTED \/ state f = RESIDENT \/ state f = MARKED_FOR_EVICTION;
  table_consistent :
    forall p f, frames bm !! p = Some f -> (p ∈ page_table bm <-> state f <> EVICTED);
  slot_consistent :
    forall p f, frames bm !! p = Some f -> (has_slot f = true <-> state f <> EVICTED);
  candidates_not_ahead :
    forall item, item ∈ eviction_queue bm ->
      exists f, frames bm !! page_id item = Some f /\ timestamp item <= version f
}.

End BufferPool.

(** ** helper.hpp: page ids, constants and the backoff *)

Module HelperExt.

(** [PageID::num_bytes] *)
Definition num_bytes (p : PageID) : option Z := bytes_for_size_type <$> size_type p.

Definition PAGE_ALIGNMENT : Z := 512.
Definition MAX_REPEAT_COUNT : Z := 100.
Definition MAX_EVICTION_QUEUE_PURGES : Z := 1024.

(** [1UL << 38] *)
Definition DEFAULT_RESERVED_VIRTUAL_MEMORY : Z := size_t_wrap (Z.shiftl 1 38).

(** [(DEFAULT_RESERVED_VIRTUAL_MEMORY / NUM_PAGE_SIZE_TYPES) /
     bytes_for_size_type(MAX_PAGE_SIZE_TYPE) * bytes_for_size_type(MAX_PAGE_SIZE_TYPE)] *)
Definition DEFAULT_RESERVED_VIRTUAL_MEMORY_PER_REGION : Z :=
  size_t_wrap
    ((DEFAULT_RESERVED_VIRTUAL_MEMORY / NUM_PAGE_SIZE_TYPES)
       / bytes_for_size_type MAX_PAGE_SIZE_TYPE
     * bytes_for_size_type MAX_PAGE_SIZE_TYPE).

Definition INITIAL_SLOTS_PER_REGION : Z := 10000000.

Inductive AccessIntent := Read | Write.

(** What one call of [yield] does. *)
Inductive Backoff :=
  | Nothing
  | ThreadYield
  | SleepFor (nanoseconds : Z)
  | YieldFailure.

(** [yield(const size_t repeat)]: busy waiting with backoff. *)
Definition yield (repeat : Z) : Backoff :=
  if repeat <? 4 then Nothing
  else if (repeat <? 32) || negb (Z.land repeat 1 =? 0) then ThreadYield
  else if repeat <? 1000000 then SleepFor 1000
  else YieldFailure.

End HelperExt.

(** ** buffer_managed_ptr.hpp: copies, assignment, swap and differences *)

Module PtrExt.
Import Ptr.

Section Members.
Context {BufferManager : Type} `{!BufferManagerOps BufferManager}.

(** [BufferManagedPtr(const BufferManagedPtr<U>& other)], and the copy
    constructor, which is the case of one pointee type. *)
Definition from_other {U T : Type} (other : BufferManagedPtr U) : BufferManagedPtr T :=
  Build (get_page_id other) (get_offset other).

(** [operator=(const BufferManagedPtr<T2>& ptr)], also for one pointee
    type: the object after the call. *)
Definition operator_assign {T T2 : Type} (this : BufferManagedPtr T)
    (ptr : BufferManagedPtr T2) : BufferManagedPtr T :=
  Build (get_page_id ptr) (get_offset ptr).

(** [operator=(pointer from)]: the object after the call; the body only
    returns [*this]. *)
Definition operator_assign_raw {T : Type} (this : BufferManagedPtr T) (from : Z)
  : BufferManagedPtr T :=
  this.

(** [pointer_to(reference r)] is [BufferManagedPtr(&r)]; the argument has
    the type [pointer], for which the constructor that is no template is the
    better match. *)
Definition pointer_to {T : Type} (address_of_r : Z) : BufferManagedPtr T :=
  from_pointer address_of_r.

(** [swap(pt, pt2)]: the two objects after the call.  [pt2 = ptr] assigns
    a raw pointer. *)
Definition swap {T : Type} (pt pt2 : BufferManagedPtr T)
  : M BufferManager (BufferManagedPtr T * BufferManagedPtr T) :=
  ptr <~ get pt ;;
  let pt' := operator_assign pt pt2 in
  let pt2' := operator_assign_raw pt2 ptr in
  ret (pt', pt2').

(** [operator-(const BufferManagedPtr<T>& pt, const BufferManagedPtr<T2>& pt2)]:
    the difference [pt.get() - pt2.get()] of two raw pointers to [T], which
    counts elements of [sizeof(T)] bytes.  The operands are resolved left to
    right.  The subtraction of raw pointers is defined for pointers to
    elements of one array, whose addresses are a whole number of elements
    apart; otherwise the behaviour is undefined and there is no result. *)
Definition operator_minus_ptr {T T2 : Type} (sizeof : Z)
    (pt : BufferManagedPtr T) (pt2 : BufferManagedPtr T2) : M BufferManager (option Z) :=
  a <~ get pt ;; b <~ get pt2 ;;
  let bytes := ptrdiff_wrap (a - b) in
  ret (if (0 <? sizeof) && (bytes mod sizeof =? 0)
       then Some (bytes / sizeof)
       else None).

(** [operator[](std::ptrdiff_t idx)]: the address of [get()[idx]]. *)
Definition operator_index {T : Type} (sizeof : Z) (p : BufferManagedPtr T) (idx : Z)
  : M BufferManager Z :=
  a <~ get p ;; ret (ptr_add a (idx * sizeof)).

End Members.

End PtrExt.

(** ** utils/column_id_before_pruning.cpp *)

Module ColumnPruning.

(** A [ColumnID] is a 16-bit unsigned number; [++column_id] wraps. *)
Definition ColumnID_wrap (z : Z) : Z := z `mod` 2 ^ 16.

(** [std::is_sorted]: no element is less than the one before it. *)
Fixpoint is_sorted (ids : list Z) : bool :=
  match ids with
  | [] => true
  | x :: rest =>
      match rest with
      | [] => true
      | y :: _ => negb (y <? x) && is_sorted rest
      end
  end.

Inductive AssertionFailure := ExpectedSortedVector.

(** The range-for loop over the pruned column ids that are left. *)
Fixpoint before_pruning_loop (column_id : Z) (pruned_column_ids : list Z) : Z :=
  match pruned_column_ids with
  | [] => column_id
  | pruned_column_id :: rest =>
      if column_id <? pruned_column_id then column_id
      else before_pruning_loop (ColumnID_wrap (column_id + 1)) rest
  end.

(** [column_id_before_pruning]; the [DebugAssert] is checked in a debug
    build only. *)
Definition column_id_before_pruning (HYRISE_DEBUG : bool) (column_id : Z)
    (pruned_column_ids : list Z) : AssertionFailure + Z :=
  if HYRISE_DEBUG && negb (is_sorted pruned_column_ids)
  then inl ExpectedSortedVector
  else inr (before_pruning_loop column_id pruned_column_ids).

(** The pruned column ids below [column_id]. *)
Definition pruned_below (column_id : Z) (pruned_column_ids : list Z) : list Z :=
  filter (fun pruned_column_id => pruned_column_id < column_id) pruned_column_ids.

End ColumnPruning.

(** ** plugins/dependency_mining/dependency_validator.cpp *)

Module DependencyValidator.

(** [_validate_od]: the loop that collects, for the determinant and for
    the dependent, every column but that one. *)
Definition od_pruned_columns (column_count determinant_column_id dependent_column_id : Z)
  : list Z * list Z :=
  foldl (fun '(determinant_pruned_columns, dependent_pruned_columns) column_id =>
           (if decide (column_id <> determinant_column_id)
            then determinant_pruned_columns ++ [column_id]
            else determinant_pruned_columns,
            if decide (column_id <> dependent_column_id)
            then dependent_pruned_columns ++ [column_id]
            else dependent_pruned_columns))
        ([], []) (seqZ 0 column_count).

(** [_validate_ucc]: the loop that collects the columns that are not
    among the candidate's. *)
Definition ucc_pruned_columns (column_count : Z) (candidate_columns : gset Z) : list Z :=
  foldl (fun pruned_columns column_id =>
           if decide (column_id ∈ candidate_columns) then pruned_columns
           else pruned_columns ++ [column_id])
        [] (seqZ 0 column_count).

Section OrderScan.
Context {ColumnDataType : Type}.
Context (greater : ColumnDataType -> ColumnDataType -> bool).

(** [_validate_od]: the variables the scan of the sorted table updates. *)
Record Scan := {
  is_valid : bool;
  is_init : bool;
  last_value : ColumnDataType
}.

(** The functor that [segment_iterate] calls for each position. *)
Definition visit (s : Scan) (current_value : ColumnDataType) : Scan :=
  if negb (is_init s)
  then {| is_valid := is_valid s; is_init := true; last_value := current_value |}
  else if greater (last_value s) current_value
       then {| is_valid := false; is_init := is_init s; last_value := last_value s |}
       else {| is_valid := is_valid s; is_init := is_init s; last_value := current_value |}.

(** The loop over the chunks of the sorted table; a chunk that was
    removed is a null pointer and is skipped; the dependent column of a chunk
    is the list of its values. *)
Fixpoint scan_chunks (s : Scan) (chunks : list (option (list ColumnDataType))) : Scan :=
  match chunks with
  | [] => s
  | chunk :: rest =>
      if negb (is_valid s) then s
      else match chunk with
           | None => scan_chunks s rest
           | Some segment => scan_chunks (foldl visit s segment) rest
           end
  end.

(** [is_valid] when the scan is over; [last_value{}] is [initial]. *)
Definition dependent_is_ordered (initial : ColumnDataType)
    (chunks : list (option (list ColumnDataType))) : bool :=
  is_valid (scan_chunks {| is_valid := true; is_init := false; last_value := initial |}
                        chunks).

End OrderScan.

(** The column types the validator tells apart. *)
Inductive DataType := Int | Long | Float | Double | String.

#[global] Instance DataType_eq_dec : EqDecision DataType.
Proof. solve_decision. Defined.

(** [_validate_ind]: a column of doubles counts as one of floats, a
    column of longs as one of ints. *)
Definition comparable_type (column_type : DataType) : DataType :=
  if decide (column_type = Double) then Float
  else if decide (column_type = Long) then Int
  else column_type.

Inductive SQLPipelineStatus := Success | NotSuccessful.

#[global] Instance SQLPipelineStatus_eq_dec : EqDecision SQLPipelineStatus.
Proof. solve_decision. Defined.

(** The line [_validate_ind] writes. *)
Inductive Verdict := INVALID | FAILED | VALID_bidirectional | VALID.

Section Inclusion.
Context {Row : Type} (row_differs : Row -> Row -> bool).

(** The [while] loop over the rows of the dependent: it compares
    [*dep_iter] with [*dep_iter] and moves both iterators on. *)
Fixpoint rows_differ (dep_rows det_rows : list Row) : bool :=
  match dep_rows with
  | [] => false
  | dep_row :: dep_rest =>
      if row_differs dep_row dep_row then true
      else rows_differ dep_rest (tail det_rows)
  end.

(** [_validate_ind], from the two column types and the results of the two
    queries for the distinct values. *)
Definition _validate_ind (det_column_type dep_column_type : DataType)
    (det : SQLPipelineStatus * list Row) (dep : SQLPipelineStatus * list Row)
  : bool * Verdict :=
  if decide (comparable_type dep_column_type <> comparable_type det_column_type)
  then (false, INVALID)
  else if decide (det.1 <> Success) then (false, FAILED)
  else if decide (dep.1 <> Success) then (false, FAILED)
  else if (length det.2 <? length dep.2)%nat then (false, INVALID)
  else if rows_differ dep.2 det.2 then (false, INVALID)
  else if (length dep.2 =? length det.2)%nat then (true, VALID_bidirectional)
  else (true, VALID).

End Inclusion.

End DependencyValidator.

(** ** storage/index/partial_hash/partial_hash_index_impl.cpp *)

Module PartialHashIndex.

Local Open Scope nat_scope.

Abbreviation ChunkID := nat.
Abbreviation ChunkOffset := nat.
Abbreviation ColumnID := nat.

Record RowID := { chunk_id : ChunkID; chunk_offset : ChunkOffset }.

#[global] Instance RowID_eq_dec : EqDecision RowID.
Proof. solve_decision. Defined.

(** The outcome of [Fail(...)] in [remove_entries]. *)
Inductive IndexFailure := ErasesNotSupported.

(** *** The iterators *)

(** A [BaseTableIndexIterator] is one of the two iterators of this file.
    A map iterator is the number of the entry it is at, in the order in
    which the map enumerates its entries, the number of entries for
    [cend()]; a vector iterator is a position in the vector. *)
Inductive TableIndexIterator :=
  | TbbHashMapIterator (_map_iterator : nat) (_vector_index : nat)
  | VectorIterator (_map_iterator : nat).

#[global] Instance TableIndexIterator_eq_dec : EqDecision TableIndexIterator.
Proof. solve_decision. Defined.

(** [TableIndexTbbHashMapIterator(MapIteratorType it)] *)
Definition hash_map_iterator (it : nat) : TableIndexIterator := TbbHashMapIterator it 0.

(** [operator==]: the [dynamic_cast] fails for an iterator of the other
    class. *)
Definition operator_eq (this other : TableIndexIterator) : bool :=
  match this, other with
  | TbbHashMapIterator it vi, TbbHashMapIterator it' vi' =>
      bool_decide (it = it') && bool_decide (vi = vi')
  | VectorIterator it, VectorIterator it' => bool_decide (it = it')
  | _, _ => false
  end.

(** [operator!=] *)
Definition operator_ne (this other : TableIndexIterator) : bool :=
  match this, other with
  | TbbHashMapIterator it vi, TbbHashMapIterator it' vi' =>
      negb (bool_decide (it = it')) || negb (bool_decide (vi = vi'))
  | VectorIterator it, VectorIterator it' => negb (bool_decide (it = it'))
  | _, _ => true
  end.

Section Index.
Context {DataType : Type} `{Countable DataType}.
Context {Chunk : Type}.

(** [Chunk::get_segment] is not part of this file; a segment is the list
    of its values, [None] for NULL, and [segment_iterate] visits the
    positions in order. *)
Context (get_segment : Chunk -> ColumnID -> list (option DataType)).

Record PartialHashIndexImpl := {
  _indexed_chunk_ids : gset ChunkID;
  _map : gmap DataType (list RowID);
  _null_values : list RowID
}.

Definition empty_index : PartialHashIndexImpl :=
  {| _indexed_chunk_ids := ∅; _map := ∅; _null_values := [] |}.

(** The entries of [_map] as its iterators enumerate them. *)
Definition entries (index : PartialHashIndexImpl) : list (DataType * list RowID) :=
  map_to_list (_map index).

(** [operator*]; there is nothing to read at [cend()] or behind a
    vector. *)
Definition dereference (index : PartialHashIndexImpl) (it : TableIndexIterator)
  : option RowID :=
  match it with
  | TbbHashMapIterator mi vi => entry ← entries index !! mi; entry.2 !! vi
  | VectorIterator mi => _null_values index !! mi
  end.

(** [operator++]; an iterator at the end cannot be moved on. *)
Definition increment (index : PartialHashIndexImpl) (it : TableIndexIterator)
  : option TableIndexIterator :=
  match it with
  | TbbHashMapIterator mi vi =>
      entry ← entries index !! mi;
      if decide (length entry.2 <= S vi)
      then Some (TbbHashMapIterator (S mi) 0)
      else Some (TbbHashMapIterator mi (S vi))
  | VectorIterator mi =>
      if decide (mi < length (_null_values index)) then Some (VectorIterator (S mi))
      else None
  end.

(** The functor that [insert_entries] hands to [segment_iterate]. *)
Definition index_position (chunk : ChunkID) (index : PartialHashIndexImpl)
    (position : ChunkOffset * option DataType) : PartialHashIndexImpl :=
  let row_id := {| chunk_id := chunk; chunk_offset := position.1 |} in
  match position.2 with
  | None =>
      {| _indexed_chunk_ids := _indexed_chunk_ids index;
         _map := _map index;
         _null_values := _null_values index ++ [row_id] |}
  | Some value =>
      {| _indexed_chunk_ids := _indexed_chunk_ids index;
         _map := <[value := default [] (_map index !! value) ++ [row_id]]> (_map index);
         _null_values := _null_values index |}
  end.

(** The positions of a segment: chunk offset and value. *)
Definition positions (segment : list (option DataType))
  : list (ChunkOffset * option DataType) :=
  imap (fun offset value => (offset, value)) segment.

(** One round of the loop of [insert_entries]. *)
Definition insert_chunk (column_id : ColumnID) (index : PartialHashIndexImpl)
    (chunk : ChunkID * Chunk) : PartialHashIndexImpl :=
  if decide (chunk.1 ∈ _indexed_chunk_ids index) then index
  else
    foldl (index_position chunk.1)
          {| _indexed_chunk_ids := {[chunk.1]} ∪ _indexed_chunk_ids index;
             _map := _map index;
             _null_values := _null_values index |}
          (positions (get_segment chunk.2 column_id)).

(** [PartialHashIndexImpl::insert_entries]: what it returns and the index
    after it. *)
Definition insert_entries (index : PartialHashIndexImpl)
    (chunks_to_index : list (ChunkID * Chunk)) (column_id : ColumnID)
  : nat * PartialHashIndexImpl :=
  let size_before := size (_indexed_chunk_ids index) in
  let index' := foldl (insert_chunk column_id) index chunks_to_index in
  (size (_indexed_chunk_ids index') - size_before, index').

(** The constructor. *)
Definition make_index (chunks_to_index : list (ChunkID * Chunk)) (column_id : ColumnID)
  : PartialHashIndexImpl :=
  (insert_entries empty_index chunks_to_index column_id).2.

(** [PartialHashIndexImpl::remove_entries] *)
Definition remove_entries (index : PartialHashIndexImpl) (chunks_to_unindex : list ChunkID)
  : IndexFailure + nat :=
  inl ErasesNotSupported.

Definition cbegin (index : PartialHashIndexImpl) : TableIndexIterator :=
  hash_map_iterator 0.
Definition cend (index : PartialHashIndexImpl) : TableIndexIterator :=
  hash_map_iterator (length (entries index)).
Definition null_cbegin (index : PartialHashIndexImpl) : TableIndexIterator :=
  VectorIterator 0.
Definition null_cend (index : PartialHashIndexImpl) : TableIndexIterator :=
  VectorIterator (length (_null_values index)).

(** [_map.equal_range(value)]: the entry of the key and the one after it,
    or twice the end. *)
Definition equal_range (index : PartialHashIndexImpl) (value : DataType) : nat * nat :=
  match list_find (fun entry => entry.1 = value) (entries index) with
  | Some (position, _) => (position, S position)
  | None => (length (entries index), length (entries index))
  end.

(** [range_equals], for a variant that holds a [DataType]. *)
Definition range_equals (index : PartialHashIndexImpl) (value : DataType)
  : TableIndexIterator * TableIndexIterator :=
  let range := equal_range index value in
  (hash_map_iterator range.1, hash_map_iterator range.2).

(** [range_not_equals] *)
Definition range_not_equals (index : PartialHashIndexImpl) (value : DataType)
  : (TableIndexIterator * TableIndexIterator) * (TableIndexIterator * TableIndexIterator) :=
  let range_eq := range_equals index value in
  ((cbegin index, range_eq.1), (range_eq.2, cend index)).

Definition get_indexed_chunk_ids (index : PartialHashIndexImpl) : gset ChunkID :=
  _indexed_chunk_ids index.

(** A caller's loop over a range, [for (; it != end; ++it)], which
    collects [*it]; [None] when it runs out of fuel or leaves the range. *)
Fixpoint visit_range (fuel : nat) (index : PartialHashIndexImpl)
    (it end_ : TableIndexIterator) : option (list RowID) :=
  match fuel with
  | O => if operator_ne it end_ then None else Some []
  | S fuel' =>
      if operator_ne it end_
      then row ← dereference index it;
           it' ← increment index it;
           rest ← visit_range fuel' index it' end_;
           Some (row :: rest)
      else Some []
  end.

(** [std::distance(cbegin(), cend())] in [memory_usage]: the number of
    increments from one iterator to the other. *)
Fixpoint distance (fuel : nat) (index : PartialHashIndexImpl)
    (it end_ : TableIndexIterator) : option nat :=
  match fuel with
  | O => if operator_eq it end_ then Some 0 else None
  | S fuel' =>
      if operator_eq it end_ then Some 0
      else it' ← increment index it;
           steps ← distance fuel' index it' end_;
           Some (S steps)
  end.

(** What an index is to hold: exactly the rows that [present] lists, each
    once, under its value or among the NULLs, and no empty vector in the
    map. *)
Record holds (index : PartialHashIndexImpl)
    (present : ChunkID -> ChunkOffset -> option DataType -> Prop) : Prop := {
  value_rows :
    forall v c o,
      {| chunk_id := c; chunk_offset := o |} ∈ default [] (_map index !! v)
      <-> present c o (Some v);
  null_rows :
    forall c o,
      {| chunk_id := c; chunk_offset := o |} ∈ _null_values index <-> present c o None;
  vectors_filled : forall v rows, _map index !! v = Some rows -> rows <> [];
  vectors_nodup : forall v rows, _map index !! v = Some rows -> NoDup rows;
  nulls_nodup : NoDup (_null_values index)
}.

(** The rows of a list of chunks in column [column_id]. *)
Definition row_of (column_id : ColumnID) (chunks : list (ChunkID * Chunk))
    (c : ChunkID) (o : ChunkOffset) (x : option DataType) : Prop :=
  exists chunk, (c, chunk) ∈ chunks /\ get_segment chunk column_id !! o = Some x.

End Index.

(** A table to run the index on: a chunk is the list of its columns, of
    numbers and NULLs. *)
Definition column_of (chunk : list (list (option Z))) (column_id : ColumnID)
  : list (option Z) :=
  default [] (chunk !! column_id).

Definition two_chunks : list (ChunkID * list (list (option Z))) :=
  [(0, [[Some 7; None; Some 3]%Z]); (1, [[Some 3; Some 7; Some 7]%Z])].

Arguments PartialHashIndexImpl _ {_ _}.

End PartialHashIndex.

(** ** The pointer sort benchmark: [TestPointer] *)

Module PointerBenchmark.

(** [sizeof(int)], the size of what a [TestPointer] points to. *)
Definition SIZEOF_INT : Z := 4.

(** What the benchmark reads of a frame: [frame->data], the address of
    its bytes, 0 for a frame without data. *)
Record Frame := { data : Z }.

(** [TestPointer<GetPointer>]: the frame ([None] for a null [FramePtr])
    and [ptr_or_offset], an [int*] that holds an address or an offset. *)
Record TestPointer := {
  frame : option Frame;
  ptr_or_offset : Z
}.

Inductive PointerFailure := InvalidGetPointer | DereferencingNullPointer | NullFrame.

(** [get_pointer_simple] *)
Definition get_pointer_simple (p : TestPointer) : PointerFailure + Z :=
  match frame p with
  | None => inl NullFrame
  | Some f =>
      if negb (data f =? 0) then inr (size_t_wrap (data f + ptr_or_offset p))
      else inr (ptr_or_offset p)
  end.

(** [get_pointer_dummy__branchless] *)
Definition get_pointer_dummy__branchless (p : TestPointer) : PointerFailure + Z :=
  match frame p with
  | None => inl NullFrame
  | Some f =>
      let pointer := ptr_or_offset p in
      let offset := if negb (data f =? 0) then pointer else 0 in
      inr (size_t_wrap (data f + offset))
  end.

(** [get_pointer_likely] *)
Definition get_pointer_likely (p : TestPointer) : PointerFailure + Z :=
  match frame p with
  | None => inl NullFrame
  | Some f =>
      if negb (data f =? 0) then inr (size_t_wrap (data f + ptr_or_offset p))
      else inr (ptr_or_offset p)
  end.

(** [get_raw_pointer] *)
Definition get_raw_pointer (p : TestPointer) : PointerFailure + Z :=
  inr (ptr_or_offset p).

(** [get()] of [TestPointer<GetPointer>] *)
Definition get (GetPointer : Z) (p : TestPointer) : PointerFailure + Z :=
  if GetPointer =? 0 then get_pointer_simple p
  else if GetPointer =? 1 then get_pointer_likely p
  else if GetPointer =? 2 then get_pointer_dummy__branchless p
  else if (GetPointer =? 3) || (GetPointer =? 4) then get_raw_pointer p
  else inl InvalidGetPointer.

(** [operator*]: the address that is read. *)
Definition operator_star (GetPointer : Z) (p : TestPointer) : PointerFailure + Z :=
  match get GetPointer p with
  | inr address => if address =? 0 then inl DereferencingNullPointer else inr address
  | inl failure => inl failure
  end.

(** [operator+=(difference_type offset)] on an [int*]: the object after
    the call. *)
Definition operator_plus_assign (p : TestPointer) (offset : Z) : TestPointer :=
  {| frame := frame p;
     ptr_or_offset := size_t_wrap (ptr_or_offset p + offset * SIZEOF_INT) |}.

(** [operator++(void)], [operator--(void)] *)
Definition operator_pre_increment (p : TestPointer) : TestPointer :=
  {| frame := frame p; ptr_or_offset := size_t_wrap (ptr_or_offset p + SIZEOF_INT) |}.
Definition operator_pre_decrement (p : TestPointer) : TestPointer :=
  {| frame := frame p; ptr_or_offset := size_t_wrap (ptr_or_offset p - SIZEOF_INT) |}.

(** The friend [operator+]: a copy, moved. *)
Definition operator_plus (left : TestPointer) (diff : Z) : TestPointer :=
  operator_plus_assign left diff.

End PointerBenchmark.

(** ** storage/fsst_segment/fsst_encoder.hpp: the loops of [_on_encode] *)

Module FSSTEncoder.

(** A [pmr_string], as its bytes. *)
Abbreviation pmr_string := (list Byte.byte).

(** What the iterator of the segment hands out for a position: [value()]
    and [is_null()]. *)
Record SegmentPosition := { value : pmr_string; is_null : bool }.

(** [values], [null_values] and [has_null_values]. *)
Record Collected := {
  values : list pmr_string;
  null_values : list bool;
  has_null_values : bool
}.

(** The body of the loop [for (; it != end; ++it)]. *)
Definition collect_position (c : Collected) (segment_value : SegmentPosition) : Collected :=
  let current_value := value segment_value in
  let is_current_null := is_null segment_value in
  if is_current_null
  then {| values := values c ++ [[]];
          null_values := null_values c ++ [is_current_null];
          has_null_values := true |}
  else {| values := values c ++ [current_value];
          null_values := null_values c ++ [is_current_null];
          has_null_values := has_null_values c |}.

(** The functor handed to [with_iterators]; for an empty segment it
    returns at once. *)
Definition collect (segment : list SegmentPosition) : Collected :=
  let empty := {| values := []; null_values := []; has_null_values := false |} in
  match segment with
  | [] => empty
  | _ => foldl collect_position empty segment
  end.

(** [null_values_optional] *)
Definition null_values_optional (c : Collected) : option (list bool) :=
  if has_null_values c then Some (null_values c) else None.

(** [unsigned] and [uint32_t]: 32 bits. *)
Definition unsigned_wrap (z : Z) : Z := z `mod` 2 ^ 32.

(** The loop [for (pmr_string& value : values)]: [total_length] and
    [row_lengths]. *)
Definition measure_rows (rows : list pmr_string) : Z * list Z :=
  foldl (fun '(total_length, row_lengths) row =>
           (unsigned_wrap (total_length + Z.of_nat (length row)),
            row_lengths ++ [Z.of_nat (length row)]))
        (0, []) rows.

(** [compressed_values.resize(16 + 2 * total_length)] *)
Definition compressed_buffer_size (rows : list pmr_string) : Z :=
  unsigned_wrap (16 + 2 * (measure_rows rows).1).

(** [offsets.resize(values.size() + 1)], [offsets[0] = 0] and the loop
    that fills the offsets from the lengths [fsst_compress] wrote:
    the offsets and [aggregated_offset_sum], the size [compressed_values] is
    cut to. *)
Definition fill_offsets (compressed_value_lengths : list nat) : list Z * Z :=
  let compressed_values_size := length compressed_value_lengths in
  foldl (fun '(offsets, aggregated_offset_sum) index =>
           let aggregated_offset_sum' :=
             size_t_wrap (aggregated_offset_sum
                          + Z.of_nat (default 0%nat (compressed_value_lengths !! (index - 1)%nat))) in
           (<[index := unsigned_wrap aggregated_offset_sum']> offsets,
            aggregated_offset_sum'))
        (<[0%nat := 0]> (replicate (compressed_values_size + 1) 0), 0)
        (seq 1 compressed_values_size).

End FSSTEncoder.

(** * src/lib/utils/plugin_manager.cpp

    [_plugins] is the unordered map from plugin names to handle wrappers; its
    iteration order is that of [map_to_list].  The calls that leave the
    manager ([stop] of a plugin, [dlclose] of its handle) are recorded in the
    order in which they are made.  A failed [Assert] throws before anything
    is changed and is returned on the left.  [load_plugin] reads
    [plugin_handle] and [factory] outside the block that declares them and
    is not embedded. *)

Module PluginManager.

Section Manager.
Context {PluginName : Type} `{Countable PluginName}.
Context (name_le : relation PluginName) `{!RelDecision name_le}.
Context {PluginHandle AbstractPlugin TypeInfo : Type} `{!EqDecision TypeInfo}.
Context (typeid : AbstractPlugin -> TypeInfo).

Record PluginHandleWrapper := {
  handle : PluginHandle;
  plugin : AbstractPlugin
}.

Inductive Call :=
  | Stop (stopped : AbstractPlugin)
  | DlClose (closed : PluginHandle).

Record Manager := {
  _plugins : gmap PluginName PluginHandleWrapper;
  calls : list Call
}.

Inductive PluginFailure :=
  | DoesNotExist (name : PluginName).

Definition _is_duplicate (this : Manager) (plugin_ref : AbstractPlugin) : bool :=
  existsb (fun entry => bool_decide (typeid (plugin entry.2) = typeid plugin_ref))
          (map_to_list (_plugins this)).

(** [std::sort] with the order of the names. *)
Definition loaded_plugins (this : Manager) : list PluginName :=
  let plugin_names := (map_to_list (_plugins this)).*1 in
  merge_sort name_le plugin_names.

(** The iterator is given by the entry it points to; the iterator returned
    is the one that follows in what is left of the map. *)
Definition _unload_and_erase_plugin (plugin_iter : PluginName * PluginHandleWrapper)
    (this : Manager) : Manager :=
  let name := plugin_iter.1 in
  let plugin_handle_wrapper := plugin_iter.2 in
  let stopped := calls this ++ [Stop (plugin plugin_handle_wrapper)] in
  let handle := handle plugin_handle_wrapper in
  {| _plugins := delete name (_plugins this);
     calls := stopped ++ [DlClose handle] |}.

Definition unload_plugin (name : PluginName) (this : Manager) : PluginFailure + Manager :=
  match _plugins this !! name with
  | None => inl (DoesNotExist name)
  | Some plugin_handle_wrapper =>
      inr (_unload_and_erase_plugin (name, plugin_handle_wrapper) this)
  end.

(** The loop of [_clean_up]: [plugin_iter] starts at [begin] and is replaced
    by the iterator behind the erased entry, which is [begin] of the map
    that is left; the loop ends at [end]. *)
Fixpoint clean_up_loop (fuel : nat) (this : Manager) : Manager :=
  match fuel with
  | O => this
  | S fuel' =>
      match map_to_list (_plugins this) with
      | [] => this
      | plugin_iter :: _ => clean_up_loop fuel' (_unload_and_erase_plugin plugin_iter this)
      end
  end.

Definition _clean_up (this : Manager) : Manager :=
  clean_up_loop (size (_plugins this)) this.

(** The calls made for one entry. *)
Definition unloading (entry : PluginName * PluginHandleWrapper) : list Call :=
  [Stop (plugin entry.2); DlClose (handle entry.2)].
End Manager.

Arguments PluginHandleWrapper : clear implicits.
Arguments Call : clear implicits.
Arguments Manager _ {_ _} _ _.
Arguments PluginFailure : clear implicits.

End PluginManager.
(** * Properties *)

(** ** Machine integers *)

Lemma ptrdiff_wrap_id z : in_ptrdiff z -> ptrdiff_wrap z = z.
Proof.
  unfold in_ptrdiff, ptrdiff_wrap. intros Hz.
  rewrite Z.mod_small; lia.
Qed.

(** ** Page size classes *)

(** The loop stops at the first enumerator that fits: everything it
    skipped was too small. *)
Lemma find_fitting_in_first {A} (bytes_of : A -> Z) (values : list A) (n : Z) :
  match find_fitting_in bytes_of values n with
  | Some k =>
      exists skipped rest, values = skipped ++ k :: rest
        /\ n <= bytes_of k
        /\ Forall (fun k' => bytes_of k' < n) skipped
  | None => Forall (fun k' => bytes_of k' < n) values
  end.
Proof.
  induction values as [| v values IH]; simpl.
  - constructor.
  - destruct (Z.leb_spec n (bytes_of v)) as [Hfit | Hsmall].
    + exists [], values. repeat split; [exact Hfit | constructor].
    + destruct (find_fitting_in bytes_of values n) as [k |].
      * destruct IH as (skipped & rest & -> & Hk & Hskipped).
        exists (v :: skipped), rest. repeat split; [exact Hk |].
        constructor; assumption.
      * constructor; assumption.
Qed.

(** With the enumerators in the order of their sizes, the first that fits
    is the smallest that fits, and nothing fits beyond the last. *)
Lemma first_fit_smallest {A} (bytes_of rank : A -> Z) (values : list A) (n : Z) (top : A) :
  (forall k, k ∈ values) ->
  (forall skipped k rest k', values = skipped ++ k :: rest -> k' ∈ k :: rest ->
     rank k <= rank k') ->
  (forall k, bytes_of k <= bytes_of top) ->
  (n <= bytes_of top ->
   exists k, find_fitting_in bytes_of values n = Some k
     /\ n <= bytes_of k
     /\ forall k', n <= bytes_of k' -> rank k <= rank k')
  /\ (bytes_of top < n -> find_fitting_in bytes_of values n = None).
Proof.
  intros Hcomplete Hordered Htop.
  pose proof (find_fitting_in_first bytes_of values n) as Hfirst.
  destruct (find_fitting_in bytes_of values n) as [k |].
  - destruct Hfirst as (skipped & rest & Hsplit & Hk & Hskipped).
    split.
    + intros _. exists k. repeat split; [exact Hk |].
      intros k' Hk'.
      pose proof (Hcomplete k') as Hin.
      rewrite Hsplit in Hin. apply elem_of_app in Hin as [Hin | Hin].
      * rewrite Forall_forall in Hskipped. specialize (Hskipped _ Hin). lia.
      * eapply Hordered; eassumption.
    + intros Hlarge. specialize (Htop k). lia.
  - split; [| reflexivity].
    intros Hfits. exfalso.
    rewrite Forall_forall in Hfirst.
    specialize (Hfirst top (Hcomplete top)). lia.
Qed.

Module HelperFacts.

Lemma bytes_for_size_type_shift k :
  bytes_for_size_type k = OS_PAGE_SIZE * 2 ^ enum_integer k.
Proof. destruct k; reflexivity. Qed.

Lemma bytes_for_size_type_max k :
  bytes_for_size_type k <= bytes_for_size_type MAX_PAGE_SIZE_TYPE.
Proof. destruct k; vm_compute; discriminate. Qed.

Lemma enum_values_complete k : k ∈ enum_values.
Proof. destruct k; unfold enum_values; set_solver. Qed.

(** In [enum_values] an enumerator is preceded only by smaller ones. *)
Lemma enum_values_ordered skipped k rest k' :
  enum_values = skipped ++ k :: rest ->
  k' ∈ k :: rest ->
  enum_integer k <= enum_integer k'.
Proof.
  unfold enum_values. intros Hsplit Hin.
  do 10 (destruct skipped as [| ? skipped];
    [ simplify_eq/=; set_unfold; intuition (subst; simpl; lia) | ]).
  destruct skipped; simplify_eq/=.
Qed.

(** C7: for a byte count up to the largest page size,
    [find_fitting_page_size_type] returns the smallest size class whose size
    [OS_PAGE_SIZE << k] is at least the count; for a larger count it fails. *)
Theorem find_fitting_page_size_type_smallest (n : Z) (Hn : 0 <= n < 2 ^ 64) :
  (n <= bytes_for_size_type MAX_PAGE_SIZE_TYPE ->
   exists k, find_fitting_page_size_type n = inr k
     /\ bytes_for_size_type k = Z.shiftl OS_PAGE_SIZE (enum_integer k)
     /\ n <= bytes_for_size_type k
     /\ forall k', n <= bytes_for_size_type k' -> enum_integer k <= enum_integer k')
  /\ (bytes_for_size_type MAX_PAGE_SIZE_TYPE < n ->
      find_fitting_page_size_type n = inl (CannotFit n)).
Proof.
  unfold find_fitting_page_size_type.
  destruct (first_fit_smallest bytes_for_size_type enum_integer enum_values n
              MAX_PAGE_SIZE_TYPE enum_values_complete enum_values_ordered
              bytes_for_size_type_max) as [Hfits Hfails].
  split.
  - intros Hle. destruct (Hfits Hle) as (k & -> & Hk & Hmin).
    exists k. repeat split; [by destruct k | exact Hk | exact Hmin].
  - intros Hgt. by rewrite (Hfails Hgt).
Qed.

Lemma find_fitting_page_size_type_smallest_witness :
  (exists k, find_fitting_page_size_type 5000 = inr k
     /\ bytes_for_size_type k = Z.shiftl OS_PAGE_SIZE (enum_integer k)
     /\ 5000 <= bytes_for_size_type k
     /\ forall k', 5000 <= bytes_for_size_type k' -> enum_integer k <= enum_integer k')
  /\ find_fitting_page_size_type 3000000 = inl (CannotFit 3000000).
Proof.
  split.
  - apply (find_fitting_page_size_type_smallest 5000); [lia | vm_compute; discriminate].
  - apply (find_fitting_page_size_type_smallest 3000000); [lia | vm_compute; reflexivity].
Defined.

Example find_fitting_examples :
  find_fitting_page_size_type 0 = inr KiB4
  /\ find_fitting_page_size_type 4096 = inr KiB4
  /\ find_fitting_page_size_type 4097 = inr KiB8
  /\ find_fitting_page_size_type 2097152 = inr MiB2
  /\ find_fitting_page_size_type 2097153 = inl (CannotFit 2097153).
Proof. repeat split. Qed.

End HelperFacts.

(** The same on the [__APPLE__] branch. *)
Module HelperAppleFacts.
Import HelperApple.

Lemma apple_bytes_for_size_type_max k :
  bytes_for_size_type k <= bytes_for_size_type MAX_PAGE_SIZE_TYPE.
Proof. destruct k; vm_compute; discriminate. Qed.

Lemma apple_enum_values_complete k : k ∈ enum_values.
Proof. destruct k; unfold enum_values; set_solver. Qed.

Lemma apple_enum_values_ordered skipped k rest k' :
  enum_values = skipped ++ k :: rest ->
  k' ∈ k :: rest ->
  enum_integer k <= enum_integer k'.
Proof.
  unfold enum_values. intros Hsplit Hin.
  do 8 (destruct skipped as [| ? skipped];
    [ simplify_eq/=; set_unfold; intuition (subst; simpl; lia) | ]).
  destruct skipped; simplify_eq/=.
Qed.

Lemma apple_first_fit_is_smallest (n : Z) :
  (n <= bytes_for_size_type MAX_PAGE_SIZE_TYPE ->
   exists k, find_fitting_page_size_type n = inr k
     /\ bytes_for_size_type k = Z.shiftl OS_PAGE_SIZE (enum_integer k)
     /\ n <= bytes_for_size_type k
     /\ forall k', n <= bytes_for_size_type k' -> enum_integer k <= enum_integer k')
  /\ (bytes_for_size_type MAX_PAGE_SIZE_TYPE < n ->
      find_fitting_page_size_type n = inl (CannotFit n)).
Proof.
  unfold find_fitting_page_size_type.
  destruct (first_fit_smallest bytes_for_size_type enum_integer enum_values n
              MAX_PAGE_SIZE_TYPE apple_enum_values_complete apple_enum_values_ordered
              apple_bytes_for_size_type_max) as [Hfits Hfails].
  split.
  - intros Hle. destruct (Hfits Hle) as (k & -> & Hk & Hmin).
    exists k. repeat split; [by destruct k | exact Hk | exact Hmin].
  - intros Hgt. by rewrite (Hfails Hgt).
Qed.

End HelperAppleFacts.

(** ** Buffer-managed pointers *)

Module PtrFacts.
Import Ptr.

Section WithManager.
Context {BufferManager : Type} `{!BufferManagerOps BufferManager}.

Lemma get_pointer_invalid {T} (p : BufferManagedPtr T) bm :
  get_page_id p = INVALID_PAGE_ID -> get_pointer p bm = (nullptr, bm).
Proof.
  unfold get_page_id, get_pointer, PageID_eqb. intros ->.
  rewrite bool_decide_eq_true_2; reflexivity.
Qed.

Lemma get_pointer_valid {T} (p : BufferManagedPtr T) bm :
  get_page_id p <> INVALID_PAGE_ID ->
  get_pointer p bm =
    (ptr_add (data (get_page (get_page_id p) bm).1) (get_offset p),
     (get_page (get_page_id p) bm).2).
Proof.
  unfold get_page_id, get_pointer, PageID_eqb, get_offset. intros Hne.
  rewrite bool_decide_eq_false_2 by exact Hne.
  unfold bind, ret. destruct (get_page (_page_id p) bm); reflexivity.
Qed.

(** Inside a page that does not sit at address 0 the resolved address is
    not null. *)
Lemma get_pointer_valid_not_null {T} (p : BufferManagedPtr T) bm :
  get_page_id p <> INVALID_PAGE_ID ->
  0 < data (get_page (get_page_id p) bm).1 ->
  0 <= get_offset p ->
  data (get_page (get_page_id p) bm).1 + get_offset p < 2 ^ 64 ->
  (get_pointer p bm).1 <> nullptr.
Proof.
  intros Hne Hbase Hoff Hfit. rewrite get_pointer_valid by exact Hne. simpl.
  unfold ptr_add, size_t_wrap, nullptr. rewrite Z.mod_small; lia.
Qed.

Lemma operator_plus_spec {T} (p : BufferManagedPtr T) n :
  in_ptrdiff (get_offset p + n) ->
  get_page_id (operator_plus p n) = get_page_id p
  /\ get_offset (operator_plus p n) = get_offset p + n.
Proof. intros Hfit. split; [reflexivity |]. by apply ptrdiff_wrap_id. Qed.

Lemma operator_minus_spec {T} (p : BufferManagedPtr T) n :
  in_ptrdiff (get_offset p - n) ->
  get_page_id (operator_minus p n) = get_page_id p
  /\ get_offset (operator_minus p n) = get_offset p - n.
Proof. intros Hfit. split; [reflexivity |]. by apply ptrdiff_wrap_id. Qed.

Lemma operator_pre_increment_spec {T} (p : BufferManagedPtr T) :
  in_ptrdiff (get_offset p + 1) ->
  get_page_id (operator_pre_increment p) = get_page_id p
  /\ get_offset (operator_pre_increment p) = get_offset p + 1.
Proof. intros Hfit. split; [reflexivity |]. by apply ptrdiff_wrap_id. Qed.

Lemma operator_pre_decrement_spec {T} (p : BufferManagedPtr T) :
  in_ptrdiff (get_offset p - 1) ->
  get_page_id (operator_pre_decrement p) = get_page_id p
  /\ get_offset (operator_pre_decrement p) = get_offset p - 1.
Proof. intros Hfit. split; [reflexivity |]. by apply ptrdiff_wrap_id. Qed.

(** C8: [==], [!=], [<] and [<=] on buffer-managed pointers, also of two
    pointee types, compare the raw addresses the two operands resolve to when
    the comparison runs, and nothing else; two pointers with an invalid page
    id resolve to null whatever their offsets and so compare equal. *)
Theorem comparisons_use_resolved_addresses {T1 T2}
    (p p' : BufferManagedPtr T1) (q : BufferManagedPtr T2) (bm : BufferManager) :
  let a := (get p bm).1 in
  let bm1 := (get p bm).2 in
  (operator_eq2 p q bm = (a =? (get q bm1).1, (get q bm1).2)
   /\ operator_ne2 p q bm = (negb (a =? (get q bm1).1), (get q bm1).2)
   /\ operator_le2 p q bm = (a <=? (get q bm1).1, (get q bm1).2)
   /\ operator_eq p p' bm = (a =? (get p' bm1).1, (get p' bm1).2)
   /\ operator_lt p p' bm = (a <? (get p' bm1).1, (get p' bm1).2))
  /\ ((operator_eq2 p q bm).1 = true <-> a = (get q bm1).1)
  /\ forall o1 o2 : Z,
       operator_eq2 (Build (PointedType := T1) INVALID_PAGE_ID o1)
                    (Build (PointedType := T2) INVALID_PAGE_ID o2) bm = (true, bm)
       /\ operator_le2 (Build (PointedType := T1) INVALID_PAGE_ID o1)
                       (Build (PointedType := T2) INVALID_PAGE_ID o2) bm = (true, bm)
       /\ operator_lt (Build (PointedType := T1) INVALID_PAGE_ID o1)
                      (Build INVALID_PAGE_ID o2) bm = (false, bm).
Proof.
  cbv zeta.
  unfold operator_eq2, operator_ne2, operator_le2, operator_eq, operator_lt, bind, ret.
  destruct (get p bm) as [a bm1] eqn:Hp. simpl.
  destruct (get q bm1) as [b bm2] eqn:Hq.
  destruct (get p' bm1) as [b' bm2'] eqn:Hp'. simpl.
  split; [repeat split |]. split; [apply Z.eqb_eq |].
  intros o1 o2. repeat split.
Qed.

(** C10: the constructor from a raw pointer ignores its argument: the
    result is the pair of [INVALID_PAGE_ID] and offset 0, and it resolves to
    the null pointer without a page being requested. *)
Theorem from_pointer_is_null {T} (raw : Z) (bm : BufferManager) :
  from_pointer (PointedType := T) raw = Build INVALID_PAGE_ID 0
  /\ get_page_id (from_pointer (PointedType := T) raw) = INVALID_PAGE_ID
  /\ get_offset (from_pointer (PointedType := T) raw) = 0
  /\ get (from_pointer (PointedType := T) raw) bm = (nullptr, bm)
  /\ get_pointer (from_pointer (PointedType := T) raw) bm = (nullptr, bm).
Proof.
  repeat split; unfold get; apply get_pointer_invalid; reflexivity.
Qed.

End WithManager.

(** Two different pairs that resolve to one address that is not null
    compare equal, and equal pairs compare equal. *)
Example different_pairs_same_address :
  let p : BufferManagedPtr unit := Build (PageID_make KiB4 0 true) 65536 in
  let q : BufferManagedPtr bool := Build (PageID_make KiB4 1 true) 0 in
  (get p []).1 = 131072 /\ (get q []).1 = 131072
  /\ (operator_eq2 p q []).1 = true /\ (operator_le2 p q []).1 = true
  /\ (operator_ne2 p q []).1 = false.
Proof. repeat split. Qed.

(** Arithmetic leaves the manager alone, resolving asks it for the page. *)
Example only_get_asks_for_a_page :
  let p : BufferManagedPtr unit := Build (PageID_make KiB4 3 true) 16 in
  (get (operator_plus p 8) []).2 = [PageID_make KiB4 3 true]
  /\ (get (operator_plus p 8) []).1 = 65536 * 4 + 24.
Proof. repeat split. Qed.

(** C1: [operator bool] answers [true] for the null pointer, for which
    [operator!] answers [true] as well, and [false] for a pointer into a page
    at an offset that is not 0, which resolves to an address that is not
    null: the conversion is not "true iff not null". *)
Theorem operator_bool_on_null_pointer :
  let null : BufferManagedPtr unit := from_pointer 0 in
  let inside : BufferManagedPtr unit := Build (PageID_make KiB4 1 true) 8 in
  get_page_id null = INVALID_PAGE_ID
  /\ get null ([] : RecordingManager) = (nullptr, [])
  /\ operator_not null ([] : RecordingManager) = (true, [])
  /\ operator_bool null = true
  /\ get_page_id inside <> INVALID_PAGE_ID
  /\ (get inside ([] : RecordingManager)).1 = 131080
  /\ (operator_not inside ([] : RecordingManager)).1 = false
  /\ operator_bool inside = false.
Proof. repeat split. discriminate. Qed.

(** C2: [operator+=] and [operator-=] leave the pointer as it was: for a
    pointer at offset 16, [p += 8] and [p -= 8] are still at offset 16, where
    [p + 8] is at 24 and [p - 8] at 8. *)
Theorem compound_assignment_keeps_offset :
  let p : BufferManagedPtr unit := Build (PageID_make KiB4 1 true) 16 in
  get_offset (operator_plus_assign p 8) = 16
  /\ get_offset (operator_minus_assign p 8) = 16
  /\ get_offset (operator_plus p 8) = 24
  /\ get_offset (operator_minus p 8) = 8
  /\ (forall (T : Type) (q : BufferManagedPtr T) (n : Z),
        operator_plus_assign q n = q /\ operator_minus_assign q n = q).
Proof. repeat split. Qed.

End PtrFacts.

(** ** The task scheduler *)

Module SchedulerFacts.
Import Scheduler.
Local Open Scope nat_scope.

Section Counting.
Context {A : Type} (f : A -> nat).

Lemma sum_list_with_alter (g : A -> A) (l : list A) (i : nat) (y : A) :
  l !! i = Some y ->
  sum_list_with f (alter g i l) + f y = sum_list_with f l + f (g y).
Proof.
  revert i. induction l as [| x l IH]; intros [| i] Hi; simplify_eq/=.
  - lia.
  - specialize (IH _ Hi). lia.
Qed.

Lemma sum_list_with_insert (l : list A) (i : nat) (x y : A) :
  l !! i = Some y ->
  sum_list_with f (<[i := x]> l) + f y = sum_list_with f l + f x.
Proof.
  intros Hi. rewrite list_insert_alter.
  apply (sum_list_with_alter (fun _ => x) l i y Hi).
Qed.

Lemma sum_list_with_zero (l : list A) (i : nat) (y : A) :
  sum_list_with f l = 0 -> l !! i = Some y -> f y = 0.
Proof.
  revert i. induction l as [| x l IH]; intros [| i] Hsum Hi; simplify_eq/=.
  - lia.
  - apply (IH i); [lia | exact Hi].
Qed.
End Counting.

Lemma alter_as_insert {A} (g : A -> A) (l : list A) (i : nat) (x : A) :
  l !! i = Some x -> alter g i l = <[i := g x]> l.
Proof.
  revert i. induction l as [| y l IH]; intros [| i] Hi; simplify_eq/=.
  - reflexivity.
  - f_equal. by apply IH.
Qed.

Section Facts.
Context {Mem : Type}.
Implicit Types (ts : list (Task Mem)) (st : State Mem) (t b : TaskID).

Lemma occurrences_nil b : occurrences b [] = 0.
Proof. reflexivity. Qed.

Lemma occurrences_cons b x l :
  occurrences b (x :: l) = (if decide (x = b) then 1 else 0) + occurrences b l.
Proof.
  unfold occurrences. rewrite filter_cons. destruct (decide (x = b)); reflexivity.
Qed.

Lemma occurrences_app b l k :
  occurrences b (l ++ k) = occurrences b l + occurrences b k.
Proof. unfold occurrences. rewrite filter_app, length_app. reflexivity. Qed.

Lemma occurrences_elem_of b l : b ∈ l -> 0 < occurrences b l.
Proof.
  induction l as [| x l IH]; intros Hin; [by apply elem_of_nil in Hin |].
  rewrite occurrences_cons. apply elem_of_cons in Hin as [-> | Hin].
  - rewrite decide_True by reflexivity. lia.
  - specialize (IH Hin). lia.
Qed.

Lemma open_edges_not_done b (tk : Task Mem) :
  state tk <> Done -> open_edges b tk = occurrences b (successors tk).
Proof.
  intros Hs. unfold open_edges, is_done.
  rewrite bool_decide_eq_false_2 by exact Hs. reflexivity.
Qed.

Lemma open_edges_done b (tk : Task Mem) : state tk = Done -> open_edges b tk = 0.
Proof.
  intros Hs. unfold open_edges, is_done.
  rewrite bool_decide_eq_true_2 by exact Hs. reflexivity.
Qed.

Lemma undone_predecessors_insert ts i tk tk' b :
  ts !! i = Some tk ->
  undone_predecessors (<[i := tk']> ts) b + open_edges b tk
  = undone_predecessors ts b + open_edges b tk'.
Proof. intros Hi. by apply sum_list_with_insert. Qed.

Lemma undone_predecessors_zero ts a b ta :
  undone_predecessors ts b = 0 ->
  ts !! a = Some ta -> b ∈ successors ta -> state ta = Done.
Proof.
  intros Hzero Ha Hin.
  pose proof (sum_list_with_zero (open_edges b) ts a ta Hzero Ha) as Hopen.
  destruct (decide (state ta = Done)) as [Hd | Hd]; [exact Hd |].
  rewrite open_edges_not_done in Hopen by exact Hd.
  pose proof (occurrences_elem_of b _ Hin). lia.
Qed.

(** A task that is not done changes its state to one that is not [Done]:
    counts and edges stay as they are. *)
Lemma notifying_change_state ts rem i tk s' :
  notifying ts rem ->
  ts !! i = Some tk ->
  state tk <> Done -> s' <> Done ->
  (started s' -> pending_predecessors tk = 0) ->
  notifying (<[i := with_state s' tk]> ts) rem.
Proof.
  intros [Hcount Hstarted] Hi Hnd Hnd' Hzero.
  assert (forall b, undone_predecessors (<[i := with_state s' tk]> ts) b
                    = undone_predecessors ts b) as Hsame.
  { intros b. pose proof (undone_predecessors_insert ts i tk (with_state s' tk) b Hi) as H.
    rewrite !open_edges_not_done in H by assumption. simpl in H. lia. }
  split; intros b tb Hb; rewrite ?Hsame;
    apply list_lookup_insert_Some in Hb as [(-> & <- & _) | [_ Hb]]; simpl; eauto.
Qed.

(** Marking a running task as done opens the notification round for its
    successors. *)
Lemma notifying_mark_done ts t tk :
  consistent ts ->
  ts !! t = Some tk -> state tk = Running ->
  notifying (<[t := with_state Done tk]> ts) (successors tk).
Proof.
  intros [Hcount Hstarted] Ht Hrun.
  assert (state tk <> Done) as Hnd by (rewrite Hrun; discriminate).
  assert (forall b, undone_predecessors (<[t := with_state Done tk]> ts) b
                    + occurrences b (successors tk)
                    = undone_predecessors ts b) as Hsum.
  { intros b. pose proof (undone_predecessors_insert ts t tk (with_state Done tk) b Ht) as H.
    rewrite open_edges_not_done in H by exact Hnd.
    rewrite open_edges_done in H by reflexivity. lia. }
  split; intros b tb Hb.
  - rewrite Hsum.
    apply list_lookup_insert_Some in Hb as [(-> & <- & _) | [_ Hb]]; simpl.
    + rewrite (Hcount _ _ Ht), occurrences_nil. lia.
    + rewrite (Hcount _ _ Hb), occurrences_nil. lia.
  - apply list_lookup_insert_Some in Hb as [(-> & <- & _) | [_ Hb]]; simpl.
    + intros _. apply (Hstarted _ _ Ht). unfold started. auto.
    + apply (Hstarted _ _ Hb).
Qed.

Lemma evolved_refl R ts : evolved R ts ts.
Proof. split; [reflexivity |]. intros i tk Hi. exists tk. auto. Qed.

Lemma evolved_trans (R : TaskID -> TaskState -> TaskState -> Prop) ts1 ts2 ts3 :
  (forall i s1 s2 s3, R i s1 s2 -> R i s2 s3 -> R i s1 s3) ->
  evolved R ts1 ts2 -> evolved R ts2 ts3 -> evolved R ts1 ts3.
Proof.
  intros HR [Hlen12 H12] [Hlen23 H23]. split; [congruence |].
  intros i tk3 Hi3.
  destruct (H23 _ _ Hi3) as (tk2 & Hi2 & Hs23 & Hp23 & Hst23).
  destruct (H12 _ _ Hi2) as (tk1 & Hi1 & Hs12 & Hp12 & Hst12).
  exists tk1. repeat split; [exact Hi1 | congruence | congruence |].
  destruct Hst23 as [-> | Hst23]; [exact Hst12 |].
  destruct Hst12 as [<- | Hst12]; [by right |]. right. eauto.
Qed.

(** Replacing one task by a task with the same successors and payload. *)
Lemma evolved_insert (R : TaskID -> TaskState -> TaskState -> Prop) ts i tk tk' :
  ts !! i = Some tk ->
  successors tk' = successors tk -> payload tk' = payload tk ->
  state tk' = state tk \/ R i (state tk) (state tk') ->
  evolved R ts (<[i := tk']> ts).
Proof.
  intros Hi Hs Hp Hst. split; [apply length_insert |].
  intros j tj Hj. apply list_lookup_insert_Some in Hj as [(-> & <- & _) | [_ Hj]].
  - exists tk. auto.
  - exists tj. auto.
Qed.

Lemma notify_one ts rem s ready ts' ready' :
  notifying ts (s :: rem) ->
  on_predecessor_done (ts, ready) s = (ts', ready') ->
  notifying ts' rem /\ evolved woken ts ts'.
Proof.
  intros Hinv Hstep. unfold on_predecessor_done in Hstep.
  destruct (ts !! s) as [tk |] eqn:Hs.
  - pose proof (counts_open_edges _ _ Hinv _ _ Hs) as Hpending.
    rewrite occurrences_cons, decide_True in Hpending by reflexivity.
    assert (state tk <> Done) as Hnd.
    { intros Hd. pose proof (started_without_pending _ _ Hinv _ _ Hs) as Hz.
      unfold started in Hz. rewrite Hz in Hpending by auto. lia. }
    assert (~ started (state tk)) as Hns.
    { intros Hst. rewrite (started_without_pending _ _ Hinv _ _ Hs Hst) in Hpending. lia. }
    (* the invariant with the count of [s] lowered by one *)
    assert (forall tk', successors tk' = successors tk -> state tk' <> Done ->
              pending_predecessors tk' = Nat.pred (pending_predecessors tk) ->
              (started (state tk') -> pending_predecessors tk' = 0) ->
              (forall b tb, b <> s -> ts !! b = Some tb -> started (state tb) ->
                            pending_predecessors tb = 0) ->
              notifying (<[s := tk']> ts) rem) as Hlower.
    { intros tk' Hsucc Hnd' Hpred Hz Hothers.
      assert (forall b, undone_predecessors (<[s := tk']> ts) b = undone_predecessors ts b)
        as Hsame.
      { intros b. pose proof (undone_predecessors_insert ts s tk tk' b Hs) as H.
        rewrite !open_edges_not_done in H by assumption. rewrite Hsucc in H. lia. }
      split; intros b tb Hb.
      - rewrite Hsame.
        apply list_lookup_insert_Some in Hb as [(-> & <- & _) | [Hne Hb]].
        + rewrite Hpred. lia.
        + rewrite (counts_open_edges _ _ Hinv _ _ Hb), occurrences_cons.
          rewrite decide_False by exact Hne. lia.
      - apply list_lookup_insert_Some in Hb as [(-> & <- & _) | [Hne Hb]]; eauto. }
    assert (forall b tb, b <> s -> ts !! b = Some tb -> started (state tb) ->
                         pending_predecessors tb = 0) as Hothers.
    { intros b tb _ Hb. apply (started_without_pending _ _ Hinv _ _ Hb). }
    destruct (decide (Nat.pred (pending_predecessors tk) = 0)) as [Hzero | Hno];
      [destruct (decide (state tk = Scheduled)) as [Hsched | Hcreated] |]; simplify_eq.
    + split.
      * apply Hlower; simpl; try done.
      * apply (evolved_insert woken _ _ tk); simpl; auto.
        right. split; [exact Hsched | reflexivity].
    + split.
      * apply Hlower; simpl; try done.
      * apply (evolved_insert woken _ _ tk); simpl; auto.
    + split.
      * apply Hlower; simpl; try done.
      * apply (evolved_insert woken _ _ tk); simpl; auto.
  - simplify_eq. split; [| apply evolved_refl].
    split; intros b tb Hb.
    + rewrite (counts_open_edges _ _ Hinv _ _ Hb), occurrences_cons.
      rewrite decide_False; [lia |]. intros ->. congruence.
    + apply (started_without_pending _ _ Hinv _ _ Hb).
Qed.

Lemma woken_trans i s1 s2 s3 : woken i s1 s2 -> woken i s2 s3 -> woken i s1 s3.
Proof. unfold woken. intros [-> ->] [? _]. discriminate. Qed.

Lemma notify_all rem ts ready ts' ready' :
  notifying ts rem ->
  foldl on_predecessor_done (ts, ready) rem = (ts', ready') ->
  consistent ts' /\ evolved woken ts ts'.
Proof.
  revert ts ready. induction rem as [| s rem IH]; intros ts ready Hinv Hfold; cbn [foldl] in Hfold.
  - simplify_eq. split; [exact Hinv | apply evolved_refl].
  - destruct (on_predecessor_done (ts, ready) s) as [ts1 ready1] eqn:Hone.
    destruct (notify_one _ _ _ _ _ _ Hinv Hone) as [Hinv1 Hev1].
    destruct (IH _ _ Hinv1 Hfold) as [Hcons Hev].
    split; [exact Hcons |].
    eapply evolved_trans; [apply woken_trans | exact Hev1 | exact Hev].
Qed.

(** *** Building the graph *)

Lemma all_created_not_started ts b tb :
  all_created ts -> ts !! b = Some tb -> ~ started (state tb) /\ state tb <> Done.
Proof.
  intros Hall Hb. rewrite (Forall_lookup_1 _ _ _ _ Hall Hb).
  unfold started. split; [intros [? | [? | ?]] |]; discriminate.
Qed.

Lemma job_tasks_consistent (ps : list (Mem -> Mem)) :
  consistent (JobTask <$> ps) /\ all_created (JobTask <$> ps).
Proof.
  assert (forall b, undone_predecessors (JobTask <$> ps) b = 0) as Hzero.
  { intros b. induction ps as [| p ps IH]; [reflexivity |].
    unfold undone_predecessors in *. rewrite fmap_cons. cbn [sum_list_with].
    rewrite IH. reflexivity. }
  split.
  - split; intros b tb Hb.
    + rewrite Hzero. apply list_lookup_fmap_Some in Hb as (p & -> & _). reflexivity.
    + apply list_lookup_fmap_Some in Hb as (p & -> & _). reflexivity.
  - apply Forall_fmap, Forall_forall. reflexivity.
Qed.

Lemma set_as_predecessor_of_consistent a b ts :
  consistent ts -> all_created ts ->
  consistent (set_as_predecessor_of a b ts)
  /\ all_created (set_as_predecessor_of a b ts).
Proof.
  intros Hcons Hall. unfold set_as_predecessor_of.
  destruct (decide (a < length ts /\ b < length ts)) as [[Ha Hb] |]; [| by split].
  destruct (lookup_lt_is_Some_2 ts a Ha) as [ta Hta].
  rewrite (alter_as_insert _ ts a ta Hta).
  set (ts1 := <[a := add_successor b ta]> ts).
  assert (length ts1 = length ts) as Hlen1 by apply length_insert.
  destruct (lookup_lt_is_Some_2 ts1 b ltac:(lia)) as [tb1 Htb1].
  rewrite (alter_as_insert _ ts1 b tb1 Htb1).
  destruct (all_created_not_started _ _ _ Hall Hta) as [_ Hnda].
  assert (all_created ts1) as Hall1.
  { apply Forall_insert; [exact Hall |]. simpl.
    apply (Forall_lookup_1 _ _ _ _ Hall Hta). }
  destruct (all_created_not_started _ _ _ Hall1 Htb1) as [_ Hndb].
  assert (forall c, undone_predecessors ts1 c
                    = undone_predecessors ts c + (if decide (b = c) then 1 else 0)) as Hu1.
  { intros c. pose proof (undone_predecessors_insert ts a ta (add_successor b ta) c Hta) as H.
    rewrite !open_edges_not_done in H by assumption. simpl in H.
    rewrite occurrences_app, occurrences_cons, occurrences_nil in H.
    unfold ts1. lia. }
  set (tb2 := with_pending (S (pending_predecessors tb1)) tb1).
  assert (forall c, undone_predecessors (<[b := tb2]> ts1) c = undone_predecessors ts1 c)
    as Hu2.
  { intros c. pose proof (undone_predecessors_insert ts1 b tb1 tb2 c Htb1) as H.
    rewrite (open_edges_not_done c tb1), (open_edges_not_done c tb2) in H by exact Hndb.
    simpl in H. lia. }
  assert (forall c tc, ts1 !! c = Some tc ->
            pending_predecessors tc = undone_predecessors ts c) as Hp1.
  { intros c tc Hc. apply list_lookup_insert_Some in Hc as [(-> & <- & _) | [_ Hc]]; simpl.
    - rewrite (counts_open_edges _ _ Hcons _ _ Hta), occurrences_nil. lia.
    - rewrite (counts_open_edges _ _ Hcons _ _ Hc), occurrences_nil. lia. }
  assert (all_created (<[b := tb2]> ts1)) as Hall2.
  { apply Forall_insert; [exact Hall1 |]. simpl.
    apply (Forall_lookup_1 _ _ _ _ Hall1 Htb1). }
  split; [| exact Hall2]. split; intros c tc Hc.
  - rewrite Hu2, Hu1, occurrences_nil.
    apply list_lookup_insert_Some in Hc as [(-> & <- & _) | [Hne Hc]]; simpl.
    + rewrite (Hp1 _ _ Htb1), decide_True by reflexivity. lia.
    + rewrite (Hp1 _ _ Hc), decide_False by exact Hne. lia.
  - intros Hst. destruct (all_created_not_started _ _ _ Hall2 Hc) as [Hns _]. contradiction.
Qed.

Lemma build_consistent (ps : list (Mem -> Mem)) (edges : list (TaskID * TaskID)) :
  consistent (build ps edges) /\ all_created (build ps edges).
Proof.
  unfold build. generalize (job_tasks_consistent ps).
  generalize (JobTask <$> ps) as ts. induction edges as [| e edges IH]; intros ts [Hc Ha].
  - by split.
  - simpl. apply IH. by apply set_as_predecessor_of_consistent.
Qed.

(** *** One action *)

Lemma evolved_mono (R R' : TaskID -> TaskState -> TaskState -> Prop) ts ts' :
  (forall i s s', R i s s' -> R' i s s') -> evolved R ts ts' -> evolved R' ts ts'.
Proof.
  intros HR [Hlen H]. split; [exact Hlen |].
  intros i tk' Hi. destruct (H _ _ Hi) as (tk & ? & ? & ? & [? | ?]); exists tk; auto 6.
Qed.

Lemma schedule_step t st :
  consistent (tasks st) ->
  consistent (tasks (schedule t st))
  /\ evolved (transition (Schedule t)) (tasks st) (tasks (schedule t st))
  /\ memory (schedule t st) = memory st.
Proof.
  intros Hcons. unfold schedule.
  destruct (tasks st !! t) as [tk |] eqn:Ht;
    [| split; [exact Hcons | split; [apply evolved_refl | reflexivity]]].
  destruct (state tk) eqn:Hstate;
    try (split; [exact Hcons | split; [apply evolved_refl | reflexivity]]).
  destruct (Nat.eqb_spec (pending_predecessors tk) 0) as [Hzero | Hpos]; simpl.
  - split; [| split; [| reflexivity]].
    + apply notifying_change_state; rewrite ?Hstate; try done.
    + apply (evolved_insert _ _ _ tk); simpl; auto; rewrite ?Hstate; auto.
  - split; [| split; [| reflexivity]].
    + apply notifying_change_state; rewrite ?Hstate; try done.
      unfold started. intros [? | [? | ?]]; discriminate.
    + apply (evolved_insert _ _ _ tk); simpl; auto; rewrite ?Hstate; auto.
Qed.

Lemma start_step t st st' :
  start t st = Some st' ->
  consistent (tasks st) ->
  consistent (tasks st')
  /\ evolved (transition (Start t)) (tasks st) (tasks st')
  /\ memory st' = memory st
  /\ exists tk, tasks st !! t = Some tk /\ state tk = Ready.
Proof.
  unfold start. intros Hstart Hcons.
  destruct (tasks st !! t) as [tk |] eqn:Ht; [| discriminate].
  destruct (decide (state tk = Ready)) as [Hready |]; [| discriminate].
  simplify_eq. simpl. split; [| split; [| split; [reflexivity | eauto]]].
  - apply notifying_change_state; rewrite ?Hready; try done.
    intros _. apply (started_without_pending _ _ Hcons _ _ Ht). rewrite Hready. by left.
  - apply (evolved_insert _ _ _ tk); simpl; auto; rewrite ?Hready; auto.
Qed.

Lemma finish_step t st st' :
  finish t st = Some st' ->
  consistent (tasks st) ->
  consistent (tasks st')
  /\ evolved (transition (Finish t)) (tasks st) (tasks st')
  /\ exists tk tk', tasks st !! t = Some tk /\ state tk = Running
       /\ memory st' = payload tk (memory st)
       /\ tasks st' !! t = Some tk' /\ state tk' = Done.
Proof.
  unfold finish. intros Hfinish Hcons.
  destruct (tasks st !! t) as [tk |] eqn:Ht; [| discriminate].
  destruct (decide (state tk = Running)) as [Hrun |]; [| discriminate].
  destruct (notify_successors _ _) as [ts' ready] eqn:Hnotify.
  simplify_eq. simpl. unfold notify_successors in Hnotify.
  destruct (notify_all _ _ _ _ _ (notifying_mark_done _ _ _ Hcons Ht Hrun) Hnotify)
    as [Hcons' Hwoken].
  split; [exact Hcons' | split].
  2: { destruct Hwoken as [Hlen Hwoken].
       destruct (lookup_lt_is_Some_2 ts' t) as [tk' Htk'].
       { rewrite Hlen, length_insert. by eapply lookup_lt_Some. }
       destruct (Hwoken _ _ Htk') as (tk1 & Htk1 & _ & _ & Hst).
       apply list_lookup_insert_Some in Htk1 as [(_ & <- & _) | [? _]]; [| done].
       exists tk, tk'. repeat split; try done.
       destruct Hst as [Hst | [Hst _]]; [exact Hst | discriminate]. }
  eapply evolved_trans; [| | eapply evolved_mono; [| exact Hwoken]].
  - simpl. intros i s1 s2 s3 [(_ & _ & ->) | (_ & ->)] [(_ & ? & _) | (? & _)]; discriminate.
  - apply (evolved_insert _ _ _ tk); simpl; auto; rewrite ?Hrun; auto.
  - simpl. unfold woken. intros i s s' [-> ->]. right. auto.
Qed.

Lemma step_consistent a st st' :
  step a st = Some st' ->
  consistent (tasks st) ->
  consistent (tasks st') /\ evolved (transition a) (tasks st) (tasks st').
Proof.
  destruct a as [t | t | t]; simpl; intros Hstep Hcons.
  - simplify_eq. destruct (schedule_step t st Hcons) as (? & ? & _). by split.
  - destruct (start_step _ _ _ Hstep Hcons) as (? & ? & _). by split.
  - destruct (finish_step _ _ _ Hstep Hcons) as (? & ? & _). by split.
Qed.

(** *** Runs *)

Lemma run_app (tr1 tr2 : list Action) st :
  run (tr1 ++ tr2) st = run tr1 st ≫= run tr2.
Proof.
  revert st. induction tr1 as [| a tr1 IH]; intros st; simpl; [reflexivity |].
  destruct (step a st); [apply IH | reflexivity].
Qed.

Lemma run_snoc (tr : list Action) a st st' :
  run (tr ++ [a]) st = Some st' <->
  exists st1, run tr st = Some st1 /\ step a st1 = Some st'.
Proof.
  rewrite run_app. destruct (run tr st) as [st1 |]; simpl.
  - destruct (step a st1) as [st2 |] eqn:Hstep; split.
    + intros ?. simplify_eq. eauto.
    + intros (? & ? & ?). congruence.
    + discriminate.
    + intros (? & ? & ?). congruence.
  - split; [discriminate | intros (? & ? & _); discriminate].
Qed.

Lemma snoc_split {X} (tr pre post : list X) (a x : X) :
  tr ++ [a] = pre ++ x :: post ->
  (post = [] /\ a = x /\ pre = tr)
  \/ exists post', post = post' ++ [a] /\ tr = pre ++ x :: post'.
Proof.
  destruct post as [| y post' _] using rev_ind; intros Heq.
  - left. apply (app_inj_tail tr pre a x) in Heq as [-> ->]. auto.
  - right. exists post'.
    rewrite app_comm_cons, app_assoc in Heq.
    apply app_inj_tail in Heq as [-> ->]. by split.
Qed.

Lemma same_graph_predecessor ts0 ts a b :
  same_graph ts0 ts -> predecessor_of ts0 a b -> predecessor_of ts a b.
Proof.
  intros [Hlen Hsame] (ta & Ha & Hin).
  destruct (lookup_lt_is_Some_2 ts a) as [ta' Ha'].
  { rewrite Hlen. by eapply lookup_lt_Some. }
  destruct (Hsame _ _ Ha') as (ta0 & Ha0 & Hs & _).
  exists ta'. split; [exact Ha' |]. rewrite Hs. congruence.
Qed.

Lemma run_facts_step ts0 tr a st st' :
  run_facts ts0 tr st -> step a st = Some st' -> run_facts ts0 (tr ++ [a]) st'.
Proof.
  intros [Hcons Hgraph Hdone Hrunning Hord1 Hord2] Hstep.
  destruct (step_consistent _ _ _ Hstep Hcons) as [Hcons' Hev].
  split.
  - exact Hcons'.
  - eapply evolved_trans; [| exact Hgraph | eapply evolved_mono; [| exact Hev]]; done.
  - intros t tk' Ht Hd. apply elem_of_app.
    destruct Hev as [_ Hev]. destruct (Hev _ _ Ht) as (tk & Htk & _ & _ & Hst).
    destruct Hst as [Hst | Htrans].
    + left. apply (Hdone _ _ Htk). congruence.
    + right. rewrite Hd in Htrans. apply list_elem_of_singleton.
      destruct a; simpl in Htrans; destruct_and?; destruct_or?; destruct_and?;
        simplify_eq; reflexivity.
  - intros t tk' Ht Hrd. apply elem_of_app.
    destruct Hev as [_ Hev]. destruct (Hev _ _ Ht) as (tk & Htk & _ & _ & Hst).
    destruct Hst as [Hst | Htrans].
    + left. apply (Hrunning _ _ Htk). congruence.
    + destruct a as [t0 | t0 | t0]; simpl in Htrans.
      * exfalso. destruct Htrans as (_ & _ & [H | H]); destruct Hrd; congruence.
      * right. destruct Htrans as (-> & _). by apply list_elem_of_singleton.
      * left. destruct Htrans as [(_ & Hrun & _) | (_ & H)].
        -- apply (Hrunning _ _ Htk). by left.
        -- exfalso. destruct Hrd; congruence.
  - intros a0 b pre post Hpred Hsplit.
    apply snoc_split in Hsplit as [(-> & -> & ->) | (post' & -> & ->)].
    + simpl in Hstep.
      destruct (start_step _ _ _ Hstep Hcons) as (_ & _ & _ & tb & Hb & Hready).
      pose proof (started_without_pending _ _ Hcons _ _ Hb) as Hzero.
      rewrite Hready in Hzero. specialize (Hzero ltac:(by left)).
      rewrite (counts_open_edges _ _ Hcons _ _ Hb), occurrences_nil in Hzero.
      destruct (same_graph_predecessor _ _ _ _ Hgraph Hpred) as (ta & Ha & Hin).
      apply (Hdone _ _ Ha).
      apply (undone_predecessors_zero (tasks st) a0 b ta); [lia | exact Ha | exact Hin].
    + by eapply Hord1.
  - intros t pre post Hsplit.
    apply snoc_split in Hsplit as [(-> & -> & ->) | (post' & -> & ->)].
    + simpl in Hstep.
      destruct (finish_step _ _ _ Hstep Hcons) as (_ & _ & tk & _ & Htk & Hrun & _).
      apply (Hrunning _ _ Htk). auto.
    + by eapply Hord2.
Qed.

Lemma run_facts_initial ts0 m :
  consistent ts0 -> all_created ts0 -> run_facts ts0 [] (initial ts0 m).
Proof.
  intros Hcons Hall. split; simpl.
  - exact Hcons.
  - apply evolved_refl.
  - intros t tk Ht Hd. rewrite (Forall_lookup_1 _ _ _ _ Hall Ht) in Hd. discriminate.
  - intros t tk Ht [Hd | Hd]; rewrite (Forall_lookup_1 _ _ _ _ Hall Ht) in Hd; discriminate.
  - intros a b pre post _ Heq. by destruct pre.
  - intros t pre post Heq. by destruct pre.
Qed.

Lemma run_facts_run ts0 m tr st :
  consistent ts0 -> all_created ts0 ->
  run tr (initial ts0 m) = Some st -> run_facts ts0 tr st.
Proof.
  intros Hcons Hall. revert st. induction tr as [| a tr IH] using rev_ind; intros st Hrun.
  - simpl in Hrun. simplify_eq. by apply run_facts_initial.
  - apply run_snoc in Hrun as (st1 & Hrun1 & Hstep).
    eapply run_facts_step; [apply IH; exact Hrun1 | exact Hstep].
Qed.

(** Along a path of the graph, the first task finishes before the last
    one starts. *)
Lemma transitive_predecessor_finished ts0 tr st a b :
  run_facts ts0 tr st ->
  tc (predecessor_of ts0) a b ->
  forall pre post, tr = pre ++ Start b :: post -> Finish a ∈ pre.
Proof.
  intros Hfacts Hpath. induction Hpath as [a b Hab | a c b Hac Hcb IH]; intros pre post Heq.
  - by eapply (start_after_predecessors _ _ _ Hfacts).
  - specialize (IH _ _ Heq).
    apply list_elem_of_split in IH as (pre1 & post1 & ->).
    rewrite <- app_assoc, <- app_comm_cons in Heq.
    pose proof (finish_after_start _ _ _ Hfacts _ _ _ Heq) as Hstart.
    apply list_elem_of_split in Hstart as (pre2 & post2 & ->).
    rewrite <- app_assoc, <- app_comm_cons in Heq.
    pose proof (start_after_predecessors _ _ _ Hfacts _ _ _ _ Hac Heq) as Hfin.
    rewrite <- app_assoc. apply elem_of_app. by left.
Qed.

(** *** No notification is lost *)

Lemma notify_one_waits ts inline s ts' inline' :
  Forall waits_for_predecessor ts ->
  on_predecessor_done (ts, inline) s = (ts', inline') ->
  Forall waits_for_predecessor ts'.
Proof.
  intros Hall Hstep. unfold on_predecessor_done in Hstep.
  destruct (ts !! s) as [tk |] eqn:Hs; [| by simplify_eq].
  destruct (decide (Nat.pred (pending_predecessors tk) = 0)) as [Hzero | Hno];
    [destruct (decide (state tk = Scheduled)) as [Hsched | Hother] |]; simplify_eq;
    apply Forall_insert; try exact Hall; unfold waits_for_predecessor; simpl; done.
Qed.

Lemma notify_all_waits rem ts inline ts' inline' :
  Forall waits_for_predecessor ts ->
  foldl on_predecessor_done (ts, inline) rem = (ts', inline') ->
  Forall waits_for_predecessor ts'.
Proof.
  revert ts inline. induction rem as [| s rem IH]; intros ts inline Hall Hfold;
    cbn [foldl] in Hfold; [by simplify_eq |].
  destruct (on_predecessor_done (ts, inline) s) as [ts1 inline1] eqn:Hone.
  eapply IH; [| exact Hfold]. eapply notify_one_waits; eassumption.
Qed.

Lemma step_waits a st st' :
  step a st = Some st' ->
  Forall waits_for_predecessor (tasks st) ->
  Forall waits_for_predecessor (tasks st').
Proof.
  intros Hstep Hall. destruct a as [t | t | t]; simpl in Hstep.
  - injection Hstep as <-. unfold schedule.
    destruct (tasks st !! t) as [tk |] eqn:Ht; [| exact Hall].
    destruct (state tk) eqn:Hstate; try exact Hall.
    destruct (Nat.eqb_spec (pending_predecessors tk) 0) as [Hzero | Hpos]; simpl;
      apply Forall_insert; try exact Hall; unfold waits_for_predecessor; simpl; done.
  - unfold start in Hstep.
    destruct (tasks st !! t) as [tk |] eqn:Ht; [| discriminate].
    destruct (decide (state tk = Ready)); [| discriminate]. simplify_eq. simpl.
    apply Forall_insert; [exact Hall |]. unfold waits_for_predecessor. simpl. done.
  - unfold finish in Hstep.
    destruct (tasks st !! t) as [tk |] eqn:Ht; [| discriminate].
    destruct (decide (state tk = Running)); [| discriminate].
    destruct (notify_successors _ _) as [ts' inline] eqn:Hnotify.
    simplify_eq. simpl. unfold notify_successors in Hnotify.
    eapply notify_all_waits; [| exact Hnotify].
    apply Forall_insert; [exact Hall |]. unfold waits_for_predecessor. simpl. done.
Qed.

Lemma run_waits tr st st' :
  run tr st = Some st' ->
  Forall waits_for_predecessor (tasks st) ->
  Forall waits_for_predecessor (tasks st').
Proof.
  revert st. induction tr as [| a tr IH]; intros st Hrun Hall; simpl in Hrun.
  - by simplify_eq.
  - destruct (step a st) as [st1 |] eqn:Hstep; [| discriminate].
    eapply IH; [exact Hrun |]. eapply step_waits; eassumption.
Qed.

Lemma all_created_waits ts : all_created ts -> Forall waits_for_predecessor ts.
Proof.
  intros Hall. eapply Forall_impl; [exact Hall |].
  intros tk Hcreated. unfold waits_for_predecessor. rewrite Hcreated. discriminate.
Qed.

(** A task that was scheduled is no longer as it was created. *)
Lemma scheduled_not_created ts0 m tr st t tk :
  consistent ts0 -> all_created ts0 ->
  run tr (initial ts0 m) = Some st ->
  Schedule t ∈ tr ->
  tasks st !! t = Some tk ->
  state tk <> Created.
Proof.
  intros Hcons0 Hall0. revert st tk.
  induction tr as [| a tr IH] using rev_ind; intros st tk Hrun Hin Ht.
  - by apply elem_of_nil in Hin.
  - apply run_snoc in Hrun as (st1 & Hrun1 & Hstep).
    pose proof (run_consistent _ _ _ (run_facts_run _ _ _ _ Hcons0 Hall0 Hrun1)) as Hcons.
    destruct (step_consistent _ _ _ Hstep Hcons) as [_ [_ Hev]].
    destruct (Hev _ _ Ht) as (tk1 & Ht1 & _ & _ & [Hsame | Htrans]).
    + apply elem_of_app in Hin as [Hin | Hin].
      * rewrite Hsame. by apply (IH st1).
      * apply list_elem_of_singleton in Hin as <-. simpl in Hstep.
        injection Hstep as <-. intros Hcreated. rewrite Hcreated in Hsame.
        unfold schedule in Ht. rewrite Ht1, <- Hsame in Ht.
        assert (t < length (tasks st1)) as Hlt by (by eapply lookup_lt_Some).
        destruct (pending_predecessors tk1 =? 0); simpl in Ht;
          rewrite list_lookup_insert_eq in Ht by exact Hlt; simplify_eq/=; congruence.
    + destruct a as [t' | t' | t']; simpl in Htrans.
      * destruct Htrans as (_ & _ & [-> | ->]); discriminate.
      * destruct Htrans as (_ & _ & ->). discriminate.
      * destruct Htrans as [(_ & _ & ->) | (_ & ->)]; discriminate.
Qed.

Lemma start_running t st st' :
  start t st = Some st' ->
  exists tk, tasks st !! t = Some tk /\ state tk = Ready
    /\ tasks st' !! t = Some (with_state Running tk).
Proof.
  unfold start. intros Hstart.
  destruct (tasks st !! t) as [tk |] eqn:Ht; [| discriminate].
  destruct (decide (state tk = Ready)) as [Hready |]; [| discriminate].
  simplify_eq. exists tk. split; [reflexivity | split; [exact Hready |]]. simpl.
  apply list_lookup_insert_eq. by eapply lookup_lt_Some.
Qed.

Lemma start_none t st tk :
  start t st = None -> tasks st !! t = Some tk -> state tk <> Ready.
Proof.
  unfold start. intros Hstart Ht. rewrite Ht in Hstart.
  by destruct (decide (state tk = Ready)).
Qed.

Lemma finish_none t st tk :
  finish t st = None -> tasks st !! t = Some tk -> state tk <> Running.
Proof.
  unfold finish. intros Hfinish Ht. rewrite Ht in Hfinish.
  destruct (decide (state tk = Running)); [| done].
  by destruct (notify_successors _ _).
Qed.

Lemma worker_actions_of_after (act : Action) (i : TaskID) (x y : Task Mem) :
  state y = state x \/ transition act i (state x) (state y) ->
  (forall t, act = Start t -> i <> t) ->
  (forall t, act = Finish t -> i <> t) ->
  worker_actions_of y = worker_actions_of x.
Proof.
  unfold worker_actions_of. intros [-> | Htrans] Hstart Hfinish; [reflexivity |].
  destruct act as [t | t | t]; simpl in Htrans.
  - destruct Htrans as (_ & -> & [-> | ->]); reflexivity.
  - destruct Htrans as (-> & _). by destruct (Hstart t).
  - destruct Htrans as [(-> & _) | (-> & ->)]; [| reflexivity].
    by destruct (Hfinish t).
Qed.

End Facts.

(** *** The linear chain of [stress_linear_dependencies] *)

Lemma chain_tasks_shape (ts : list (Task Counter)) :
  same_graph stress_linear_dependencies_tasks ts ->
  exists x0 x1 x2, ts = [x0; x1; x2]
    /\ successors x0 = [1] /\ successors x1 = [2] /\ successors x2 = []
    /\ payload x0 = cas_payload 0 1 /\ payload x1 = cas_payload 1 2
    /\ payload x2 = cas_payload 2 3.
Proof.
  intros [Hlen Hsame].
  destruct ts as [| x0 [| x1 [| x2 [| ? ?]]]]; try discriminate.
  exists x0, x1, x2. split; [reflexivity |].
  destruct (Hsame 0 x0 eq_refl) as (? & ? & ? & ? & _).
  destruct (Hsame 1 x1 eq_refl) as (? & ? & ? & ? & _).
  destruct (Hsame 2 x2 eq_refl) as (? & ? & ? & ? & _).
  simplify_eq/=. repeat split; assumption.
Qed.

(** In the chain a task that was delivered has its predecessor done. *)
Lemma chain_started (x0 x1 x2 : Task Counter) :
  consistent [x0; x1; x2] ->
  successors x0 = [1] -> successors x1 = [2] ->
  (started (state x1) -> state x0 = Done)
  /\ (started (state x2) -> state x1 = Done).
Proof.
  intros Hcons Hs0 Hs1. split; intros Hst.
  - pose proof (started_without_pending _ _ Hcons 1 x1 eq_refl Hst) as Hz.
    rewrite (counts_open_edges _ _ Hcons 1 x1 eq_refl), occurrences_nil in Hz.
    apply (undone_predecessors_zero [x0; x1; x2] 0 1 x0); [lia | reflexivity |].
    rewrite Hs0. apply list_elem_of_here.
  - pose proof (started_without_pending _ _ Hcons 2 x2 eq_refl Hst) as Hz.
    rewrite (counts_open_edges _ _ Hcons 2 x2 eq_refl), occurrences_nil in Hz.
    apply (undone_predecessors_zero [x0; x1; x2] 1 2 x1); [lia | reflexivity |].
    rewrite Hs1. apply list_elem_of_here.
Qed.

Lemma is_done_after (act : Action) (i : TaskID) (x y : Task Counter) :
  state y = state x \/ transition act i (state x) (state y) ->
  (forall t, act = Finish t -> i <> t) ->
  is_done y = is_done x.
Proof.
  unfold is_done. intros [-> | Htrans] Hother; [reflexivity |].
  destruct act as [t | t | t]; simpl in Htrans.
  - destruct Htrans as (_ & -> & [-> | ->]); reflexivity.
  - destruct Htrans as (_ & -> & ->); reflexivity.
  - destruct Htrans as [(-> & _) | (-> & ->)]; [| reflexivity].
    by destruct (Hother t).
Qed.

Lemma is_done_true (x : Task Counter) : state x = Done -> is_done x = true.
Proof. intros H. unfold is_done. by rewrite bool_decide_eq_true_2. Qed.

Lemma is_done_false (x : Task Counter) : state x <> Done -> is_done x = false.
Proof. intros H. unfold is_done. by rewrite bool_decide_eq_false_2. Qed.

Lemma is_done_started (x : Task Counter) : is_done x = true -> started (state x).
Proof.
  unfold is_done. intros H%bool_decide_eq_true. unfold started. auto.
Qed.

(** Every compare-and-swap of the chain finds the value it expects: the
    counter is the number of tasks that are done. *)
Lemma chain_counter tr st :
  run tr (initial stress_linear_dependencies_tasks counter_zero) = Some st ->
  failed_assertions (memory st) = 0
  /\ counter (memory st) = Z.of_nat (done_count (tasks st)).
Proof.
  destruct (build_consistent [cas_payload 0 1; cas_payload 1 2; cas_payload 2 3]%Z
              [(0, 1); (1, 2)]) as [Hcons0 Hall0].
  fold stress_linear_dependencies_tasks in Hcons0, Hall0.
  revert st. induction tr as [| act tr IH] using rev_ind; intros st Hrun.
  - simpl in Hrun. simplify_eq. split; reflexivity.
  - apply run_snoc in Hrun as (st1 & Hrun1 & Hstep).
    destruct (IH _ Hrun1) as [Hfailed Hcounter].
    pose proof (run_facts_run _ _ _ _ Hcons0 Hall0 Hrun1) as Hfacts.
    pose proof (run_consistent _ _ _ Hfacts) as Hcons.
    destruct (chain_tasks_shape _ (run_same_graph _ _ _ Hfacts))
      as (x0 & x1 & x2 & Hts & Hs0 & Hs1 & Hs2 & Hp0 & Hp1 & Hp2).
    pose proof Hcons as Hcons3. rewrite Hts in Hcons3, Hcounter.
    destruct (chain_started _ _ _ Hcons3 Hs0 Hs1) as [Hpred1 Hpred2].
    pose proof (run_facts_step _ _ _ _ _ Hfacts Hstep) as Hfacts'.
    destruct (chain_tasks_shape _ (run_same_graph _ _ _ Hfacts'))
      as (y0 & y1 & y2 & Hts' & _).
    destruct (step_consistent _ _ _ Hstep Hcons) as [_ [_ Hev]].
    rewrite Hts, Hts' in Hev.
    destruct (Hev 0 y0 eq_refl) as (x0' & Hx0 & _ & _ & Hst0).
    destruct (Hev 1 y1 eq_refl) as (x1' & Hx1 & _ & _ & Hst1).
    destruct (Hev 2 y2 eq_refl) as (x2' & Hx2 & _ & _ & Hst2).
    assert (x0' = x0) as -> by (simpl in Hx0; congruence).
    assert (x1' = x1) as -> by (simpl in Hx1; congruence).
    assert (x2' = x2) as -> by (simpl in Hx2; congruence).
    clear Hx0 Hx1 Hx2 Hev.
    rewrite Hts'. unfold done_count in *. cbn [sum_list_with] in *.
    destruct act as [t | t | t]; simpl in Hstep.
    + destruct (schedule_step t st1 Hcons) as (_ & _ & Hmem).
      injection Hstep as <-. rewrite Hmem, Hfailed, Hcounter. split; [reflexivity |].
      rewrite (is_done_after _ _ _ _ Hst0), (is_done_after _ _ _ _ Hst1),
        (is_done_after _ _ _ _ Hst2) by discriminate. reflexivity.
    + destruct (start_step _ _ _ Hstep Hcons) as (_ & _ & Hmem & _).
      rewrite Hmem, Hfailed, Hcounter. split; [reflexivity |].
      rewrite (is_done_after _ _ _ _ Hst0), (is_done_after _ _ _ _ Hst1),
        (is_done_after _ _ _ _ Hst2) by discriminate. reflexivity.
    + destruct (finish_step _ _ _ Hstep Hcons)
        as (_ & _ & tk & tk' & Htk & Hrun & Hmem & Htk' & Hdone).
      rewrite Hmem. rewrite Hts in Htk. rewrite Hts' in Htk'.
      assert (state tk <> Done) as Hnd by (rewrite Hrun; discriminate).
      assert (started (state tk)) as Hstarted by (rewrite Hrun; unfold started; auto).
      destruct t as [| [| [| t]]]; simpl in Htk, Htk'; [| | | discriminate].
      * assert (tk = x0) as -> by congruence. assert (tk' = y0) as -> by congruence.
        rewrite Hp0. unfold cas_payload. rewrite Hcounter.
        rewrite (is_done_true _ Hdone), (is_done_false _ Hnd).
        rewrite (is_done_after _ _ _ _ Hst1), (is_done_after _ _ _ _ Hst2)
          by (intros ? [= <-]; discriminate).
        destruct (is_done x1) eqn:Hd1.
        { specialize (Hpred1 (is_done_started _ Hd1)). contradiction. }
        destruct (is_done x2) eqn:Hd2.
        { specialize (Hpred2 (is_done_started _ Hd2)).
          apply is_done_true in Hpred2. congruence. }
        simpl. split; [exact Hfailed | reflexivity].
      * assert (tk = x1) as -> by congruence. assert (tk' = y1) as -> by congruence.
        rewrite Hp1. unfold cas_payload. rewrite Hcounter.
        rewrite (is_done_true _ Hdone), (is_done_false _ Hnd).
        rewrite (is_done_after _ _ _ _ Hst0), (is_done_after _ _ _ _ Hst2)
          by (intros ? [= <-]; discriminate).
        rewrite (is_done_true _ (Hpred1 Hstarted)).
        destruct (is_done x2) eqn:Hd2.
        { specialize (Hpred2 (is_done_started _ Hd2)). contradiction. }
        simpl. split; [exact Hfailed | reflexivity].
      * assert (tk = x2) as -> by congruence. assert (tk' = y2) as -> by congruence.
        rewrite Hp2. unfold cas_payload. rewrite Hcounter.
        rewrite (is_done_true _ Hdone), (is_done_false _ Hnd).
        rewrite (is_done_after _ _ _ _ Hst0), (is_done_after _ _ _ _ Hst1)
          by (intros ? [= <-]; discriminate).
        pose proof (Hpred2 Hstarted) as Hd1.
        assert (started (state x1)) as Hst1' by (rewrite Hd1; unfold started; auto).
        rewrite (is_done_true _ Hd1), (is_done_true _ (Hpred1 Hst1')).
        simpl. split; [exact Hfailed | reflexivity].
Qed.

Lemma chain_all_done tr st :
  run tr (initial stress_linear_dependencies_tasks counter_zero) = Some st ->
  all_done (tasks st) -> done_count (tasks st) = 3.
Proof.
  intros Hrun Hall.
  destruct (build_consistent [cas_payload 0 1; cas_payload 1 2; cas_payload 2 3]%Z
              [(0, 1); (1, 2)]) as [Hcons0 Hall0].
  fold stress_linear_dependencies_tasks in Hcons0, Hall0.
  pose proof (run_facts_run _ _ _ _ Hcons0 Hall0 Hrun) as Hfacts.
  destruct (chain_tasks_shape _ (run_same_graph _ _ _ Hfacts))
    as (x0 & x1 & x2 & Hts & _).
  rewrite Hts in *. unfold done_count. cbn [sum_list_with].
  rewrite !is_done_true; [reflexivity | | |].
  - apply (Forall_lookup_1 _ _ 2 _ Hall eq_refl).
  - apply (Forall_lookup_1 _ _ 1 _ Hall eq_refl).
  - apply (Forall_lookup_1 _ _ 0 _ Hall eq_refl).
Qed.

(** Every action of a worker is counted in the state of its task. *)
Lemma chain_worker_actions tr st :
  run tr (initial stress_linear_dependencies_tasks counter_zero) = Some st ->
  length tr = length (schedule_calls tr) + worker_actions (tasks st).
Proof.
  destruct (build_consistent [cas_payload 0 1; cas_payload 1 2; cas_payload 2 3]%Z
              [(0, 1); (1, 2)]) as [Hcons0 Hall0].
  fold stress_linear_dependencies_tasks in Hcons0, Hall0.
  revert st. induction tr as [| act tr IH] using rev_ind; intros st Hrun.
  - simpl in Hrun. simplify_eq. reflexivity.
  - apply run_snoc in Hrun as (st1 & Hrun1 & Hstep).
    specialize (IH _ Hrun1).
    pose proof (run_facts_run _ _ _ _ Hcons0 Hall0 Hrun1) as Hfacts.
    pose proof (run_consistent _ _ _ Hfacts) as Hcons.
    destruct (chain_tasks_shape _ (run_same_graph _ _ _ Hfacts))
      as (x0 & x1 & x2 & Hts & _).
    pose proof (run_facts_step _ _ _ _ _ Hfacts Hstep) as Hfacts'.
    destruct (chain_tasks_shape _ (run_same_graph _ _ _ Hfacts'))
      as (y0 & y1 & y2 & Hts' & _).
    destruct (step_consistent _ _ _ Hstep Hcons) as [_ [_ Hev]].
    rewrite Hts, Hts' in Hev.
    destruct (Hev 0 y0 eq_refl) as (x0' & Hx0 & _ & _ & Hst0).
    destruct (Hev 1 y1 eq_refl) as (x1' & Hx1 & _ & _ & Hst1).
    destruct (Hev 2 y2 eq_refl) as (x2' & Hx2 & _ & _ & Hst2).
    assert (x0' = x0) as -> by (simpl in Hx0; congruence).
    assert (x1' = x1) as -> by (simpl in Hx1; congruence).
    assert (x2' = x2) as -> by (simpl in Hx2; congruence).
    clear Hx0 Hx1 Hx2 Hev.
    unfold schedule_calls in *. rewrite filter_app, !length_app, IH.
    rewrite Hts, Hts'. unfold worker_actions. cbn [sum_list_with length].
    destruct act as [t | t | t]; simpl in Hstep.
    + rewrite (worker_actions_of_after _ _ _ _ Hst0), (worker_actions_of_after _ _ _ _ Hst1),
        (worker_actions_of_after _ _ _ _ Hst2) by discriminate.
      rewrite filter_cons, decide_True by reflexivity. simpl. lia.
    + rewrite filter_cons, decide_False by discriminate. simpl.
      destruct (start_running _ _ _ Hstep) as (tk & Htk & Hready & Htk').
      assert (worker_actions_of tk = 0) as Hbefore
        by (unfold worker_actions_of; by rewrite Hready).
      assert (worker_actions_of (with_state Running tk) = 1) as Hafter by reflexivity.
      rewrite Hts in Htk. rewrite Hts' in Htk'.
      destruct t as [| [| [| t]]]; simpl in Htk, Htk'; [| | | discriminate].
      * assert (tk = x0) as -> by congruence.
        assert (y0 = with_state Running x0) as Hy by congruence.
        rewrite (worker_actions_of_after _ _ _ _ Hst1), (worker_actions_of_after _ _ _ _ Hst2)
          by (intros ? [= <-]; discriminate).
        rewrite Hy, Hafter, Hbefore. lia.
      * assert (tk = x1) as -> by congruence.
        assert (y1 = with_state Running x1) as Hy by congruence.
        rewrite (worker_actions_of_after _ _ _ _ Hst0), (worker_actions_of_after _ _ _ _ Hst2)
          by (intros ? [= <-]; discriminate).
        rewrite Hy, Hafter, Hbefore. lia.
      * assert (tk = x2) as -> by congruence.
        assert (y2 = with_state Running x2) as Hy by congruence.
        rewrite (worker_actions_of_after _ _ _ _ Hst0), (worker_actions_of_after _ _ _ _ Hst1)
          by (intros ? [= <-]; discriminate).
        rewrite Hy, Hafter, Hbefore. lia.
    + rewrite filter_cons, decide_False by discriminate. simpl.
      destruct (finish_step _ _ _ Hstep Hcons)
        as (_ & _ & tk & tk' & Htk & Hrun & _ & Htk' & Hdone).
      assert (worker_actions_of tk = 1) as Hbefore
        by (unfold worker_actions_of; by rewrite Hrun).
      assert (worker_actions_of tk' = 2) as Hafter
        by (unfold worker_actions_of; by rewrite Hdone).
      rewrite Hts in Htk. rewrite Hts' in Htk'.
      destruct t as [| [| [| t]]]; simpl in Htk, Htk'; [| | | discriminate].
      * assert (tk = x0) as -> by congruence. assert (tk' = y0) as -> by congruence.
        rewrite (worker_actions_of_after _ _ _ _ Hst1), (worker_actions_of_after _ _ _ _ Hst2)
          by (intros ? [= <-]; discriminate).
        rewrite Hafter, Hbefore. lia.
      * assert (tk = x1) as -> by congruence. assert (tk' = y1) as -> by congruence.
        rewrite (worker_actions_of_after _ _ _ _ Hst0), (worker_actions_of_after _ _ _ _ Hst2)
          by (intros ? [= <-]; discriminate).
        rewrite Hafter, Hbefore. lia.
      * assert (tk = x2) as -> by congruence. assert (tk' = y2) as -> by congruence.
        rewrite (worker_actions_of_after _ _ _ _ Hst0), (worker_actions_of_after _ _ _ _ Hst1)
          by (intros ? [= <-]; discriminate).
        rewrite Hafter, Hbefore. lia.
Qed.

Lemma worker_actions_of_bound (x : Task Counter) : worker_actions_of x <= 2.
Proof. unfold worker_actions_of. destruct (state x); lia. Qed.

(** When the three tasks are scheduled and no worker can start or finish
    a task, the three tasks are done. *)
Lemma chain_idle_done tr st :
  run tr (initial stress_linear_dependencies_tasks counter_zero) = Some st ->
  schedule_calls tr = stress_linear_dependencies_schedule ->
  workers_idle st ->
  all_done (tasks st).
Proof.
  intros Hrun Hcalls Hidle.
  destruct (build_consistent [cas_payload 0 1; cas_payload 1 2; cas_payload 2 3]%Z
              [(0, 1); (1, 2)]) as [Hcons0 Hall0].
  fold stress_linear_dependencies_tasks in Hcons0, Hall0.
  pose proof (run_facts_run _ _ _ _ Hcons0 Hall0 Hrun) as Hfacts.
  pose proof (run_consistent _ _ _ Hfacts) as Hcons.
  destruct (chain_tasks_shape _ (run_same_graph _ _ _ Hfacts))
    as (x0 & x1 & x2 & Hts & Hs0 & Hs1 & Hs2 & _).
  assert (Forall waits_for_predecessor (tasks st)) as Hwaits.
  { eapply run_waits; [exact Hrun |]. by apply all_created_waits. }
  assert (forall t, t < 3 -> Schedule t ∈ tr) as Hscheduled.
  { intros t Ht. assert (Schedule t ∈ schedule_calls tr) as Hin.
    { rewrite Hcalls. unfold stress_linear_dependencies_schedule.
      destruct t as [| [| [| t]]]; [| | | lia]; repeat constructor. }
    unfold schedule_calls in Hin. by apply list_elem_of_filter in Hin as [_ Hin]. }
  assert (forall t x, tasks st !! t = Some x ->
            state x = Done \/ (state x = Scheduled /\ pending_predecessors x <> 0))
    as Hcases.
  { intros t x Hx.
    assert (t < 3) as Ht by (apply lookup_lt_Some in Hx; by rewrite Hts in Hx).
    pose proof (scheduled_not_created _ _ _ _ _ _ Hcons0 Hall0 Hrun (Hscheduled t Ht) Hx)
      as Hnc.
    pose proof (start_none _ _ _ (proj1 (Hidle t)) Hx) as Hnr.
    pose proof (finish_none _ _ _ (proj2 (Hidle t)) Hx) as Hnrun.
    pose proof (Forall_lookup_1 _ _ _ _ Hwaits Hx) as Hwait.
    unfold waits_for_predecessor in Hwait.
    destruct (state x); try done; [right | left]; auto. }
  rewrite Hts in *.
  assert (forall b x, [x0; x1; x2] !! b = Some x ->
            pending_predecessors x = undone_predecessors [x0; x1; x2] b) as Hcount.
  { intros b x Hx. rewrite (counts_open_edges _ _ Hcons _ _ Hx), occurrences_nil. lia. }
  unfold undone_predecessors, open_edges, is_done in Hcount. cbn [sum_list_with] in Hcount.
  rewrite Hs0, Hs1, Hs2 in Hcount.
  assert (state x0 = Done) as Hd0.
  { destruct (Hcases 0 x0 eq_refl) as [? | [_ Hp]]; [done |].
    specialize (Hcount 0 x0 eq_refl).
    rewrite !filter_cons, !decide_False, !filter_nil in Hcount by discriminate.
    simpl in Hcount. repeat case_bool_decide; simpl in Hcount; lia. }
  assert (state x1 = Done) as Hd1.
  { destruct (Hcases 1 x1 eq_refl) as [? | [_ Hp]]; [done |].
    specialize (Hcount 1 x1 eq_refl).
    rewrite bool_decide_eq_true_2 in Hcount by exact Hd0.
    rewrite !filter_cons, !decide_False, !filter_nil in Hcount by discriminate.
    simpl in Hcount. repeat case_bool_decide; simpl in Hcount; lia. }
  assert (state x2 = Done) as Hd2.
  { destruct (Hcases 2 x2 eq_refl) as [? | [_ Hp]]; [done |].
    specialize (Hcount 2 x2 eq_refl).
    rewrite (bool_decide_eq_true_2 (state x1 = Done)) in Hcount by exact Hd1.
    repeat case_bool_decide; simpl in Hcount; lia. }
  repeat constructor; assumption.
Qed.

(** C3: in every run of every task graph, a task starts only after each
    of its transitive predecessors has finished; for the chain
    [task1 -> task2 -> task3] of compare-and-swap payloads scheduled in the
    order [task3], [task1], [task2], in every interleaving of the workers no
    compare-and-swap fails, the run has at most nine actions (the three calls
    of [schedule], a start and an end for each task), and when no worker can
    start or finish a task any more, the three tasks are done and the counter
    is 3; there is such a run. *)
Theorem predecessors_complete_before_successors_begin :
  (forall (Mem : Type) (ps : list (Mem -> Mem)) (edges : list (TaskID * TaskID))
          (m : Mem) (tr : list Action) (st : State Mem) (a b : TaskID)
          (pre post : list Action),
      run tr (initial (build ps edges) m) = Some st ->
      tc (predecessor_of (build ps edges)) a b ->
      tr = pre ++ Start b :: post ->
      Finish a ∈ pre)
  /\ (forall (tr : list Action) (st : State Counter),
        run tr (initial stress_linear_dependencies_tasks counter_zero) = Some st ->
        schedule_calls tr = stress_linear_dependencies_schedule ->
        failed_assertions (memory st) = 0
        /\ length tr <= 9
        /\ (all_done (tasks st) -> counter (memory st) = 3%Z)
        /\ (workers_idle st -> all_done (tasks st) /\ counter (memory st) = 3%Z))
  /\ (exists (tr : list Action) (st : State Counter),
        schedule_calls tr = stress_linear_dependencies_schedule
        /\ run tr (initial stress_linear_dependencies_tasks counter_zero) = Some st
        /\ all_done (tasks st)
        /\ counter (memory st) = 3%Z
        /\ failed_assertions (memory st) = 0).
Proof.
  split; [| split].
  - intros Mem ps edges m tr st a b pre post Hrun Hpath Heq.
    destruct (build_consistent ps edges) as [Hcons Hall].
    eapply transitive_predecessor_finished; [| exact Hpath | exact Heq].
    eapply run_facts_run; eassumption.
  - intros tr st Hrun Hcalls. destruct (chain_counter _ _ Hrun) as [Hfailed Hcounter].
    assert (all_done (tasks st) -> counter (memory st) = 3%Z) as Hthree.
    { intros Hall. rewrite Hcounter, (chain_all_done _ _ Hrun Hall). reflexivity. }
    split; [exact Hfailed | split; [| split; [exact Hthree |]]].
    + rewrite (chain_worker_actions _ _ Hrun), Hcalls.
      destruct (build_consistent [cas_payload 0 1; cas_payload 1 2; cas_payload 2 3]%Z
                  [(0, 1); (1, 2)]) as [Hcons0 Hall0].
      fold stress_linear_dependencies_tasks in Hcons0, Hall0.
      destruct (chain_tasks_shape _
                  (run_same_graph _ _ _ (run_facts_run _ _ _ _ Hcons0 Hall0 Hrun)))
        as (x0 & x1 & x2 & -> & _).
      unfold worker_actions. cbn [sum_list_with].
      pose proof (worker_actions_of_bound x0). pose proof (worker_actions_of_bound x1).
      pose proof (worker_actions_of_bound x2). simpl. lia.
    + intros Hidle. pose proof (chain_idle_done _ _ Hrun Hcalls Hidle) as Hall. auto.
  - exists (stress_linear_dependencies_schedule
            ++ [Start 0; Finish 0; Start 1; Finish 1; Start 2; Finish 2]).
    eexists. split; [reflexivity |]. split; [vm_compute; reflexivity |].
    split; [| split; reflexivity]. repeat constructor.
Qed.

Lemma predecessors_complete_before_successors_begin_witness :
  Finish 0 ∈ [Schedule 2; Schedule 0; Schedule 1; Start 0; Finish 0; Start 1; Finish 1].
Proof.
  eapply (proj1 predecessors_complete_before_successors_begin Counter
            [cas_payload 0 1; cas_payload 1 2; cas_payload 2 3]%Z [(0, 1); (1, 2)]
            counter_zero
            [Schedule 2; Schedule 0; Schedule 1; Start 0; Finish 0; Start 1; Finish 1;
             Start 2; Finish 2]
            _ 0 2 _ [Finish 2]).
  - vm_compute. reflexivity.
  - eapply tc_l; [| apply tc_once].
    + eexists. split; [reflexivity |]. simpl. apply list_elem_of_here.
    + eexists. split; [reflexivity |]. simpl. apply list_elem_of_here.
  - reflexivity.
Defined.

End SchedulerFacts.

(** ** Grouping a batch of tasks *)

Module GroupingFacts.
Import Scheduler SchedulerFacts.
Local Open Scope nat_scope.
Local Arguments Nat.min : simpl never.






Section Grouping.
Context (task_count num_groups : nat) (Hgroups : 0 < num_groups).

Abbreviation N := task_count.
Abbreviation G := num_groups.














(** *** The order in which the worker runs the chains *)








(** The test's inner loop lists the chain of a group. *)
Lemma expected_group_chain (fuel g c : nat) :
  c `mod` G = g -> expected_group fuel N G g c = chain_ids N G fuel c.
Proof.
  revert c. induction fuel as [| fuel IH]; intros c Hc; [reflexivity |]. simpl.
  destruct (decide (c < N)); [| reflexivity].
  rewrite decide_True by exact Hc. simpl. f_equal. apply IH.
  replace (c + G) with (c + 1 * G) by lia. by rewrite Nat.Div0.mod_add.
Qed.


(** *** Every interleaving of the caller and the worker *)







(** *** The chains are the residue classes *)

Lemma chain_ids_beyond (fuel c : nat) : N <= c -> chain_ids N G fuel c = [].
Proof. intros Hc. destruct fuel; [reflexivity |]. simpl. by rewrite decide_False by lia. Qed.

(** Between [c] and [c + num_groups] no index is congruent to [c]. *)
Lemma mod_between (c d : nat) : 0 < d < G -> (c + d) `mod` G <> c `mod` G.
Proof.
  intros Hd.
  pose proof (Nat.div_mod_eq c G) as Hc.
  pose proof (Nat.mod_upper_bound c G ltac:(lia)) as Hlt.
  set (q := c `div` G) in *. set (r := c `mod` G) in *.
  destruct (decide (r + d < G)) as [Hsmall | Hwrap].
  - rewrite <- (Nat.mod_unique (c + d) G q (r + d)); lia.
  - rewrite <- (Nat.mod_unique (c + d) G (S q) (r + d - G)); [lia | lia |].
    rewrite Nat.mul_succ_r. lia.
Qed.

Lemma filter_none_between (g c n : nat) :
  c `mod` G = g -> n < G ->
  filter (fun k => k `mod` G = g) (seq (S c) n) = [].
Proof.
  intros Hc Hn.
  assert (Forall (fun k => k `mod` G <> g) (seq (S c) n)) as Hall.
  { apply Forall_forall. intros k Hk%elem_of_seq.
    replace k with (c + (k - c)) by lia. rewrite <- Hc. apply mod_between. lia. }
  induction Hall as [| k l Hk _ IH]; [reflexivity |].
  rewrite filter_cons, decide_False by exact Hk. exact IH.
Qed.

Lemma chain_ids_filter (fuel : nat) :
  forall (g c : nat),
    N <= c + fuel -> c `mod` G = g ->
    chain_ids N G fuel c = filter (fun k => k `mod` G = g) (seq c (N - c)).
Proof.
  induction fuel as [| fuel IH]; intros g c Hfuel Hc.
  - replace (N - c) with 0 by lia. reflexivity.
  - simpl. destruct (decide (c < N)) as [HcN | HcN].
    2: { replace (N - c) with 0 by lia. reflexivity. }
    replace (N - c) with (S (N - c - 1)) by lia. cbn [seq].
    rewrite filter_cons, decide_True by exact Hc. f_equal.
    destruct (decide (c + G <= N)) as [Hmore | Hend].
    + replace (N - c - 1) with ((G - 1) + (N - (c + G))) by lia.
      rewrite seq_app, filter_app, (filter_none_between g c) by (assumption || lia).
      replace (S c + (G - 1)) with (c + G) by lia. simpl.
      apply IH; [lia |].
      replace (c + G) with (c + 1 * G) by lia. by rewrite Nat.Div0.mod_add.
    + rewrite chain_ids_beyond by lia.
      by rewrite (filter_none_between g c) by (assumption || lia).
Qed.

(** The expected output lists, group after group, the indices of the
    group's residue class in ascending order. *)
Lemma expected_output_residues :
  expected_output N G
  = flat_map (fun g => filter (fun k => k `mod` G = g) (seq 0 N)) (seq 0 G).
Proof.
  unfold expected_output.
  assert (forall g n, g + n <= G ->
            flat_map (fun group_id => expected_group N N G group_id group_id) (seq g n)
            = flat_map (fun g => filter (fun k => k `mod` G = g) (seq 0 N)) (seq g n))
    as Hsame; [| apply Hsame; lia].
  intros g n. revert g. induction n as [| n IH]; intros g Hn; [reflexivity |].
  simpl. rewrite IH by lia. f_equal.
  assert (g `mod` G = g) as Hg by (apply Nat.mod_small; lia).
  rewrite expected_group_chain by exact Hg.
  rewrite (chain_ids_filter N g g) by (lia || exact Hg).
  assert (forall n, n <= g -> filter (fun k => k `mod` G = g) (seq 0 n) = []) as Hbelow.
  { intros m Hm. induction m as [| m IHm]; [reflexivity |].
    rewrite seq_S, filter_app, IHm by lia. simpl.
    rewrite filter_cons, decide_False; [reflexivity |].
    rewrite Nat.mod_small by lia. lia. }
  destruct (decide (g <= N)) as [Hle | Hgt].
  - assert (seq 0 N = seq 0 g ++ seq g (N - g)) as ->.
    { replace N with (g + (N - g)) at 1 by lia. by rewrite seq_app. }
    by rewrite filter_app, Hbelow by lia.
  - replace (N - g) with 0 by lia. by rewrite Hbelow by lia.
Qed.









End Grouping.



(** The test's batch of fifty tasks in ten groups, when the batch is
    scheduled before the worker takes its first task. *)
Example grouping_test_output :
  (snd <$> schedule_and_wait_for_tasks 10
             (replicate 50 ScheduleNext ++ replicate 50 WorkerRound)
             (initial (grouping_tasks 50) [])) ≫= (fun st => Some (memory st))
  = Some [0; 10; 20; 30; 40; 1; 11; 21; 31; 41; 2; 12; 22; 32; 42; 3; 13; 23; 33; 43;
          4; 14; 24; 34; 44; 5; 15; 25; 35; 45; 6; 16; 26; 36; 46; 7; 17; 27; 37; 47;
          8; 18; 28; 38; 48; 9; 19; 29; 39; 49].
Proof. vm_compute. reflexivity. Qed.

(** Without the wait for its successor the worker would go on with task
    1: the moves in which the worker runs task 1 before task 2 is scheduled
    cannot be made. *)
Example worker_waits_for_its_successor :
  schedule_and_wait_for_tasks 2
    [ScheduleNext; WorkerRound; ScheduleNext; WorkerRound]
    (initial (grouping_tasks 4) [])
  = None.
Proof. vm_compute. reflexivity. Qed.

End GroupingFacts.

(** ** One worker and tasks that spawn tasks *)

Module CooperativeFacts.
Import Scheduler Cooperative.
Local Open Scope nat_scope.



Section Facts.
Context {Mem : Type}.
Implicit Types (st : State Mem) (js : list (Job Mem)) (t c : TaskID).














End Facts.



(** The tests: ten tasks with three incrementing jobs each leave the
    counter at 30, and the single subtask sets [task_done]. *)
Example nested_tests :
  (exists st, run 81 (scheduled increment_counter_in_subtasks 0%Z) = Finished st
     /\ memory st = 30%Z)
  /\ (exists st, run 5 (scheduled single_worker_guarantee_progress false) = Finished st
        /\ memory st = true).
Proof. split; eexists; split; vm_compute; reflexivity. Qed.

End CooperativeFacts.

(** ** Frames, pins and the eviction queue *)

Module BufferPoolFacts.
Import BufferPool.
Local Open Scope nat_scope.

Implicit Types (bm : BufferManager) (p : PageID) (f : Frame) (item : EvictionItem).

Lemma table_insert_other (p q : PageID) (T : gset PageID) :
  p <> q -> q ∈ {[p]} ∪ T <-> q ∈ T.
Proof.
  intros Hne. rewrite elem_of_union, elem_of_singleton.
  split; [intros [? | ?]; [congruence | done] | by right].
Qed.

Lemma table_insert_same (p : PageID) (T : gset PageID) : p ∈ {[p]} ∪ T.
Proof. apply elem_of_union. left. by apply elem_of_singleton. Qed.

Lemma table_erase_other (p q : PageID) (T : gset PageID) :
  p <> q -> q ∈ T ∖ {[p]} <-> q ∈ T.
Proof.
  intros Hne. rewrite elem_of_difference, elem_of_singleton.
  split; [by intros [? _] | intros ?; split; [done | congruence]].
Qed.

Lemma table_erase_same (p : PageID) (T : gset PageID) : p ∉ T ∖ {[p]}.
Proof. rewrite elem_of_difference, elem_of_singleton. by intros [_ ?]. Qed.

Lemma can_evict_true item f :
  can_evict item f = true <->
  state f = MARKED_FOR_EVICTION /\ version f = timestamp item.
Proof.
  unfold can_evict. rewrite andb_true_iff, bool_decide_eq_true, Nat.eqb_eq. tauto.
Qed.

Lemma make_resident_spec f f' :
  make_resident f = Some f' ->
  state f' = RESIDENT /\ version f <= version f' /\ pin_count f' = pin_count f
  /\ (state f = MARKED_FOR_EVICTION -> version f' = S (version f))
  /\ (state f <> EVICTED -> has_slot f' = has_slot f)
  /\ (state f = EVICTED -> has_slot f' = true).
Proof.
  unfold make_resident. destruct (state f) eqn:Hs; intros [= <-]; simpl;
    repeat split; try done; try lia.
Qed.

(** A candidate stays behind its frame when the frame's version grows. *)
Lemma candidate_after_update (fs : gmap PageID Frame) p f0 f1 item :
  fs !! p = Some f0 -> version f0 <= version f1 ->
  (exists f, fs !! page_id item = Some f /\ timestamp item <= version f) ->
  exists f, <[p := f1]> fs !! page_id item = Some f /\ timestamp item <= version f.
Proof.
  intros Hp Hle (f & Hf & Hts).
  destruct (decide (p = page_id item)) as [Heq | Hne].
  - exists f1. rewrite <- Heq, lookup_insert_eq. split; [reflexivity |].
    rewrite <- Heq, Hp in Hf. injection Hf as <-. lia.
  - exists f. by rewrite lookup_insert_ne.
Qed.

Lemma pin_safe_empty : pin_safe empty_manager.
Proof.
  split; simpl; try (intros p f Hf; by rewrite lookup_empty in Hf).
  intros item Hin. by apply elem_of_nil in Hin.
Qed.

Lemma new_page_safe p bm bm' :
  pin_safe bm -> new_page p bm = Some bm' -> pin_safe bm'.
Proof.
  intros [Hpin Hset Htab Hslot Hcand]. unfold new_page.
  destruct (frames bm !! p) eqn:Hp; [discriminate |]. intros [= <-].
  split; simpl.
  - intros q f [[<- <-] | [Hne Hq]]%lookup_insert_Some; simpl; [lia | eauto].
  - intros q f [[<- <-] | [Hne Hq]]%lookup_insert_Some; simpl; eauto.
  - intros q f [[<- <-] | [Hne Hq]]%lookup_insert_Some; simpl.
    + split; [discriminate | intros _; apply table_insert_same].
    + rewrite <- (Htab _ _ Hq). by apply table_insert_other.
  - intros q f [[<- <-] | [Hne Hq]]%lookup_insert_Some; simpl; [done | eauto].
  - intros item Hin. destruct (Hcand _ Hin) as (f & Hf & Hle).
    exists f. split; [| exact Hle]. rewrite lookup_insert_ne; [exact Hf |].
    intros Heq. rewrite <- Heq in Hf. congruence.
Qed.

Lemma pin_page_safe p bm bm' :
  pin_safe bm -> pin_page p bm = Some bm' -> pin_safe bm'.
Proof.
  intros [Hpin Hset Htab Hslot Hcand]. unfold pin_page.
  destruct (frames bm !! p) as [f0 |] eqn:Hp; [| discriminate].
  destruct (make_resident f0) as [f1 |] eqn:Hres; [| discriminate].
  destruct (make_resident_spec _ _ Hres) as (Hs1 & Hv1 & Hc1 & _ & Hslot1 & Hslot2).
  intros [= <-]. split; simpl.
  - intros q f [[<- <-] | [Hne Hq]]%lookup_insert_Some; simpl; eauto.
  - intros q f [[<- <-] | [Hne Hq]]%lookup_insert_Some; simpl; eauto.
  - intros q f [[<- <-] | [Hne Hq]]%lookup_insert_Some; simpl.
    + rewrite Hs1. split; [discriminate | intros _; apply table_insert_same].
    + rewrite <- (Htab _ _ Hq). by apply table_insert_other.
  - intros q f [[<- <-] | [Hne Hq]]%lookup_insert_Some; simpl; [| eauto].
    rewrite Hs1. split; [discriminate | intros _].
    destruct (decide (state f0 = EVICTED)) as [He | He]; [auto |].
    rewrite Hslot1 by exact He. by apply (Hslot _ _ Hp).
  - intros item Hin.
    apply (candidate_after_update _ _ f0); [exact Hp | simpl; lia | by apply Hcand].
Qed.

Lemma unpin_page_safe p d bm bm' :
  pin_safe bm -> unpin_page p d bm = Some bm' -> pin_safe bm'.
Proof.
  intros [Hpin Hset Htab Hslot Hcand]. unfold unpin_page.
  destruct (frames bm !! p) as [f0 |] eqn:Hp; [| discriminate].
  destruct (pin_count f0) as [| n] eqn:Hcount; [discriminate |].
  pose proof (Hpin _ _ Hp ltac:(lia)) as Hres.
  destruct (decide (n = 0 /\ state f0 = RESIDENT)) as [[-> _] | Hno]; intros [= <-].
  - split; simpl.
    + intros q f [[<- <-] | [Hne Hq]]%lookup_insert_Some; simpl; [lia | eauto].
    + intros q f [[<- <-] | [Hne Hq]]%lookup_insert_Some; simpl; eauto.
    + intros q f [[<- <-] | [Hne Hq]]%lookup_insert_Some; simpl; [| eauto].
      rewrite (Htab _ _ Hp), Hres. split; intros _; discriminate.
    + intros q f [[<- <-] | [Hne Hq]]%lookup_insert_Some; simpl; [| eauto].
      rewrite (Hslot _ _ Hp), Hres. split; intros _; discriminate.
    + intros item [Hin | ->%list_elem_of_singleton]%elem_of_app.
      * apply (candidate_after_update _ _ f0); [exact Hp | simpl; lia | by apply Hcand].
      * eexists. simpl. rewrite lookup_insert_eq. split; [reflexivity |]. simpl. lia.
  - split; simpl.
    + intros q f [[<- <-] | [Hne Hq]]%lookup_insert_Some; simpl; eauto.
    + intros q f [[<- <-] | [Hne Hq]]%lookup_insert_Some; simpl; eauto.
    + intros q f [[<- <-] | [Hne Hq]]%lookup_insert_Some; simpl; eauto.
    + intros q f [[<- <-] | [Hne Hq]]%lookup_insert_Some; simpl; eauto.
    + intros item Hin.
      apply (candidate_after_update _ _ f0); [exact Hp | simpl; lia | by apply Hcand].
Qed.

(** What popping a candidate does: it confirms the candidate of a frame
    that is marked, unpinned and at the candidate's version, or it changes
    no frame. *)
Lemma evict_cases bm bm' :
  pin_safe bm -> evict bm = Some bm' ->
  exists item rest, eviction_queue bm = item :: rest /\ eviction_queue bm' = rest
    /\ ((exists f, frames bm !! page_id item = Some f
           /\ state f = MARKED_FOR_EVICTION /\ version f = timestamp item
           /\ pin_count f = 0
           /\ frames bm'
              = <[page_id item := with_slot false (with_dirty false (transit EVICTED f))]>
                  (frames bm)
           /\ page_table bm' = page_table bm ∖ {[page_id item]})
        \/ (frames bm' = frames bm /\ page_table bm' = page_table bm
            /\ forall f, frames bm !! page_id item = Some f -> can_evict item f = false)).
Proof.
  intros Hsafe. unfold evict.
  destruct (eviction_queue bm) as [| item rest]; [discriminate |].
  intros Hev. exists item, rest. split; [reflexivity |].
  destruct (frames bm !! page_id item) as [f |] eqn:Hf.
  - destruct (can_evict item f) eqn:Hcan; injection Hev as <-; simpl.
    + split; [reflexivity |]. left. exists f.
      apply can_evict_true in Hcan as [Hs Hv].
      repeat split; try done.
      destruct (pin_count f) as [| n] eqn:Hn; [reflexivity |].
      pose proof (pinned_resident _ Hsafe _ _ Hf ltac:(lia)). congruence.
    + split; [reflexivity |]. right. repeat split. intros f' [= <-]. exact Hcan.
  - injection Hev as <-. simpl. split; [reflexivity |]. right. repeat split.
    intros f'. discriminate.
Qed.

Lemma evict_safe bm bm' : pin_safe bm -> evict bm = Some bm' -> pin_safe bm'.
Proof.
  intros Hsafe Hev.
  destruct (evict_cases _ _ Hsafe Hev) as (item & rest & Hq & Hq' & Hcase).
  destruct Hsafe as [Hpin Hset Htab Hslot Hcand].
  assert (forall it, it ∈ rest -> it ∈ eviction_queue bm) as Hrest.
  { intros it Hit. rewrite Hq. by apply list_elem_of_further. }
  destruct Hcase as [(f0 & Hf0 & Hs0 & Hv0 & Hc0 & Hfr & Htb) | (Hfr & Htb & _)].
  - split; rewrite ?Hfr, ?Htb, ?Hq'.
    + intros q f [[<- <-] | [Hne Hq0]]%lookup_insert_Some; simpl; [lia | eauto].
    + intros q f [[<- <-] | [Hne Hq0]]%lookup_insert_Some; simpl; eauto.
    + intros q f [[<- <-] | [Hne Hq0]]%lookup_insert_Some; simpl.
      * split; [intros Hin; by apply table_erase_same in Hin | done].
      * rewrite <- (Htab _ _ Hq0). by apply table_erase_other.
    + intros q f [[<- <-] | [Hne Hq0]]%lookup_insert_Some; simpl; [| eauto].
      split; [discriminate | done].
    + intros it Hit.
      apply (candidate_after_update _ _ f0); [exact Hf0 | simpl; lia |].
      by apply Hcand, Hrest.
  - split; rewrite ?Hfr, ?Htb, ?Hq'; eauto.
Qed.

Lemma step_safe op bm bm' : pin_safe bm -> step op bm = Some bm' -> pin_safe bm'.
Proof.
  destruct op; simpl; eauto using new_page_safe, pin_page_safe, unpin_page_safe, evict_safe.
Qed.

Lemma run_safe ops bm bm' : pin_safe bm -> run ops bm = Some bm' -> pin_safe bm'.
Proof.
  revert bm. induction ops as [| op ops IH]; intros bm Hsafe Hrun; simpl in Hrun.
  - by injection Hrun as <-.
  - destruct (step op bm) as [bm1 |] eqn:Hstep; [| discriminate].
    eapply IH; [eapply step_safe |]; eassumption.
Qed.

(** Versions only grow, and no frame is ever dropped. *)
Lemma update_versions (fs : gmap PageID Frame) p f0 f1 :
  fs !! p = Some f0 -> version f0 <= version f1 ->
  forall q f, fs !! q = Some f ->
    exists f', <[p := f1]> fs !! q = Some f' /\ version f <= version f'.
Proof.
  intros Hp Hle q f Hq. destruct (decide (p = q)) as [<- | Hne].
  - exists f1. rewrite lookup_insert_eq. split; [reflexivity |].
    rewrite Hp in Hq. injection Hq as <-. exact Hle.
  - exists f. by rewrite lookup_insert_ne.
Qed.

Lemma step_versions op bm bm' :
  step op bm = Some bm' ->
  forall q f, frames bm !! q = Some f ->
    exists f', frames bm' !! q = Some f' /\ version f <= version f'.
Proof.
  destruct op as [p | p | p d |]; simpl.
  - unfold new_page. destruct (frames bm !! p) eqn:Hp; [discriminate |].
    intros [= <-] q f Hq. simpl. exists f. split; [| lia].
    rewrite lookup_insert_ne; [exact Hq |]. intros <-. congruence.
  - unfold pin_page. destruct (frames bm !! p) as [f0 |] eqn:Hp; [| discriminate].
    destruct (make_resident f0) as [f1 |] eqn:Hres; [| discriminate].
    destruct (make_resident_spec _ _ Hres) as (_ & Hv & _).
    intros [= <-]. simpl. by apply (update_versions _ _ f0).
  - unfold unpin_page. destruct (frames bm !! p) as [f0 |] eqn:Hp; [| discriminate].
    destruct (pin_count f0) as [| n]; [discriminate |].
    destruct (decide _); intros [= <-]; simpl;
      apply (update_versions _ _ f0); try done; simpl; lia.
  - unfold evict. destruct (eviction_queue bm) as [| item rest]; [discriminate |].
    destruct (frames bm !! page_id item) as [f0 |] eqn:Hp.
    + destruct (can_evict item f0); intros [= <-]; simpl.
      * apply (update_versions _ _ f0); [exact Hp | simpl; lia].
      * intros q f Hq. exists f. by split.
    + intros [= <-]. simpl. intros q f Hq. exists f. by split.
Qed.

Lemma run_versions ops :
  forall bm bm', run ops bm = Some bm' ->
    forall q f, frames bm !! q = Some f ->
      exists f', frames bm' !! q = Some f' /\ version f <= version f'.
Proof.
  induction ops as [| op ops IH]; intros bm bm' Hrun q f Hq; simpl in Hrun.
  - injection Hrun as <-. exists f. by split.
  - destruct (step op bm) as [bm1 |] eqn:Hstep; [| discriminate].
    destruct (step_versions _ _ _ Hstep _ _ Hq) as (f1 & Hf1 & Hle1).
    destruct (IH _ _ Hrun _ _ Hf1) as (f' & Hf' & Hle').
    exists f'. split; [exact Hf' | lia].
Qed.

(** C5: after any legal sequence of operations, a page with a positive
    pin count is resident, in the page table and has its slot; popping a
    candidate leaves it so; a popped candidate evicts its page only when the
    frame is marked, unpinned and at the candidate's timestamp, and is
    skipped otherwise; and once a marked page has been pinned again, no
    candidate enqueued before the pin can ever evict it. *)
Theorem pinned_pages_are_not_evicted
    (ops : list Operation) (bm : BufferManager)
    (Hrun : run ops empty_manager = Some bm) :
  (forall p f, frames bm !! p = Some f -> 0 < pin_count f ->
      state f = RESIDENT /\ p ∈ page_table bm /\ has_slot f = true)
  /\ (forall bm' p f, evict bm = Some bm' ->
        frames bm !! p = Some f -> 0 < pin_count f ->
        frames bm' !! p = Some f /\ p ∈ page_table bm')
  /\ (forall bm', evict bm = Some bm' ->
        exists item rest, eviction_queue bm = item :: rest
          /\ eviction_queue bm' = rest
          /\ ((exists f f', frames bm !! page_id item = Some f
                 /\ state f = MARKED_FOR_EVICTION /\ version f = timestamp item
                 /\ pin_count f = 0
                 /\ frames bm' !! page_id item = Some f'
                 /\ state f' = EVICTED /\ has_slot f' = false
                 /\ page_id item ∉ page_table bm')
              \/ (frames bm' = frames bm /\ page_table bm' = page_table bm
                  /\ forall f, frames bm !! page_id item = Some f ->
                               can_evict item f = false)))
  /\ (forall item p f bm1 later bm2 f2,
        item ∈ eviction_queue bm -> page_id item = p ->
        frames bm !! p = Some f -> state f = MARKED_FOR_EVICTION ->
        pin_page p bm = Some bm1 ->
        run later bm1 = Some bm2 ->
        frames bm2 !! p = Some f2 ->
        can_evict item f2 = false).
Proof.
  pose proof (run_safe _ _ _ pin_safe_empty Hrun) as Hsafe.
  split; [| split; [| split]].
  - intros p f Hf Hpin.
    pose proof (pinned_resident _ Hsafe _ _ Hf Hpin) as Hres.
    split; [exact Hres |]. split.
    + apply (table_consistent _ Hsafe _ _ Hf). rewrite Hres. discriminate.
    + apply (slot_consistent _ Hsafe _ _ Hf). rewrite Hres. discriminate.
  - intros bm' p f Hev Hf Hpin.
    pose proof (pinned_resident _ Hsafe _ _ Hf Hpin) as Hres.
    assert (p ∈ page_table bm) as Htab.
    { apply (table_consistent _ Hsafe _ _ Hf). rewrite Hres. discriminate. }
    destruct (evict_cases _ _ Hsafe Hev) as (item & rest & _ & _ & Hcase).
    destruct Hcase as [(f0 & Hf0 & Hs0 & _ & _ & Hfr & Htb) | (Hfr & Htb & _)].
    + assert (page_id item <> p) as Hne.
      { intros Heq. rewrite Heq, Hf in Hf0. injection Hf0 as <-. congruence. }
      rewrite Hfr, Htb. split; [by rewrite lookup_insert_ne |].
      by apply table_erase_other.
    + by rewrite Hfr, Htb.
  - intros bm' Hev.
    destruct (evict_cases _ _ Hsafe Hev) as (item & rest & Hq & Hq' & Hcase).
    exists item, rest. split; [exact Hq | split; [exact Hq' |]].
    destruct Hcase as [(f0 & Hf0 & Hs0 & Hv0 & Hc0 & Hfr & Htb) | Hskip]; [left | by right].
    exists f0. eexists. rewrite Hfr, Htb, lookup_insert_eq.
    repeat split; try done. apply table_erase_same.
  - intros item p f bm1 later bm2 f2 Hin Hitem Hf Hmarked Hpin Hlater Hf2.
    destruct (candidates_not_ahead _ Hsafe _ Hin) as (f' & Hf' & Hts).
    rewrite Hitem, Hf in Hf'. injection Hf' as <-.
    unfold pin_page in Hpin. rewrite Hf in Hpin.
    destruct (make_resident f) as [f1 |] eqn:Hres; [| discriminate].
    destruct (make_resident_spec _ _ Hres) as (_ & _ & _ & Hbump & _).
    injection Hpin as <-.
    destruct (run_versions _ _ _ Hlater p (with_pin_count (S (pin_count f1)) f1))
      as (f2' & Hf2' & Hle); [simpl; apply lookup_insert_eq |].
    rewrite Hf2 in Hf2'. injection Hf2' as <-. simpl in Hle.
    rewrite (Hbump Hmarked) in Hle.
    destruct (can_evict item f2) eqn:Hcan; [| reflexivity].
    apply can_evict_true in Hcan as [_ Hv]. lia.
Qed.

Lemma pinned_pages_are_not_evicted_witness :
  exists bm,
    run [NewPage (PageID_make KiB4 7 true); Pin (PageID_make KiB4 7 true);
         Unpin (PageID_make KiB4 7 true) true; Pin (PageID_make KiB4 7 true); Evict]
        empty_manager = Some bm
    /\ forall p f, frames bm !! p = Some f -> 0 < pin_count f ->
         state f = RESIDENT /\ p ∈ page_table bm /\ has_slot f = true.
Proof.
  eexists. split; [reflexivity |].
  apply (pinned_pages_are_not_evicted
           [NewPage (PageID_make KiB4 7 true); Pin (PageID_make KiB4 7 true);
            Unpin (PageID_make KiB4 7 true) true; Pin (PageID_make KiB4 7 true); Evict]).
  reflexivity.
Defined.


(** A page is pinned again after it was marked: the first candidate is
    stale and skipped, the candidate of the second marking evicts the page
    and writes it back. *)
Example stale_candidate_is_skipped :
  let p := PageID_make KiB4 7 true in
  let marked_twice := [NewPage p; Pin p; Unpin p true; Pin p; Unpin p false] in
  (exists bm, run (marked_twice ++ [Evict]) empty_manager = Some bm
     /\ frames bm !! p
        = Some {| state := MARKED_FOR_EVICTION; version := 3; pin_count := 0;
                  dirty := true; has_slot := true |}
     /\ eviction_queue bm = [{| page_id := p; timestamp := 3 |}]
     /\ written bm = [])
  /\ (exists bm, run (marked_twice ++ [Evict; Evict]) empty_manager = Some bm
        /\ frames bm !! p
           = Some {| state := EVICTED; version := 4; pin_count := 0;
                     dirty := false; has_slot := false |}
        /\ eviction_queue bm = []
        /\ written bm = [p])
  /\ run [NewPage p; Unpin p false] empty_manager = None.
Proof. repeat split; eexists; repeat split; vm_compute; reflexivity. Qed.

End BufferPoolFacts.

(** ** helper.hpp: page ids, constants and the backoff *)

Module HelperExtFacts.
Import HelperExt.

Lemma size_type_bits : PAGE_SIZE_TYPE_BITS = 4 /\ INDEX_BITS = 59.
Proof. split; reflexivity. Qed.

(** X1: a page id built from a size class, an index below [2 ^ 59] and
    a validity flag gives all three back, and its size in bytes is that of
    the class: the four bits of the size field hold every class, and the
    index field cuts nothing off. *)
Theorem page_id_fields_round_trip (k : PageSizeType) (idx : Z) (v : bool)
    (Hidx : 0 <= idx < 2 ^ INDEX_BITS) :
  size_type (PageID_make k idx v) = Some k
  /\ index (PageID_make k idx v) = idx
  /\ valid (PageID_make k idx v) = v
  /\ num_bytes (PageID_make k idx v) = Some (bytes_for_size_type k).
Proof.
  assert (size_type (PageID_make k idx v) = Some k) as Hsize by (by destruct k).
  split; [exact Hsize |]. split; [| split; [reflexivity |]].
  - unfold PageID_make; simpl. by apply Z.mod_small.
  - unfold num_bytes. by rewrite Hsize.
Qed.

Lemma page_id_fields_round_trip_witness :
  size_type (PageID_make KiB64 77 true) = Some KiB64
  /\ index (PageID_make KiB64 77 true) = 77
  /\ valid (PageID_make KiB64 77 true) = true
  /\ num_bytes (PageID_make KiB64 77 true) = Some 65536.
Proof. apply (page_id_fields_round_trip KiB64 77 true). by vm_compute. Defined.

(** X2: two page ids (with indexes below [2 ^ 59]) are equal exactly when
    their size class, index and validity flag are; so the only page id equal
    to [INVALID_PAGE_ID] is the one of the smallest class with index 0 and
    the flag off, and no page id with the flag on is equal to it. *)
Theorem page_id_equal_iff_fields (k k' : PageSizeType) (idx idx' : Z) (v v' : bool)
    (Hidx : 0 <= idx < 2 ^ INDEX_BITS) (Hidx' : 0 <= idx' < 2 ^ INDEX_BITS) :
  (PageID_eqb (PageID_make k idx v) (PageID_make k' idx' v') = true
   <-> k = k' /\ idx = idx' /\ v = v')
  /\ (PageID_eqb (PageID_make k idx v) INVALID_PAGE_ID = true
      <-> k = MIN_PAGE_SIZE_TYPE /\ idx = 0 /\ v = false)
  /\ PageID_eqb (PageID_make k idx true) INVALID_PAGE_ID = false.
Proof.
  assert (forall k1 k2 i1 i2 v1 v2,
             0 <= i1 < 2 ^ INDEX_BITS -> 0 <= i2 < 2 ^ INDEX_BITS ->
             PageID_eqb (PageID_make k1 i1 v1) (PageID_make k2 i2 v2) = true
             <-> k1 = k2 /\ i1 = i2 /\ v1 = v2) as Heq.
  { intros k1 k2 i1 i2 v1 v2 H1 H2. unfold PageID_eqb.
    rewrite bool_decide_eq_true. split.
    - unfold PageID_make. intros [= Hv Hk Hi].
      rewrite !Z.mod_small in Hi by assumption.
      split; [| by split]. by destruct k1, k2.
    - by intros (-> & -> & ->). }
  split; [by apply Heq |]. split.
  - apply (Heq k MIN_PAGE_SIZE_TYPE idx 0 v false Hidx). by vm_compute.
  - apply not_true_is_false. intros Htrue.
    apply (Heq k MIN_PAGE_SIZE_TYPE idx 0 true false Hidx) in Htrue; [| by vm_compute].
    by destruct Htrue as (_ & _ & ?).
Qed.

Lemma page_id_equal_iff_fields_witness :
  PageID_eqb (PageID_make KiB8 0 false) INVALID_PAGE_ID = false
  /\ PageID_eqb (PageID_make KiB4 0 false) INVALID_PAGE_ID = true.
Proof.
  pose proof (page_id_equal_iff_fields KiB8 KiB4 0 0 false false
                ltac:(by vm_compute) ltac:(by vm_compute)) as (_ & H8 & _).
  pose proof (page_id_equal_iff_fields KiB4 KiB4 0 0 false false
                ltac:(by vm_compute) ltac:(by vm_compute)) as (_ & H4 & _).
  split.
  - apply not_true_is_false. intros Htrue. apply H8 in Htrue as (? & _). discriminate.
  - apply H4. by repeat split.
Defined.

(** X3: the page sizes are [OS_PAGE_SIZE] times a power of two, each
    class twice the class before it, so a larger class is a larger page;
    every size is a multiple of [PAGE_ALIGNMENT] and of every smaller page
    size. *)
Theorem page_sizes_double (k k' : PageSizeType) :
  bytes_for_size_type k = OS_PAGE_SIZE * 2 ^ enum_integer k
  /\ (enum_integer k' = enum_integer k + 1 ->
      bytes_for_size_type k' = 2 * bytes_for_size_type k)
  /\ (enum_integer k < enum_integer k' <-> bytes_for_size_type k < bytes_for_size_type k')
  /\ bytes_for_size_type k `mod` PAGE_ALIGNMENT = 0
  /\ (enum_integer k <= enum_integer k' ->
      bytes_for_size_type k' `mod` bytes_for_size_type k = 0).
Proof.
  split; [by destruct k |]. split; [by destruct k, k' |].
  split; [by destruct k, k' |]. split; [by destruct k |].
  destruct k, k'; vm_compute; congruence.
Qed.

(** X4: asked for exactly the size of a class,
    [find_fitting_page_size_type] answers that class; asked for one byte
    more, it answers the next class, and fails beyond the largest. *)
Theorem find_fitting_page_size_type_round_trip (k : PageSizeType) :
  find_fitting_page_size_type (bytes_for_size_type k) = inr k
  /\ match enum_value (enum_integer k + 1) with
     | Some k' => find_fitting_page_size_type (bytes_for_size_type k + 1) = inr k'
     | None => find_fitting_page_size_type (bytes_for_size_type k + 1)
               = inl (CannotFit (bytes_for_size_type k + 1))
     end.
Proof. by destruct k. Qed.

(** What [find_fitting_page_size_type] answers fits and is the smallest
    class that does. *)
Lemma fitting_class_is_smallest (n : Z) (k : PageSizeType) :
  find_fitting_page_size_type n = inr k ->
  n <= bytes_for_size_type k
  /\ forall k', n <= bytes_for_size_type k' -> enum_integer k <= enum_integer k'.
Proof.
  unfold find_fitting_page_size_type. intros Hfind.
  destruct (first_fit_smallest bytes_for_size_type enum_integer enum_values n
              MAX_PAGE_SIZE_TYPE HelperFacts.enum_values_complete
              HelperFacts.enum_values_ordered HelperFacts.bytes_for_size_type_max)
    as [Hfits Hfails].
  destruct (Z.le_gt_cases n (bytes_for_size_type MAX_PAGE_SIZE_TYPE)) as [Hle | Hgt].
  - destruct (Hfits Hle) as (k0 & Hk0 & Hfit & Hmin).
    rewrite Hk0 in Hfind. injection Hfind as <-. by split.
  - rewrite (Hfails Hgt) in Hfind. discriminate.
Qed.

Lemma fitting_class_exists (n : Z) (k' : PageSizeType) :
  n <= bytes_for_size_type k' -> exists k, find_fitting_page_size_type n = inr k.
Proof.
  intros Hk'. unfold find_fitting_page_size_type.
  destruct (first_fit_smallest bytes_for_size_type enum_integer enum_values n
              MAX_PAGE_SIZE_TYPE HelperFacts.enum_values_complete
              HelperFacts.enum_values_ordered HelperFacts.bytes_for_size_type_max)
    as [Hfits _].
  destruct Hfits as (k & -> & _).
  - pose proof (HelperFacts.bytes_for_size_type_max k'). lia.
  - by exists k.
Qed.

(** X5: a smaller request never gets a larger page: when a request of
    [m] bytes fits class [km], every request of at most [m] bytes fits too,
    in a class that is not above [km]. *)
Theorem find_fitting_page_size_type_monotone (n m : Z) (km : PageSizeType)
    (Hle : n <= m) (Hm : find_fitting_page_size_type m = inr km) :
  exists kn, find_fitting_page_size_type n = inr kn
    /\ enum_integer kn <= enum_integer km
    /\ bytes_for_size_type kn <= bytes_for_size_type km.
Proof.
  destruct (fitting_class_is_smallest m km Hm) as [Hfit _].
  destruct (fitting_class_exists n km ltac:(lia)) as [kn Hn].
  destruct (fitting_class_is_smallest n kn Hn) as [_ Hmin].
  exists kn. split; [exact Hn |].
  assert (enum_integer kn <= enum_integer km) as Hrank by (apply Hmin; lia).
  split; [exact Hrank |].
  destruct (decide (enum_integer kn = enum_integer km)) as [Heq | Hne].
  - assert (kn = km) as -> by (by destruct kn, km). lia.
  - pose proof (page_sizes_double kn km) as (_ & _ & Hlt & _).
    assert (bytes_for_size_type kn < bytes_for_size_type km) by (apply Hlt; lia). lia.
Qed.

Lemma find_fitting_page_size_type_monotone_witness :
  exists kn, find_fitting_page_size_type 100 = inr kn
    /\ enum_integer kn <= enum_integer KiB16
    /\ bytes_for_size_type kn <= bytes_for_size_type KiB16.
Proof.
  apply (find_fitting_page_size_type_monotone 100 10000 KiB16); [lia | reflexivity].
Defined.

(** X6: the page that is chosen is less than twice as large as the
    request, unless the request is at most one OS page, which gets the
    smallest class: above one OS page, less than half of a page is unused. *)
Theorem find_fitting_page_size_type_waste (n : Z) (k : PageSizeType)
    (Hfind : find_fitting_page_size_type n = inr k) :
  (n <= OS_PAGE_SIZE -> k = MIN_PAGE_SIZE_TYPE)
  /\ (OS_PAGE_SIZE < n -> bytes_for_size_type k < 2 * n).
Proof.
  destruct (fitting_class_is_smallest n k Hfind) as [Hfit Hmin].
  split.
  - intros Hsmall. specialize (Hmin MIN_PAGE_SIZE_TYPE Hsmall). by destruct k.
  - intros Hlarge.
    destruct (enum_value (enum_integer k - 1)) as [k' |] eqn:Hprev.
    + assert (enum_integer k = enum_integer k' + 1) as Hnext
        by (destruct k; vm_compute in Hprev; simplify_eq; reflexivity).
      pose proof (page_sizes_double k' k) as (_ & Hdouble & _).
      specialize (Hdouble Hnext).
      destruct (Z.le_gt_cases n (bytes_for_size_type k')) as [Hfits' | Hnot]; [| lia].
      specialize (Hmin k' Hfits'). lia.
    + assert (k = MIN_PAGE_SIZE_TYPE) as ->
        by (destruct k; vm_compute in Hprev; first [reflexivity | discriminate]).
      change (bytes_for_size_type MIN_PAGE_SIZE_TYPE) with 4096.
      unfold OS_PAGE_SIZE in Hlarge. lia.
Qed.

Lemma find_fitting_page_size_type_waste_witness :
  (5000 <= OS_PAGE_SIZE -> KiB8 = MIN_PAGE_SIZE_TYPE)
  /\ (OS_PAGE_SIZE < 5000 -> bytes_for_size_type KiB8 < 2 * 5000).
Proof. apply (find_fitting_page_size_type_waste 5000 KiB8). reflexivity. Defined.

(** X7: the backoff of [yield]: it does nothing for the first four
    rounds, fails exactly on the even rounds from the millionth on, sleeps a
    microsecond exactly on the even rounds from 32 up to there, and yields
    the thread on every other round; on an odd round it never sleeps and
    never fails, however late. *)
Theorem yield_backoff (repeat : Z) (Hrepeat : 0 <= repeat < 2 ^ 64) :
  (yield repeat = Nothing <-> repeat < 4)
  /\ (yield repeat = YieldFailure <-> 1000000 <= repeat /\ Z.even repeat = true)
  /\ (yield repeat = SleepFor 1000 <-> 32 <= repeat < 1000000 /\ Z.even repeat = true)
  /\ (4 <= repeat -> Z.odd repeat = true -> yield repeat = ThreadYield).
Proof.
  assert (Z.land repeat 1 = if Z.even repeat then 0 else 1) as Hbit.
  { change 1 with (Z.ones 1) at 1. rewrite Z.land_ones by lia.
    rewrite Z.pow_1_r, Zmod_even. reflexivity. }
  assert (Z.odd repeat = negb (Z.even repeat)) as Hodd by (by rewrite Z.negb_even).
  unfold yield. rewrite Hbit, Hodd.
  destruct (Z.ltb_spec repeat 4), (Z.ltb_spec repeat 32), (Z.ltb_spec repeat 1000000),
    (Z.even repeat); simpl; repeat split; intros; try lia; try discriminate;
    try reflexivity; intuition (try lia; try discriminate).
Qed.

Lemma yield_backoff_witness :
  yield 1000000 = YieldFailure /\ yield 1000001 = ThreadYield
  /\ yield 999998 = SleepFor 1000 /\ yield 3 = Nothing.
Proof.
  split; [| split; [| split]].
  - apply (yield_backoff 1000000); [lia | by split].
  - apply (yield_backoff 1000001); [lia | lia | reflexivity].
  - apply (yield_backoff 999998); [lia | by split].
  - apply (yield_backoff 3); lia.
Defined.

(** X8: the ten regions of [DEFAULT_RESERVED_VIRTUAL_MEMORY_PER_REGION]
    bytes fit into the reserved [DEFAULT_RESERVED_VIRTUAL_MEMORY], and a
    region holds a whole number of pages of every size class; less than one
    largest page per region is given up by the rounding. *)
Theorem regions_hold_whole_pages (k : PageSizeType) :
  DEFAULT_RESERVED_VIRTUAL_MEMORY_PER_REGION `mod` bytes_for_size_type k = 0
  /\ 0 < DEFAULT_RESERVED_VIRTUAL_MEMORY_PER_REGION
  /\ NUM_PAGE_SIZE_TYPES * DEFAULT_RESERVED_VIRTUAL_MEMORY_PER_REGION
     <= DEFAULT_RESERVED_VIRTUAL_MEMORY
  /\ DEFAULT_RESERVED_VIRTUAL_MEMORY
     < NUM_PAGE_SIZE_TYPES
       * (DEFAULT_RESERVED_VIRTUAL_MEMORY_PER_REGION + bytes_for_size_type MAX_PAGE_SIZE_TYPE).
Proof. destruct k; vm_compute; repeat split; congruence. Qed.

End HelperExtFacts.

(** ** buffer_managed_ptr.hpp: copies, assignment, swap and differences *)

Module PtrExtFacts.
Import Ptr PtrExt.

Lemma ptrdiff_wrap_congr (x y : Z) :
  in_ptrdiff y -> x `mod` 2 ^ 64 = y `mod` 2 ^ 64 -> ptrdiff_wrap x = y.
Proof.
  unfold in_ptrdiff, ptrdiff_wrap. intros Hy Hxy.
  assert ((x + 2 ^ 63) `mod` 2 ^ 64 = (y + 2 ^ 63) `mod` 2 ^ 64) as ->.
  { rewrite (Z.add_mod x), (Z.add_mod y), Hxy by lia. reflexivity. }
  rewrite Z.mod_small; lia.
Qed.

Lemma ptrdiff_wrap_mod (x : Z) : ptrdiff_wrap x `mod` 2 ^ 64 = x `mod` 2 ^ 64.
Proof.
  unfold ptrdiff_wrap.
  rewrite Zminus_mod, Z.mod_mod by lia.
  rewrite <- Zminus_mod. f_equal. lia.
Qed.

Section WithManager.
Context {BufferManager : Type} `{!BufferManagerOps BufferManager}.

(** X9: [swap] does not exchange its arguments: afterwards both
    pointers are what the second one was, and the first one's value is lost; the
    only use of the first pointer is that it is resolved once. *)
Theorem swap_keeps_the_second {T} (pt pt2 : BufferManagedPtr T) (bm : BufferManager) :
  (swap pt pt2 bm).1 = (pt2, pt2)
  /\ (swap pt pt2 bm).2 = (get pt bm).2
  /\ forall raw : Z, operator_assign_raw pt2 raw = pt2.
Proof.
  unfold swap, bind, ret. destruct (get pt bm) as [a bm1]. simpl.
  split; [| by split]. unfold operator_assign, operator_assign_raw.
  by destruct pt2.
Qed.

Lemma ptr_add_add (base o d : Z) : ptr_add (ptr_add base o) d = ptr_add base (o + d).
Proof.
  unfold ptr_add, size_t_wrap. rewrite Zplus_mod_idemp_l. f_equal. lia.
Qed.

Lemma get_operator_plus {T} (p : BufferManagedPtr T) (n : Z) (bm : BufferManager) :
  get_page_id p <> INVALID_PAGE_ID -> in_ptrdiff (get_offset p + n) ->
  get (operator_plus p n) bm = (ptr_add (get p bm).1 n, (get p bm).2).
Proof.
  intros Hvalid Hfit. unfold get.
  rewrite !PtrFacts.get_pointer_valid by exact Hvalid. simpl.
  unfold get_offset, operator_plus. simpl.
  rewrite ptrdiff_wrap_id by exact Hfit. by rewrite ptr_add_add.
Qed.

(** X10: arithmetic commutes with resolution: for a pointer into a page,
    [p + n] and [p - n] resolve to the address of [p] moved by [n] bytes,
    with the same request to the buffer manager; a null pointer stays null
    under [+], [-], [++] and [--] and resolves without any request. *)
Theorem arithmetic_moves_the_address_of {T} (p : BufferManagedPtr T) (n : Z)
    (bm : BufferManager) :
  (get_page_id p <> INVALID_PAGE_ID ->
   (in_ptrdiff (get_offset p + n) ->
    get (operator_plus p n) bm = (ptr_add (get p bm).1 n, (get p bm).2))
   /\ (in_ptrdiff (get_offset p - n) ->
       get (operator_minus p n) bm = (ptr_add (get p bm).1 (- n), (get p bm).2)))
  /\ (get_page_id p = INVALID_PAGE_ID ->
      get (operator_plus p n) bm = (nullptr, bm)
      /\ get (operator_minus p n) bm = (nullptr, bm)
      /\ get (operator_pre_increment p) bm = (nullptr, bm)
      /\ get (operator_pre_decrement p) bm = (nullptr, bm)
      /\ operator_not (operator_plus p n) bm = (true, bm)).
Proof.
  split.
  - intros Hvalid. split; intros Hfit.
    + by apply get_operator_plus.
    + unfold get. rewrite !PtrFacts.get_pointer_valid by exact Hvalid. simpl.
      unfold get_offset, operator_minus. simpl.
      rewrite ptrdiff_wrap_id by exact Hfit. rewrite ptr_add_add. do 2 f_equal.
  - intros Hnull. unfold operator_not, bind, ret, get.
    rewrite !PtrFacts.get_pointer_invalid by exact Hnull. by repeat split.
Qed.

(** X11: pointer arithmetic that stays in the range of [std::ptrdiff_t]
    can be undone and composes: [(p + n) - n], [(p - n) + n] and [--(++p)]
    are [p], [++p] is [p + 1], [(p + n) + m] is [p + (n + m)], and [n + p] is
    [p + n]. *)
Theorem pointer_arithmetic_round_trips {T} (p : BufferManagedPtr T) (n m : Z)
    (Hoffset : in_ptrdiff (get_offset p)) :
  (in_ptrdiff (get_offset p + n) -> operator_minus (operator_plus p n) n = p)
  /\ (in_ptrdiff (get_offset p - n) -> operator_plus (operator_minus p n) n = p)
  /\ (in_ptrdiff (get_offset p + 1) ->
      operator_pre_decrement (operator_pre_increment p) = p)
  /\ operator_pre_increment p = operator_plus p 1
  /\ operator_pre_decrement p = operator_minus p 1
  /\ (in_ptrdiff (get_offset p + n) -> in_ptrdiff (n + m) ->
      in_ptrdiff (get_offset p + n + m) ->
      operator_plus (operator_plus p n) m = operator_plus p (n + m))
  /\ operator_plus_left n p = operator_plus p n.
Proof.
  destruct p as [page_id offset]. unfold get_offset in *. simpl in *.
  unfold operator_minus, operator_plus, operator_pre_increment,
    operator_pre_decrement, operator_plus_left, operator_plus. simpl.
  split; [| split; [| split; [| split; [| split; [| split]]]]];
    try reflexivity.
  - intros Hfit. rewrite (ptrdiff_wrap_id (offset + n)) by exact Hfit.
    f_equal. rewrite Z.add_simpl_r. by apply ptrdiff_wrap_id.
  - intros Hfit. rewrite (ptrdiff_wrap_id (offset - n)) by exact Hfit.
    f_equal. rewrite Z.sub_simpl_r. by apply ptrdiff_wrap_id.
  - intros Hfit. rewrite (ptrdiff_wrap_id (offset + 1)) by exact Hfit.
    f_equal. rewrite Z.add_simpl_r. by apply ptrdiff_wrap_id.
  - intros Hn Hnm Hall. rewrite (ptrdiff_wrap_id (offset + n)) by exact Hn.
    f_equal. by rewrite Z.add_assoc.
Qed.

(** X12: [operator[]] scales the index by the size of an element, where
    [operator+] adds its argument to the byte offset as it is: for a pointer
    into a page, [p[idx]] is at the address of [p] plus
    [idx * sizeof(PointedType)] and [*(p + idx)] at the address of [p] plus
    [idx]; away from index 0 and elements of one byte the two are different
    addresses. *)
Theorem index_scales_but_plus_does_not {T} (sizeof : Z) (p : BufferManagedPtr T)
    (idx : Z) (bm : BufferManager)
    (Hvalid : get_page_id p <> INVALID_PAGE_ID)
    (Hfit : in_ptrdiff (get_offset p + idx)) :
  (operator_index sizeof p idx bm).1 = ptr_add (get p bm).1 (idx * sizeof)
  /\ (get (operator_plus p idx) bm).1 = ptr_add (get p bm).1 idx
  /\ (1 < sizeof -> 0 < idx -> (get p bm).1 + idx * sizeof < 2 ^ 64 ->
      (operator_index sizeof p idx bm).1 <> (get (operator_plus p idx) bm).1).
Proof.
  pose proof (get_operator_plus p idx bm Hvalid Hfit) as Hplus.
  assert ((operator_index sizeof p idx bm).1 = ptr_add (get p bm).1 (idx * sizeof)) as Hindex.
  { unfold operator_index, bind, ret. by destruct (get p bm). }
  split; [exact Hindex |]. split; [by rewrite Hplus |].
  intros Hsize Hidx Hbound. rewrite Hindex, Hplus. simpl.
  assert (0 <= (get p bm).1 < 2 ^ 64) as Haddress.
  { unfold get. rewrite PtrFacts.get_pointer_valid by exact Hvalid. simpl.
    unfold ptr_add, size_t_wrap. apply Z.mod_pos_bound. lia. }
  unfold ptr_add, size_t_wrap. rewrite !Z.mod_small by nia. nia.
Qed.

(** X13: the difference of two pointers counts elements: when the page
    is at the same address for both resolutions and the elements have
    [sizeof] > 0 bytes, [(p + n) - p] for [n] a multiple of [sizeof] is
    [n / sizeof], so [(p + k * sizeof) - p] is [k] and not the [k * sizeof]
    bytes that were added; for [n] that is no multiple of [sizeof] there is
    no result. *)
Theorem difference_counts_elements {T} (sizeof : Z) (p : BufferManagedPtr T) (n : Z)
    (bm : BufferManager)
    (Hsizeof : 0 < sizeof)
    (Hvalid : get_page_id p <> INVALID_PAGE_ID)
    (Hstable : data (get_page (get_page_id p) (get_page (get_page_id p) bm).2).1
               = data (get_page (get_page_id p) bm).1)
    (Hn : in_ptrdiff n)
    (Hfit : in_ptrdiff (get_offset p + n))
    (Hlow : 0 <= data (get_page (get_page_id p) bm).1 + get_offset p)
    (Hhigh : data (get_page (get_page_id p) bm).1 + get_offset p < 2 ^ 64)
    (Hlow' : 0 <= data (get_page (get_page_id p) bm).1 + get_offset p + n)
    (Hhigh' : data (get_page (get_page_id p) bm).1 + get_offset p + n < 2 ^ 64) :
  (forall k, n = k * sizeof ->
     (operator_minus_ptr sizeof (operator_plus p n) p bm).1 = Some k)
  /\ (n mod sizeof <> 0 ->
      (operator_minus_ptr sizeof (operator_plus p n) p bm).1 = None).
Proof.
  assert ((operator_minus_ptr sizeof (operator_plus p n) p bm).1
          = if (0 <? sizeof) && (n mod sizeof =? 0) then Some (n / sizeof) else None)
    as Hdiff.
  { unfold operator_minus_ptr, bind, ret, get.
    rewrite (PtrFacts.get_pointer_valid (operator_plus p n)) by exact Hvalid.
    change (get_page_id (operator_plus p n)) with (get_page_id p).
    rewrite (PtrFacts.get_pointer_valid p) by exact Hvalid. simpl.
    rewrite Hstable. unfold get_offset, operator_plus in *. simpl.
    rewrite (ptrdiff_wrap_id (_offset p + n)) by exact Hfit.
    unfold ptr_add, size_t_wrap.
    rewrite (Z.mod_small (_ + (_offset p + n)) (2 ^ 64)) by lia.
    rewrite (Z.mod_small (_ + _offset p) (2 ^ 64)) by lia.
    replace (data (get_page (get_page_id p) bm).1 + (_offset p + n)
             - (data (get_page (get_page_id p) bm).1 + _offset p)) with n by lia.
    by rewrite ptrdiff_wrap_id. }
  rewrite Hdiff. destruct (Z.ltb_spec 0 sizeof) as [_ | ?]; [| lia]. simpl.
  split.
  - intros k ->. rewrite Z.mod_mul, Z.div_mul by lia. reflexivity.
  - intros Hrest. destruct (Z.eqb_spec (n mod sizeof) 0) as [? | _]; [done | reflexivity].
Qed.

End WithManager.

(** A pointer into page 1, 16 bytes in, on the recording manager. *)
Lemma arithmetic_moves_the_address_of_witness :
  let p : BufferManagedPtr unit := Build (PageID_make KiB4 1 true) 16 in
  get (operator_plus p 8) ([] : RecordingManager)
  = (131096, [PageID_make KiB4 1 true])
  /\ get (operator_plus (from_pointer (PointedType := unit) 0) 8) ([] : RecordingManager)
     = (nullptr, []).
Proof.
  cbv zeta. split.
  - destruct (arithmetic_moves_the_address_of
                (Build (PointedType := unit) (PageID_make KiB4 1 true) 16) 8
                ([] : RecordingManager)) as [Hinside _].
    destruct Hinside as [Hplus _]; [discriminate |].
    apply Hplus. unfold in_ptrdiff. simpl. lia.
  - destruct (arithmetic_moves_the_address_of
                (from_pointer (PointedType := unit) 0) 8 ([] : RecordingManager))
      as [_ Hnull].
    by destruct Hnull as [Hplus _].
Defined.

Lemma pointer_arithmetic_round_trips_witness :
  let p : BufferManagedPtr unit := Build (PageID_make KiB4 1 true) 16 in
  operator_minus (operator_plus p 8) 8 = p.
Proof.
  cbv zeta.
  apply (pointer_arithmetic_round_trips
           (Build (PointedType := unit) (PageID_make KiB4 1 true) 16) 8 0);
    unfold in_ptrdiff; simpl; lia.
Defined.

(** Elements of four bytes: [p[2]] is 8 bytes on, [*(p + 2)] only 2. *)
Lemma index_scales_but_plus_does_not_witness :
  let p : BufferManagedPtr unit := Build (PageID_make KiB4 1 true) 16 in
  (operator_index 4 p 2 ([] : RecordingManager)).1 = 131096
  /\ (get (operator_plus p 2) ([] : RecordingManager)).1 = 131090.
Proof.
  cbv zeta.
  destruct (index_scales_but_plus_does_not 4
              (Build (PointedType := unit) (PageID_make KiB4 1 true) 16) 2
              ([] : RecordingManager)) as (Hindex & Hplus & _).
  - discriminate.
  - unfold in_ptrdiff. simpl. lia.
  - split; [exact Hindex | exact Hplus].
Defined.

(** Elements of four bytes: [(p + 8) - p] is 2; elements of twelve
    bytes: [(p + 10) - p] has no result. *)
Lemma difference_counts_elements_witness :
  let p : BufferManagedPtr unit := Build (PageID_make KiB4 1 true) 16 in
  (operator_minus_ptr 4 (operator_plus p 8) p ([] : RecordingManager)).1 = Some 2
  /\ (operator_minus_ptr 12 (operator_plus p 10) p ([] : RecordingManager)).1 = None.
Proof.
  cbv zeta. split.
  - apply (difference_counts_elements 4
             (Build (PointedType := unit) (PageID_make KiB4 1 true) 16) 8
             ([] : RecordingManager));
      first [discriminate | reflexivity | (unfold in_ptrdiff; simpl; lia) | (simpl; lia)].
  - apply (difference_counts_elements 12
             (Build (PointedType := unit) (PageID_make KiB4 1 true) 16) 10
             ([] : RecordingManager));
      first [discriminate | reflexivity | (unfold in_ptrdiff; simpl; lia) | (simpl; lia)].
Defined.

End PtrExtFacts.

(** ** utils/column_id_before_pruning.cpp *)

Module ColumnPruningFacts.
Import ColumnPruning.

Lemma ColumnID_wrap_id (z : Z) : 0 <= z < 2 ^ 16 -> ColumnID_wrap z = z.
Proof. intros Hz. unfold ColumnID_wrap. by apply Z.mod_small. Qed.

Lemma is_sorted_strictly (ids : list Z) : StronglySorted Z.lt ids -> is_sorted ids = true.
Proof.
  induction 1 as [| x rest Hrest IH Hall]; [reflexivity |].
  destruct rest as [| y rest']; [reflexivity |].
  change (is_sorted (x :: y :: rest')) with (negb (y <? x) && is_sorted (y :: rest')).
  rewrite IH, andb_true_r.
  apply negb_true_iff, Z.ltb_ge. apply Forall_cons in Hall as [Hxy _]. lia.
Qed.

Lemma pruned_below_none (c : Z) (ids : list Z) :
  Forall (fun q => c <= q) ids -> pruned_below c ids = [].
Proof.
  induction 1 as [| q ids Hq _ IH]; [reflexivity |].
  unfold pruned_below in *. rewrite filter_cons_False by lia. exact IH.
Qed.

Lemma before_pruning_loop_bounds (ids : list Z) :
  forall c, 0 <= c -> c + Z.of_nat (length ids) < 2 ^ 16 ->
    c <= before_pruning_loop c ids <= c + Z.of_nat (length ids).
Proof.
  induction ids as [| p rest IH]; intros c Hc Hfit; simpl in *; [lia |].
  destruct (Z.ltb_spec c p); [lia |].
  rewrite ColumnID_wrap_id by lia.
  specialize (IH (c + 1) ltac:(lia) ltac:(lia)). lia.
Qed.

(** The loop stops at a column that is not pruned and has passed exactly
    the pruned columns below it. *)
Lemma before_pruning_loop_spec (ids : list Z) :
  StronglySorted Z.lt ids ->
  forall c, 0 <= c -> c + Z.of_nat (length ids) < 2 ^ 16 ->
    (before_pruning_loop c ids ∉ ids)
    /\ before_pruning_loop c ids
       = c + Z.of_nat (length (pruned_below (before_pruning_loop c ids) ids)).
Proof.
  induction 1 as [| p rest Hrest IH Hall]; intros c Hc Hfit; simpl in *.
  - split; [apply not_elem_of_nil | unfold pruned_below; simpl; lia].
  - destruct (Z.ltb_spec c p) as [Hlt | Hge].
    + split.
      * intros [-> | Hin]%elem_of_cons; [lia |].
        rewrite Forall_forall in Hall. specialize (Hall _ Hin). lia.
      * rewrite pruned_below_none; [simpl; lia |].
        constructor; [lia |]. eapply Forall_impl; [exact Hall |]. simpl. lia.
    + rewrite ColumnID_wrap_id by lia.
      destruct (IH (c + 1) ltac:(lia) ltac:(lia)) as [Hnot Hcount].
      pose proof (before_pruning_loop_bounds rest (c + 1) ltac:(lia) ltac:(lia)) as Hbounds.
      set (r := before_pruning_loop (c + 1) rest) in *.
      split.
      * intros [Heq | Hin]%elem_of_cons; [lia | by apply Hnot].
      * unfold pruned_below in *. rewrite filter_cons_True by lia. simpl length. lia.
Qed.

(** Between [p] and [r] there is room for fewer than [r - p] pruned
    columns. *)
Lemma pruned_below_room (rest : list Z) :
  forall p r, StronglySorted Z.lt (p :: rest) -> p < r ->
    Z.of_nat (length (pruned_below r rest)) <= r - p - 1.
Proof.
  induction rest as [| q rest IH]; intros p r Hsorted Hpr.
  - unfold pruned_below. simpl. lia.
  - apply StronglySorted_inv in Hsorted as [Hrest Hall].
    apply Forall_cons in Hall as [Hpq Hall].
    apply StronglySorted_inv in Hrest as [Hrest' Hq].
    unfold pruned_below in *. destruct (decide (q < r)) as [Hqr | Hqr].
    + rewrite filter_cons_True by exact Hqr. simpl length.
      specialize (IH q r ltac:(by constructor) Hqr). lia.
    + rewrite filter_cons_False by exact Hqr.
      apply (IH p r); [by constructor | exact Hpr].
Qed.

(** Pruning a kept column and going back gives the column. *)
Lemma before_pruning_loop_round_trip (ids : list Z) :
  StronglySorted Z.lt ids -> Forall (fun q => 0 <= q) ids ->
  forall r, r < 2 ^ 16 -> r ∉ ids ->
    before_pruning_loop (r - Z.of_nat (length (pruned_below r ids))) ids = r.
Proof.
  induction 1 as [| p rest Hrest IH Hall]; intros Hpos r Hr Hnot.
  - unfold pruned_below. simpl. lia.
  - apply Forall_cons in Hpos as [Hp Hpos].
    apply not_elem_of_cons in Hnot as [Hne Hnot].
    destruct (decide (r < p)) as [Hlt | Hge].
    + rewrite pruned_below_none.
      * simpl. rewrite Z.sub_0_r. destruct (Z.ltb_spec r p); [reflexivity | lia].
      * constructor; [lia |]. eapply Forall_impl; [exact Hall |]. simpl. lia.
    + assert (p < r) as Hpr by lia.
      pose proof (pruned_below_room rest p r ltac:(by constructor) Hpr) as Hroom.
      unfold pruned_below in *. rewrite filter_cons_True by exact Hpr.
      cbn [length before_pruning_loop].
      set (n := length (filter (fun q => q < r) rest)) in *.
      destruct (Z.ltb_spec (r - Z.of_nat (S n)) p) as [Hstop | Hgo]; [lia |].
      rewrite ColumnID_wrap_id by lia.
      replace (r - Z.of_nat (S n) + 1) with (r - Z.of_nat n) by lia.
      by apply IH.
Qed.

Lemma before_pruning_loop_monotone (ids : list Z) :
  forall c c', 0 <= c -> c < c' -> c' + Z.of_nat (length ids) < 2 ^ 16 ->
    before_pruning_loop c ids < before_pruning_loop c' ids.
Proof.
  induction ids as [| p rest IH]; intros c c' Hc Hlt Hfit; simpl in *; [lia |].
  destruct (Z.ltb_spec c p) as [Hcp | Hcp].
  - destruct (Z.ltb_spec c' p) as [Hcp' | Hcp']; [lia |].
    rewrite ColumnID_wrap_id by lia.
    pose proof (before_pruning_loop_bounds rest (c' + 1) ltac:(lia) ltac:(lia)). lia.
  - destruct (Z.ltb_spec c' p) as [Hcp' | Hcp']; [lia |].
    rewrite !ColumnID_wrap_id by lia. apply IH; lia.
Qed.

(** X14: for a strictly ascending vector of pruned column ids,
    [column_id_before_pruning] answers a column that is not pruned and lies
    above [column_id] by the number of pruned columns below it, in a debug
    build as in a release build; with nothing pruned it answers
    [column_id]. *)
Theorem column_id_before_pruning_skips_pruned (HYRISE_DEBUG : bool) (column_id : Z)
    (pruned_column_ids : list Z)
    (Hsorted : StronglySorted Z.lt pruned_column_ids)
    (Hcolumn : 0 <= column_id)
    (Hfit : column_id + Z.of_nat (length pruned_column_ids) < 2 ^ 16) :
  exists original : Z,
    column_id_before_pruning HYRISE_DEBUG column_id pruned_column_ids = inr original
    /\ (original ∉ pruned_column_ids)
    /\ original = column_id + Z.of_nat (length (pruned_below original pruned_column_ids))
    /\ column_id <= original <= column_id + Z.of_nat (length pruned_column_ids)
    /\ (pruned_column_ids = [] -> original = column_id).
Proof.
  exists (before_pruning_loop column_id pruned_column_ids).
  unfold column_id_before_pruning.
  rewrite (is_sorted_strictly _ Hsorted), andb_false_r.
  destruct (before_pruning_loop_spec _ Hsorted column_id Hcolumn Hfit) as [Hnot Hcount].
  split; [reflexivity |]. split; [exact Hnot |]. split; [exact Hcount |].
  split; [by apply before_pruning_loop_bounds |]. by intros ->.
Qed.

Lemma column_id_before_pruning_skips_pruned_witness :
  exists original : Z,
    column_id_before_pruning true 2 [0; 1; 3; 6] = inr original
    /\ (original ∉ [0; 1; 3; 6])
    /\ original = 2 + Z.of_nat (length (pruned_below original [0; 1; 3; 6]))
    /\ 2 <= original <= 2 + Z.of_nat (length [0; 1; 3; 6])
    /\ ([0; 1; 3; 6] = [] -> original = 2).
Proof.
  apply (column_id_before_pruning_skips_pruned true 2 [0; 1; 3; 6]).
  - repeat (constructor; [| repeat (constructor; try lia)]). constructor.
  - lia.
  - simpl. lia.
Defined.

(** X15: pruning and going back is the identity: for a column that is
    not pruned, its id among the columns that are left (its id less the
    number of pruned columns below it) is mapped back to the column. *)
Theorem column_id_before_pruning_round_trip (HYRISE_DEBUG : bool) (original : Z)
    (pruned_column_ids : list Z)
    (Hsorted : StronglySorted Z.lt pruned_column_ids)
    (Hids : Forall (fun q => 0 <= q) pruned_column_ids)
    (Hcolumn : original < 2 ^ 16)
    (Hkept : original ∉ pruned_column_ids) :
  column_id_before_pruning HYRISE_DEBUG
    (original - Z.of_nat (length (pruned_below original pruned_column_ids)))
    pruned_column_ids
  = inr original.
Proof.
  unfold column_id_before_pruning.
  rewrite (is_sorted_strictly _ Hsorted), andb_false_r.
  f_equal. by apply before_pruning_loop_round_trip.
Qed.

Lemma column_id_before_pruning_round_trip_witness :
  column_id_before_pruning true (5 - 3) [0; 1; 3; 6] = inr 5.
Proof.
  apply (column_id_before_pruning_round_trip true 5 [0; 1; 3; 6]).
  - repeat (constructor; [| repeat (constructor; try lia)]). constructor.
  - repeat (constructor; try lia).
  - lia.
  - set_unfold. lia.
Defined.

(** X16: [column_id_before_pruning] keeps the order of the columns: of
    two column ids the larger one is mapped to the larger original id, so
    two columns are never mapped to one. *)
Theorem column_id_before_pruning_keeps_order (HYRISE_DEBUG : bool) (column_id column_id' : Z)
    (pruned_column_ids : list Z)
    (Hsorted : StronglySorted Z.lt pruned_column_ids)
    (Hcolumn : 0 <= column_id)
    (Hless : column_id < column_id')
    (Hfit : column_id' + Z.of_nat (length pruned_column_ids) < 2 ^ 16) :
  exists original original' : Z,
    column_id_before_pruning HYRISE_DEBUG column_id pruned_column_ids = inr original
    /\ column_id_before_pruning HYRISE_DEBUG column_id' pruned_column_ids = inr original'
    /\ original < original'.
Proof.
  exists (before_pruning_loop column_id pruned_column_ids),
    (before_pruning_loop column_id' pruned_column_ids).
  unfold column_id_before_pruning.
  rewrite (is_sorted_strictly _ Hsorted), andb_false_r.
  split; [reflexivity |]. split; [reflexivity |].
  by apply before_pruning_loop_monotone.
Qed.

Lemma column_id_before_pruning_keeps_order_witness :
  exists original original' : Z,
    column_id_before_pruning false 0 [0; 1; 3; 6] = inr original
    /\ column_id_before_pruning false 1 [0; 1; 3; 6] = inr original'
    /\ original < original'.
Proof.
  apply (column_id_before_pruning_keeps_order false 0 1 [0; 1; 3; 6]).
  - repeat (constructor; [| repeat (constructor; try lia)]). constructor.
  - lia.
  - lia.
  - simpl. lia.
Defined.

End ColumnPruningFacts.

(** ** plugins/dependency_mining/dependency_validator.cpp *)

Module DependencyValidatorFacts.
Import ColumnPruning DependencyValidator.

Lemma ucc_pruned_columns_filter (column_count : Z) (candidate_columns : gset Z) :
  ucc_pruned_columns column_count candidate_columns
  = filter (fun column_id => column_id ∉ candidate_columns) (seqZ 0 column_count).
Proof.
  unfold ucc_pruned_columns.
  assert (forall l acc,
             foldl (fun pruned_columns column_id =>
                      if decide (column_id ∈ candidate_columns) then pruned_columns
                      else pruned_columns ++ [column_id]) acc l
             = acc ++ filter (fun column_id => column_id ∉ candidate_columns) l) as Hloop.
  { induction l as [| x l IH]; intros acc; simpl.
    - by rewrite app_nil_r.
    - rewrite IH, filter_cons.
      destruct (decide (x ∈ candidate_columns)), (decide (x ∉ candidate_columns));
        try done. by rewrite <- app_assoc. }
  by rewrite Hloop.
Qed.

Lemma od_pruned_columns_filter (column_count determinant dependent : Z) :
  od_pruned_columns column_count determinant dependent
  = (filter (fun column_id => column_id <> determinant) (seqZ 0 column_count),
     filter (fun column_id => column_id <> dependent) (seqZ 0 column_count)).
Proof.
  unfold od_pruned_columns.
  assert (forall l acc1 acc2,
             foldl (fun '(determinant_pruned_columns, dependent_pruned_columns) column_id =>
                      (if decide (column_id <> determinant)
                       then determinant_pruned_columns ++ [column_id]
                       else determinant_pruned_columns,
                       if decide (column_id <> dependent)
                       then dependent_pruned_columns ++ [column_id]
                       else dependent_pruned_columns))
                   (acc1, acc2) l
             = (acc1 ++ filter (fun column_id => column_id <> determinant) l,
                acc2 ++ filter (fun column_id => column_id <> dependent) l)) as Hboth.
  { induction l as [| x l IH]; intros acc1 acc2; simpl.
    - by rewrite !app_nil_r.
    - rewrite IH, !filter_cons.
      destruct (decide (x <> determinant)), (decide (x <> dependent));
        by rewrite <- ?app_assoc. }
  by rewrite Hboth.
Qed.

Lemma seqZ_sorted (m : Z) (n : nat) : StronglySorted Z.lt (seqZ m (Z.of_nat n)).
Proof.
  induction n as [| n IH]; [constructor |].
  rewrite seqZ_S. apply StronglySorted_app_2; [| exact IH | repeat constructor].
  intros x y Hx ->%list_elem_of_singleton. apply elem_of_seqZ in Hx. lia.
Qed.

Lemma filter_sorted {A} (R : relation A) (P : A -> Prop) `{!forall x, Decision (P x)}
    (l : list A) :
  StronglySorted R l -> StronglySorted R (filter P l).
Proof.
  induction 1 as [| x l Hl IH Hall]; [constructor |].
  rewrite filter_cons. destruct (decide (P x)); [| exact IH].
  constructor; [exact IH |]. apply Forall_forall. intros y [_ Hy]%list_elem_of_filter.
  rewrite Forall_forall in Hall. by apply Hall.
Qed.

Lemma length_filter_complement {A} (P : A -> Prop) `{!forall x, Decision (P x)}
    (l : list A) :
  (length (filter P l) + length (filter (fun x => ¬ P x) l) = length l)%nat.
Proof. by rewrite <- length_app, filter_app_complement. Qed.

Lemma filter_agree {A} (P Q : A -> Prop) `{!forall x, Decision (P x)}
    `{!forall x, Decision (Q x)} (l : list A) :
  (forall x, x ∈ l -> P x <-> Q x) -> filter P l = filter Q l.
Proof.
  induction l as [| x l IH]; intros Hagree; [reflexivity |].
  rewrite !filter_cons.
  rewrite IH by (intros y Hy; apply Hagree; by right).
  destruct (decide (P x)) as [HP | HP], (decide (Q x)) as [HQ | HQ]; try reflexivity.
  - exfalso. apply HQ, Hagree; [by left | exact HP].
  - exfalso. apply HP, Hagree; [by left | exact HQ].
Qed.

Lemma filter_none {A} (P : A -> Prop) `{!forall x, Decision (P x)} (l : list A) :
  (forall x, x ∈ l -> ¬ P x) -> filter P l = [].
Proof.
  induction l as [| x l IH]; intros Hnone; [reflexivity |].
  rewrite filter_cons_False by (apply Hnone; by left).
  apply IH. intros y Hy. apply Hnone. by right.
Qed.

(** The pruned columns below a column of the table are the columns below
    it that are not kept. *)
Lemma pruned_below_filter (P : Z -> Prop) `{!forall x, Decision (P x)}
    (column_count c : Z) :
  0 <= c <= column_count ->
  pruned_below c (filter P (seqZ 0 column_count)) = filter P (seqZ 0 c).
Proof.
  intros Hc. unfold pruned_below.
  replace column_count with (c + (column_count - c)) by lia.
  rewrite seqZ_app, filter_app, filter_app by lia.
  assert (filter (fun q => q < c) (filter P (seqZ (0 + c) (column_count - c))) = []) as ->.
  { apply ColumnPruningFacts.pruned_below_none, Forall_forall.
    intros q [_ Hq%elem_of_seqZ]%list_elem_of_filter. lia. }
  rewrite app_nil_r, list_filter_filter. apply filter_agree.
  intros q Hq%elem_of_seqZ. split; [by intros [_ ?] | intros ?; split; [lia | done]].
Qed.

Lemma kept_column_maps_back (HYRISE_DEBUG : bool) (kept : Z -> Prop)
    `{!forall x, Decision (kept x)} (column_count c : Z) :
  0 <= c < column_count -> column_count < 2 ^ 16 -> kept c ->
  column_id_before_pruning HYRISE_DEBUG
    (Z.of_nat (length (filter kept (seqZ 0 c))))
    (filter (fun column_id => ¬ kept column_id) (seqZ 0 column_count))
  = inr c.
Proof.
  intros Hc Hcount Hkept.
  set (pruned := filter (fun column_id => ¬ kept column_id) (seqZ 0 column_count)).
  assert (StronglySorted Z.lt pruned) as Hsorted.
  { apply filter_sorted. rewrite <- (Z2Nat.id column_count) by lia. apply seqZ_sorted. }
  unfold column_id_before_pruning.
  rewrite (ColumnPruningFacts.is_sorted_strictly _ Hsorted), andb_false_r. f_equal.
  assert (Z.of_nat (length (filter kept (seqZ 0 c)))
          = c - Z.of_nat (length (pruned_below c pruned))) as ->.
  { unfold pruned. rewrite pruned_below_filter by lia.
    pose proof (length_filter_complement kept (seqZ 0 c)) as Hsum.
    rewrite length_seqZ in Hsum. lia. }
  apply ColumnPruningFacts.before_pruning_loop_round_trip; [exact Hsorted | | lia |].
  - apply Forall_forall. intros q [_ Hq%elem_of_seqZ]%list_elem_of_filter. lia.
  - intros [Hnot _]%list_elem_of_filter. by apply Hnot.
Qed.

(** X17: the pruned column vectors that the validator builds fit
    [column_id_before_pruning]: they are strictly ascending, and the original
    id of a candidate column is found again from its position among the
    candidate columns; where all columns but one are pruned, column 0 of what
    is left is that one. *)
Theorem pruned_columns_map_back (HYRISE_DEBUG : bool) (column_count : Z)
    (candidate_columns : gset Z) (determinant dependent c : Z)
    (Hcount : column_count < 2 ^ 16) :
  StronglySorted Z.lt (ucc_pruned_columns column_count candidate_columns)
  /\ (0 <= c < column_count -> c ∈ candidate_columns ->
      column_id_before_pruning HYRISE_DEBUG
        (Z.of_nat (length (filter (fun x => x ∈ candidate_columns) (seqZ 0 c))))
        (ucc_pruned_columns column_count candidate_columns)
      = inr c)
  /\ (0 <= determinant < column_count ->
      column_id_before_pruning HYRISE_DEBUG 0
        (od_pruned_columns column_count determinant dependent).1
      = inr determinant)
  /\ (0 <= dependent < column_count ->
      column_id_before_pruning HYRISE_DEBUG 0
        (od_pruned_columns column_count determinant dependent).2
      = inr dependent).
Proof.
  assert (forall only, 0 <= only < column_count ->
            column_id_before_pruning HYRISE_DEBUG 0
              (filter (fun column_id => column_id <> only) (seqZ 0 column_count))
            = inr only) as Hone.
  { intros only Honly.
    pose proof (kept_column_maps_back HYRISE_DEBUG (fun x => x = only)
                  column_count only Honly Hcount eq_refl) as Hback.
    assert (filter (fun x => x = only) (seqZ 0 only) = []) as Hnone.
    { apply filter_none. intros q Hq%elem_of_seqZ. lia. }
    rewrite Hnone in Hback. exact Hback. }
  rewrite ucc_pruned_columns_filter, od_pruned_columns_filter. simpl.
  split; [| split; [| split]].
  - destruct (decide (0 <= column_count)) as [Hpos | Hneg].
    + apply filter_sorted. rewrite <- (Z2Nat.id column_count) by lia. apply seqZ_sorted.
    + assert (seqZ 0 column_count = []) as -> by (apply length_zero_iff_nil;
        rewrite length_seqZ; lia). constructor.
  - intros Hc Hin.
    by apply (kept_column_maps_back HYRISE_DEBUG (fun x => x ∈ candidate_columns)).
  - apply Hone.
  - apply Hone.
Qed.

(** A table of five columns with the candidate columns 1 and 3. *)
Lemma pruned_columns_map_back_witness :
  column_id_before_pruning true 1 (ucc_pruned_columns 5 {[1; 3]}) = inr 3
  /\ column_id_before_pruning true 0 (od_pruned_columns 5 2 4).1 = inr 2
  /\ column_id_before_pruning true 0 (od_pruned_columns 5 2 4).2 = inr 4.
Proof.
  destruct (pruned_columns_map_back true 5 {[1; 3]} 2 4 3 ltac:(lia))
    as (_ & Hucc & Hdet & Hdep).
  split; [| split].
  - apply Hucc; [lia | set_solver].
  - apply Hdet. lia.
  - apply Hdep. lia.
Defined.

Section OrderScanFacts.
Context {ColumnDataType : Type} (greater : ColumnDataType -> ColumnDataType -> bool).

Lemma invalid_stays (l : list ColumnDataType) (s : Scan) :
  is_valid s = false -> is_valid (foldl (visit greater) s l) = false.
Proof.
  revert s. induction l as [| v l IH]; intros s Hs; [exact Hs |].
  simpl. apply IH. unfold visit.
  destruct (negb (is_init s)); [exact Hs |]. by destruct (greater (last_value s) v).
Qed.

Lemma scan_chunks_flat (chunks : list (option (list ColumnDataType))) (s : Scan) :
  is_valid (scan_chunks greater s chunks)
  = is_valid (foldl (visit greater) s (concat (omap id chunks))).
Proof.
  revert s. induction chunks as [| chunk chunks IH]; intros s; [reflexivity |].
  simpl. destruct (is_valid s) eqn:Hs; simpl.
  - destruct chunk as [segment |]; simpl.
    + by rewrite IH, foldl_app.
    + apply IH.
  - rewrite Hs. symmetry. by apply invalid_stays.
Qed.

Lemma scan_from (l : list ColumnDataType) (a : ColumnDataType) :
  is_valid (foldl (visit greater)
              {| is_valid := true; is_init := true; last_value := a |} l) = true
  <-> Sorted (fun x y => greater x y = false) (a :: l).
Proof.
  revert a. induction l as [| b l IH]; intros a; simpl.
  - split; [intros _; repeat constructor | done].
  - unfold visit at 2. simpl. destruct (greater a b) eqn:Hab.
    + rewrite invalid_stays by reflexivity. split; [done |].
      intros [_ Hhd%HdRel_inv]%Sorted_inv. simpl in Hhd. congruence.
    + rewrite IH. split.
      * intros Hsorted. constructor; [exact Hsorted | by constructor].
      * by intros [Hsorted _]%Sorted_inv.
Qed.

End OrderScanFacts.

(** X18: the scan of the sorted table accepts the order dependency
    exactly when the values of the dependent column, over the chunks that
    are there, never descend from one row to the next; the value that
    [last_value] starts with plays no part. *)
Theorem order_scan_accepts_ascending {ColumnDataType : Type}
    (greater : ColumnDataType -> ColumnDataType -> bool) (initial : ColumnDataType)
    (chunks : list (option (list ColumnDataType))) :
  dependent_is_ordered greater initial chunks = true
  <-> Sorted (fun a b => greater a b = false) (concat (omap id chunks)).
Proof.
  unfold dependent_is_ordered. rewrite scan_chunks_flat.
  destruct (concat (omap id chunks)) as [| b l]; simpl.
  - split; [intros _; constructor | done].
  - apply (scan_from greater).
Qed.

Section InclusionFacts.
Context {Row : Type} (row_differs : Row -> Row -> bool).

Lemma rows_differ_own_rows (dep_rows det_rows det_rows' : list Row) :
  rows_differ row_differs dep_rows det_rows
  = rows_differ row_differs dep_rows det_rows'.
Proof.
  revert det_rows det_rows'. induction dep_rows as [| r dep_rows IH];
    intros det_rows det_rows'; [reflexivity |].
  simpl. destruct (row_differs r r); [reflexivity | apply IH].
Qed.

Lemma rows_differ_never (dep_rows det_rows : list Row) :
  (forall r, row_differs r r = false) ->
  rows_differ row_differs dep_rows det_rows = false.
Proof.
  intros Hself. revert det_rows. induction dep_rows as [| r dep_rows IH];
    intros det_rows; [reflexivity |].
  simpl. rewrite Hself. apply IH.
Qed.

End InclusionFacts.

(** X19: [_validate_ind] never compares a value of the dependent with a
    value of the determinant: its answer is the same for any other rows of
    the determinant of the same number, and when no row differs from itself,
    it accepts the inclusion exactly when the column types are comparable,
    both queries succeed and the dependent has at most as many distinct
    values as the determinant. *)
Theorem inclusion_is_judged_by_counts {Row : Type} (row_differs : Row -> Row -> bool)
    (det_column_type dep_column_type : DataType)
    (det_status dep_status : SQLPipelineStatus) (det_rows det_rows' dep_rows : list Row) :
  (length det_rows' = length det_rows ->
   _validate_ind row_differs det_column_type dep_column_type
     (det_status, det_rows') (dep_status, dep_rows)
   = _validate_ind row_differs det_column_type dep_column_type
       (det_status, det_rows) (dep_status, dep_rows))
  /\ ((forall r, row_differs r r = false) ->
      ((_validate_ind row_differs det_column_type dep_column_type
          (det_status, det_rows) (dep_status, dep_rows)).1 = true
       <-> comparable_type dep_column_type = comparable_type det_column_type
           /\ det_status = Success /\ dep_status = Success
           /\ (length dep_rows <= length det_rows)%nat)).
Proof.
  unfold _validate_ind. simpl. split.
  - intros ->. by rewrite (rows_differ_own_rows row_differs dep_rows det_rows' det_rows).
  - intros Hself. rewrite (rows_differ_never row_differs dep_rows det_rows Hself).
    destruct (decide (comparable_type dep_column_type <> comparable_type det_column_type))
      as [Htype | Htype]; [split; [done | by intros (? & _)] |].
    apply dec_stable in Htype.
    destruct (decide (det_status <> Success)) as [Hdet | Hdet];
      [split; [done | by intros (_ & ? & _)] |].
    apply dec_stable in Hdet.
    destruct (decide (dep_status <> Success)) as [Hdep | Hdep];
      [split; [done | by intros (_ & _ & ? & _)] |].
    apply dec_stable in Hdep.
    destruct (Nat.ltb_spec (length det_rows) (length dep_rows)) as [Hmore | Hfits]; simpl.
    + split; [done | intros (_ & _ & _ & ?); lia].
    + destruct (length dep_rows =? length det_rows)%nat; simpl; by repeat split.
Qed.

(** The dependent holds 5, the determinant 7: the inclusion is accepted,
    and in both directions. *)
Lemma inclusion_is_judged_by_counts_witness :
  _validate_ind (fun a b : Z => negb (a =? b)) Long Int (Success, [7]) (Success, [5])
  = (true, VALID_bidirectional)
  /\ (_validate_ind (fun a b : Z => negb (a =? b)) Long Int (Success, [7]) (Success, [5])).1
     = true.
Proof.
  split; [reflexivity |].
  destruct (inclusion_is_judged_by_counts (fun a b : Z => negb (a =? b)) Long Int
              Success Success [7] [7] [5]) as [_ Hiff].
  apply Hiff.
  - intros r. by rewrite Z.eqb_refl.
  - repeat split. simpl. lia.
Defined.

End DependencyValidatorFacts.

(** ** storage/index/partial_hash/partial_hash_index_impl.cpp *)

Module PartialHashIndexFacts.
Import PartialHashIndex.

Local Open Scope nat_scope.

Lemma elem_of_concat {A} (ls : list (list A)) (x : A) :
  x ∈ concat ls <-> exists l, l ∈ ls /\ x ∈ l.
Proof.
  induction ls as [| l ls IH]; simpl.
  - split; [by intros ?%elem_of_nil | by intros (l & ?%elem_of_nil & _)].
  - rewrite elem_of_app, IH. split.
    + intros [Hx | (l' & Hl' & Hx)]; [exists l; split; [by left | done] |].
      exists l'. split; [by right | done].
    + intros (l' & [-> | Hl']%elem_of_cons & Hx); [by left | right; by exists l'].
Qed.

(** Lists without repetitions and without a common element, put
    together. *)
Lemma NoDup_concat_disjoint {A} (ls : list (list A)) :
  (forall l, l ∈ ls -> NoDup l) ->
  (forall i j l k x, ls !! i = Some l -> ls !! j = Some k -> x ∈ l -> x ∈ k -> i = j) ->
  NoDup (concat ls).
Proof.
  induction ls as [| l ls IH]; intros Heach Hapart; simpl; [apply NoDup_nil_2 |].
  apply NoDup_app. split; [apply Heach; by left |]. split.
  - intros x Hx (k & Hk & Hxk)%elem_of_concat.
    apply list_elem_of_lookup in Hk as [j Hj].
    by specialize (Hapart 0 (S j) l k x eq_refl Hj Hx Hxk).
  - apply IH.
    + intros k Hk. apply Heach. by right.
    + intros i j l' k x Hi Hj Hx Hxk.
      by specialize (Hapart (S i) (S j) l' k x Hi Hj Hx Hxk) as [= ->].
Qed.

Section Facts.
Context {DataType : Type} `{Countable DataType}.
Context {Chunk : Type}.
Context (get_segment : Chunk -> ColumnID -> list (option DataType)).

Implicit Types index : PartialHashIndexImpl DataType.
Implicit Types present : ChunkID -> ChunkOffset -> option DataType -> Prop.

Lemma holds_ext index present present' :
  (forall c o x, present c o x <-> present' c o x) ->
  holds index present -> holds index present'.
Proof.
  intros Hsame [Hv Hn Hf Hd Hnd]. split; try assumption.
  - intros v c o. by rewrite Hv, Hsame.
  - intros c o. by rewrite Hn, Hsame.
Qed.

Lemma holds_empty : holds (empty_index (DataType := DataType)) (fun _ _ _ => False).
Proof.
  split; simpl.
  - intros v c o. rewrite lookup_empty. simpl. by rewrite elem_of_nil.
  - intros c o. by rewrite elem_of_nil.
  - intros v rows. by rewrite lookup_empty.
  - intros v rows. by rewrite lookup_empty.
  - apply NoDup_nil_2.
Qed.

(** One position more. *)
Lemma index_position_holds index present c o x :
  holds index present ->
  (forall x', ¬ present c o x') ->
  holds (index_position c index (o, x))
        (fun c' o' x' => present c' o' x' \/ (c' = c /\ o' = o /\ x' = x)).
Proof.
  intros [Hv Hn Hf Hd Hnd] Hnew. unfold index_position. simpl.
  destruct x as [value |]; split; simpl.
  - intros v c' o'. destruct (decide (v = value)) as [-> | Hne].
    + rewrite lookup_insert_eq. simpl. rewrite elem_of_app, list_elem_of_singleton, Hv.
      split; (intros [Hold | Hthis]; [by left | right]).
      * by injection Hthis as -> ->.
      * by destruct Hthis as (-> & -> & _).
    + rewrite lookup_insert_ne by done. rewrite Hv.
      split; [by left | intros [Hold | (_ & _ & [= Heq])]; [exact Hold | done]].
  - intros c' o'. rewrite Hn. split; [by left | by intros [Hold | (_ & _ & [=])]].
  - intros v rows. destruct (decide (v = value)) as [-> | Hne].
    + rewrite lookup_insert_eq. intros [= <-]. by destruct (default [] (_map index !! value)).
    + rewrite lookup_insert_ne by done. apply Hf.
  - intros v rows. destruct (decide (v = value)) as [-> | Hne].
    + rewrite lookup_insert_eq. intros [= <-]. apply NoDup_app. split; [| split].
      * destruct (_map index !! value) as [rows |] eqn:Hrows; simpl;
          [by eapply Hd | apply NoDup_nil_2].
      * intros r Hr ->%list_elem_of_singleton. apply Hv in Hr. by eapply Hnew.
      * apply NoDup_singleton.
    + rewrite lookup_insert_ne by done. apply Hd.
  - exact Hnd.
  - intros v c' o'. rewrite Hv. split; [by left | by intros [Hold | (_ & _ & [=])]].
  - intros c' o'. rewrite elem_of_app, list_elem_of_singleton, Hn.
    split; (intros [Hold | Hthis]; [by left | right]).
    + by injection Hthis as -> ->.
    + by destruct Hthis as (-> & -> & _).
  - exact Hf.
  - exact Hd.
  - apply NoDup_app. split; [exact Hnd | split; [| apply NoDup_singleton]].
    intros r Hr ->%list_elem_of_singleton. apply Hn in Hr. by eapply Hnew.
Qed.

Lemma index_position_chunk_ids c index position :
  _indexed_chunk_ids (index_position c index position) = _indexed_chunk_ids index.
Proof. unfold index_position. by destruct (position.2). Qed.

Lemma positions_snoc (segment : list (option DataType)) x :
  positions (segment ++ [x]) = positions segment ++ [(length segment, x)].
Proof. unfold positions. rewrite imap_app. simpl. by rewrite Nat.add_0_r. Qed.

(** A whole segment more. *)
Lemma index_segment_holds (segment : list (option DataType)) index present c :
  holds index present ->
  (forall o x', ¬ present c o x') ->
  holds (foldl (index_position c) index (positions segment))
        (fun c' o x => present c' o x \/ (c' = c /\ segment !! o = Some x))
  /\ _indexed_chunk_ids (foldl (index_position c) index (positions segment))
     = _indexed_chunk_ids index.
Proof.
  intros Hholds Hnew. induction segment as [| x segment IH] using rev_ind.
  - split; [| reflexivity]. simpl. eapply holds_ext; [| exact Hholds].
    intros c' o x. split; [by left | intros [? | [_ Hnone]]; [done |]].
    by rewrite lookup_nil in Hnone.
  - destruct IH as [IH Hids]. rewrite positions_snoc, foldl_snoc.
    split; [| by rewrite index_position_chunk_ids].
    eapply holds_ext; [| apply index_position_holds; [exact IH |]].
    + intros c' o x'. simpl. split.
      * intros [[Hold | [-> Hin]] | (-> & -> & ->)].
        -- by left.
        -- right. split; [done |]. by apply lookup_app_l_Some.
        -- right. split; [done |]. by rewrite list_lookup_middle.
      * intros [Hold | [-> Hin]]; [by left; left |].
        apply lookup_app_Some in Hin as [Hin | [Hge Hin]]; [left; right; by split |].
        right. apply list_lookup_singleton_Some in Hin as [Ho ->].
        split; [done |]. split; [lia | done].
    + intros x' [Hold | [_ Hin]]; [by eapply Hnew |].
      apply lookup_lt_Some in Hin. lia.
Qed.

(** A chunk that is not indexed yet. *)
Lemma insert_chunk_holds (column_id : ColumnID) index
    (indexed : list (ChunkID * Chunk)) (c : ChunkID) (chunk : Chunk) :
  holds index (row_of get_segment column_id indexed) ->
  _indexed_chunk_ids index = list_to_set indexed.*1 ->
  c ∉ indexed.*1 ->
  holds (insert_chunk get_segment column_id index (c, chunk))
        (row_of get_segment column_id (indexed ++ [(c, chunk)]))
  /\ _indexed_chunk_ids (insert_chunk get_segment column_id index (c, chunk))
     = list_to_set (indexed ++ [(c, chunk)]).*1.
Proof.
  intros Hholds Hids Hnew. unfold insert_chunk. simpl.
  rewrite decide_False by (rewrite Hids, elem_of_list_to_set; exact Hnew).
  set (marked := {| _indexed_chunk_ids := {[c]} ∪ _indexed_chunk_ids index;
                    _map := _map index; _null_values := _null_values index |}).
  assert (holds marked (row_of get_segment column_id indexed)) as Hmarked
    by (by destruct Hholds).
  destruct (index_segment_holds (get_segment chunk column_id) marked _ c Hmarked)
    as [Hafter Hids'].
  { intros o x' (chunk' & Hin & _). apply Hnew. apply list_elem_of_fmap.
    by exists (c, chunk'). }
  split.
  - eapply holds_ext; [| exact Hafter]. intros c' o x. unfold row_of. split.
    + intros [(chunk' & Hin & Hx) | [-> Hx]].
      * exists chunk'. split; [| exact Hx]. apply elem_of_app. by left.
      * exists chunk. split; [| exact Hx]. apply elem_of_app. right. by left.
    + intros (chunk' & [Hin | Hin%list_elem_of_singleton]%elem_of_app & Hx).
      * left. by exists chunk'.
      * right. by injection Hin as -> ->.
  - rewrite Hids'. simpl. rewrite Hids, fmap_app, list_to_set_app_L. simpl.
    rewrite (right_id_L ∅ (∪)). apply (comm_L (∪)).
Qed.

(** Chunks with ids of their own. *)
Lemma insert_chunks_hold (column_id : ColumnID) (chunks : list (ChunkID * Chunk)) :
  forall index (indexed : list (ChunkID * Chunk)),
    holds index (row_of get_segment column_id indexed) ->
    _indexed_chunk_ids index = list_to_set indexed.*1 ->
    NoDup (indexed ++ chunks).*1 ->
    holds (foldl (insert_chunk get_segment column_id) index chunks)
          (row_of get_segment column_id (indexed ++ chunks))
    /\ _indexed_chunk_ids (foldl (insert_chunk get_segment column_id) index chunks)
       = list_to_set (indexed ++ chunks).*1.
Proof.
  induction chunks as [| [c chunk] chunks IH]; intros index indexed Hholds Hids Hnodup.
  - rewrite app_nil_r. by split.
  - simpl. rewrite (cons_middle _ indexed chunks), app_assoc in Hnodup |- *.
    assert (c ∉ indexed.*1) as Hnew.
    { rewrite !fmap_app in Hnodup. apply NoDup_app in Hnodup as [Hleft _].
      apply NoDup_app in Hleft as (_ & Hdisjoint & _).
      intros Hin. apply (Hdisjoint c Hin). simpl. by left. }
    destruct (insert_chunk_holds column_id index indexed c chunk Hholds Hids Hnew)
      as [Hholds' Hids'].
    by apply IH.
Qed.

Lemma index_positions_chunk_ids c (l : list (ChunkOffset * option DataType)) index :
  _indexed_chunk_ids (foldl (index_position c) index l) = _indexed_chunk_ids index.
Proof.
  revert index. induction l as [| position l IH]; intros index; [reflexivity |].
  simpl. by rewrite IH, index_position_chunk_ids.
Qed.

Lemma insert_chunk_ids (column_id : ColumnID) index (chunk : ChunkID * Chunk) :
  _indexed_chunk_ids (insert_chunk get_segment column_id index chunk)
  = {[chunk.1]} ∪ _indexed_chunk_ids index.
Proof.
  unfold insert_chunk. destruct (decide (chunk.1 ∈ _indexed_chunk_ids index)) as [Hin | Hnew].
  - apply set_eq. intros c. rewrite elem_of_union, elem_of_singleton.
    split; [by right | intros [-> | ?]; done].
  - by rewrite index_positions_chunk_ids.
Qed.

Lemma insert_chunks_ids (column_id : ColumnID) (chunks : list (ChunkID * Chunk)) index :
  _indexed_chunk_ids (foldl (insert_chunk get_segment column_id) index chunks)
  = _indexed_chunk_ids index ∪ list_to_set chunks.*1.
Proof.
  revert index. induction chunks as [| chunk chunks IH]; intros index; simpl.
  - by rewrite (right_id_L ∅ (∪)).
  - rewrite IH, insert_chunk_ids. rewrite (comm_L (∪) {[chunk.1]}).
    by rewrite (assoc_L (∪)).
Qed.

(** Chunks that are indexed already leave the index as it is. *)
Lemma insert_chunks_known (column_id : ColumnID) (chunks : list (ChunkID * Chunk)) index :
  (forall c, c ∈ chunks.*1 -> c ∈ _indexed_chunk_ids index) ->
  foldl (insert_chunk get_segment column_id) index chunks = index.
Proof.
  induction chunks as [| chunk chunks IH]; intros Hknown; [reflexivity |].
  simpl. unfold insert_chunk at 2.
  rewrite decide_True by (apply Hknown; by left).
  apply IH. intros c Hc. apply Hknown. by right.
Qed.

Lemma index_position_filled c index position :
  (forall v rows, _map index !! v = Some rows -> rows <> []) ->
  forall v rows, _map (index_position c index position) !! v = Some rows -> rows <> [].
Proof.
  intros Hfilled v rows. unfold index_position.
  destruct (position.2) as [value |]; simpl; [| apply Hfilled].
  destruct (decide (v = value)) as [-> | Hne].
  - rewrite lookup_insert_eq. intros [= <-]. by destruct (default [] (_map index !! value)).
  - rewrite lookup_insert_ne by done. apply Hfilled.
Qed.

Lemma insert_chunks_filled (column_id : ColumnID) (chunks : list (ChunkID * Chunk)) index :
  (forall v rows, _map index !! v = Some rows -> rows <> []) ->
  forall v rows,
    _map (foldl (insert_chunk get_segment column_id) index chunks) !! v = Some rows ->
    rows <> [].
Proof.
  revert index. induction chunks as [| chunk chunks IH]; intros index Hfilled;
    [exact Hfilled |].
  simpl. apply IH. unfold insert_chunk.
  destruct (decide (chunk.1 ∈ _indexed_chunk_ids index)); [exact Hfilled |].
  generalize (positions (get_segment chunk.2 column_id)).
  intros l.
  assert (forall index' : PartialHashIndexImpl DataType,
             (forall v rows, _map index' !! v = Some rows -> rows <> []) ->
             forall v rows, _map (foldl (index_position chunk.1) index' l) !! v = Some rows ->
                            rows <> []) as Hloop.
  { induction l as [| position l IHl]; intros index' Hindex'; [exact Hindex' |].
    simpl. apply IHl. by apply index_position_filled. }
  by apply Hloop.
Qed.

(** X20: [insert_entries] answers the number of chunks it indexed, the
    chunks of its argument whose ids were not in the index; afterwards
    the ids of the argument are indexed with those that were, and the same
    call once more indexes nothing and leaves the index as it is. *)
Theorem insert_entries_counts_new_chunks index (chunks_to_index : list (ChunkID * Chunk))
    (column_id : ColumnID) :
  let result := insert_entries get_segment index chunks_to_index column_id in
  result.1 = size (list_to_set chunks_to_index.*1 ∖ _indexed_chunk_ids index)
  /\ get_indexed_chunk_ids result.2
     = _indexed_chunk_ids index ∪ list_to_set chunks_to_index.*1
  /\ insert_entries get_segment result.2 chunks_to_index column_id = (0, result.2).
Proof.
  cbv zeta. unfold insert_entries, get_indexed_chunk_ids. simpl.
  rewrite insert_chunks_ids. split; [| split; [reflexivity |]].
  - rewrite size_union_alt. lia.
  - rewrite insert_chunks_known.
    + by rewrite insert_chunks_ids, Nat.sub_diag.
    + intros c Hc. rewrite insert_chunks_ids, elem_of_union, elem_of_list_to_set.
      by right.
Qed.

Lemma make_index_holds (chunks_to_index : list (ChunkID * Chunk)) (column_id : ColumnID) :
  NoDup chunks_to_index.*1 ->
  holds (make_index get_segment chunks_to_index column_id)
        (row_of get_segment column_id chunks_to_index)
  /\ _indexed_chunk_ids (make_index get_segment chunks_to_index column_id)
     = list_to_set chunks_to_index.*1.
Proof.
  intros Hids. unfold make_index, insert_entries. simpl.
  apply (insert_chunks_hold column_id chunks_to_index empty_index []).
  - eapply holds_ext; [| apply holds_empty].
    intros c o x. split; [done | intros (chunk & Hin & _)]. by apply elem_of_nil in Hin.
  - reflexivity.
  - exact Hids.
Qed.

(** X21: an index made from chunks with ids of their own holds every
    row of the indexed column once: a row with a value is in the vector of
    that value and in no other, a row that is NULL is among the NULLs, and
    no vector of the map is empty. *)
Theorem index_holds_every_row (chunks_to_index : list (ChunkID * Chunk))
    (column_id : ColumnID) (Hids : NoDup chunks_to_index.*1) :
  let index := make_index get_segment chunks_to_index column_id in
  (forall v c o,
      {| chunk_id := c; chunk_offset := o |} ∈ default [] (_map index !! v)
      <-> exists chunk, (c, chunk) ∈ chunks_to_index
            /\ get_segment chunk column_id !! o = Some (Some v))
  /\ (forall c o,
        {| chunk_id := c; chunk_offset := o |} ∈ _null_values index
        <-> exists chunk, (c, chunk) ∈ chunks_to_index
              /\ get_segment chunk column_id !! o = Some None)
  /\ (forall v rows, _map index !! v = Some rows -> rows <> [] /\ NoDup rows)
  /\ NoDup (_null_values index)
  /\ get_indexed_chunk_ids index = list_to_set chunks_to_index.*1.
Proof.
  cbv zeta. unfold get_indexed_chunk_ids.
  destruct (make_index_holds chunks_to_index column_id Hids) as [[Hv Hn Hf Hd Hnd] Hset].
  split; [exact Hv |]. split; [exact Hn |].
  split; [intros v rows Hrows; split; [by eapply Hf | by eapply Hd] |].
  split; [exact Hnd | exact Hset].
Qed.

(** *** Going through the index *)

Lemma hash_iterators_differ (i j e : nat) :
  i <> e -> operator_ne (TbbHashMapIterator i j) (TbbHashMapIterator e 0) = true.
Proof.
  intros Hne. unfold operator_ne. by rewrite (bool_decide_eq_false_2 (i = e)).
Qed.

Lemma hash_iterators_same (e : nat) :
  operator_ne (TbbHashMapIterator e 0) (TbbHashMapIterator e 0) = false.
Proof. unfold operator_ne. by rewrite !bool_decide_eq_true_2. Qed.

(** From inside an entry to the start of the next one. *)
Lemma visit_entry index (i e : nat) (key : DataType) (rows : list RowID) :
  entries index !! i = Some (key, rows) -> i <> e ->
  forall d j fuel, length rows = j + S d -> S d <= fuel ->
    visit_range fuel index (TbbHashMapIterator i j) (TbbHashMapIterator e 0)
    = rest ← visit_range (fuel - S d) index (TbbHashMapIterator (S i) 0)
               (TbbHashMapIterator e 0);
      Some (drop j rows ++ rest).
Proof.
  intros Hentry Hie. induction d as [| d IH]; intros j fuel Hlen Hfuel.
  - destruct fuel as [| fuel]; [lia |]. cbn [visit_range].
    rewrite hash_iterators_differ by exact Hie. cbn [dereference increment].
    rewrite Hentry. cbn [mbind option_bind snd].
    destruct (lookup_lt_is_Some_2 rows j ltac:(lia)) as [r Hr]. rewrite Hr.
    cbn [mbind option_bind].
    rewrite decide_True by lia. cbn [mbind option_bind]. rewrite Nat.sub_succ, Nat.sub_0_r.
    rewrite (drop_S rows r j Hr), drop_ge by lia.
    by destruct (visit_range fuel index _ _).
  - destruct fuel as [| fuel]; [lia |]. cbn [visit_range].
    rewrite hash_iterators_differ by exact Hie. cbn [dereference increment].
    rewrite Hentry. cbn [mbind option_bind snd].
    destruct (lookup_lt_is_Some_2 rows j ltac:(lia)) as [r Hr]. rewrite Hr.
    cbn [mbind option_bind].
    rewrite decide_False by lia. cbn [mbind option_bind].
    rewrite (IH (S j) fuel) by lia.
    rewrite (drop_S rows r j Hr). rewrite Nat.sub_succ.
    by destruct (visit_range (fuel - S d) index _ _).
Qed.

(** From the start of entry [i] to the start of entry [i + n]. *)
Lemma visit_entries index (n : nat) :
  (forall v rows, _map index !! v = Some rows -> rows <> []) ->
  forall i fuel, i + n <= length (entries index) ->
    length (concat (take n (drop i (entries index))).*2) <= fuel ->
    visit_range fuel index (TbbHashMapIterator i 0) (TbbHashMapIterator (i + n) 0)
    = Some (concat (take n (drop i (entries index))).*2).
Proof.
  intros Hfilled. induction n as [| n IH]; intros i fuel Hrange Hfuel.
  - rewrite Nat.add_0_r. destruct fuel; cbn [visit_range]; by rewrite hash_iterators_same.
  - destruct (lookup_lt_is_Some_2 (entries index) i ltac:(lia)) as [[key rows] Hentry].
    assert (rows <> []) as Hrows.
    { apply (Hfilled key). by apply elem_of_map_to_list, list_elem_of_lookup_2 with i. }
    rewrite (drop_S _ _ _ Hentry) in Hfuel |- *.
    cbn [take fmap list_fmap concat snd] in Hfuel |- *.
    rewrite length_app in Hfuel.
    destruct rows as [| r rows]; [done |].
    rewrite (visit_entry index i (i + S n) key (r :: rows) Hentry ltac:(lia)
               (length rows) 0 fuel) by (cbn [length] in *; lia).
    replace (i + S n) with (S i + n) by lia.
    rewrite IH by (cbn [length] in *; lia). reflexivity.
Qed.

Lemma operator_ne_negates (a b : TableIndexIterator) :
  operator_ne a b = negb (operator_eq a b).
Proof.
  destruct a, b; simpl; try reflexivity.
  - by rewrite negb_andb.
Qed.

(** Counting the steps of a range that can be gone through. *)
Lemma distance_of_visited index (fuel : nat) :
  forall it end_ rows,
    visit_range fuel index it end_ = Some rows ->
    distance fuel index it end_ = Some (length rows).
Proof.
  induction fuel as [| fuel IH]; intros it end_ rows; cbn [visit_range distance];
    rewrite operator_ne_negates; destruct (operator_eq it end_); simpl.
  - by intros [= <-].
  - done.
  - by intros [= <-].
  - destruct (dereference index it) as [row |]; [| done]. simpl.
    destruct (increment index it) as [it' |]; [| done]. simpl.
    destruct (visit_range fuel index it' end_) as [rest |] eqn:Hrest; [| done].
    simpl. intros [= <-]. by rewrite (IH _ _ _ Hrest).
Qed.

(** Going through the NULLs. *)
Lemma visit_nulls index :
  forall d i fuel, length (_null_values index) = i + d -> d <= fuel ->
    visit_range fuel index (VectorIterator i) (VectorIterator (length (_null_values index)))
    = Some (drop i (_null_values index)).
Proof.
  induction d as [| d IH]; intros i fuel Hlen Hfuel.
  - rewrite drop_ge by lia.
    assert (operator_ne (VectorIterator i)
              (VectorIterator (length (_null_values index))) = false) as Hsame.
    { unfold operator_ne. rewrite bool_decide_eq_true_2; [done | lia]. }
    destruct fuel; cbn [visit_range]; by rewrite Hsame.
  - destruct fuel as [| fuel]; [lia |]. cbn [visit_range].
    assert (operator_ne (VectorIterator i)
              (VectorIterator (length (_null_values index))) = true) as ->.
    { unfold operator_ne. rewrite bool_decide_eq_false_2; [done | lia]. }
    cbn [dereference increment].
    destruct (lookup_lt_is_Some_2 (_null_values index) i ltac:(lia)) as [r Hr].
    rewrite Hr. cbn [mbind option_bind]. rewrite decide_True by lia.
    cbn [mbind option_bind]. rewrite (IH (S i) fuel) by lia. cbn [mbind option_bind].
    by rewrite (drop_S _ _ _ Hr).
Qed.

Lemma equal_range_present index (v : DataType) (rows : list RowID) :
  _map index !! v = Some rows ->
  exists i, equal_range index v = (i, S i) /\ entries index !! i = Some (v, rows).
Proof.
  intros Hrows. unfold equal_range.
  destruct (list_find (fun entry => entry.1 = v) (entries index))
    as [[i [v' rows']] |] eqn:Hfind.
  - apply list_find_Some in Hfind as (Hentry & Hkey & _). simpl in Hkey. subst v'.
    exists i. split; [reflexivity |].
    assert (_map index !! v = Some rows') as Hrows'
      by (by apply elem_of_map_to_list, list_elem_of_lookup_2 with i).
    rewrite Hrows in Hrows'. by injection Hrows' as ->.
  - apply list_find_None in Hfind. rewrite Forall_forall in Hfind.
    exfalso. apply (Hfind (v, rows)); [| reflexivity].
    by apply elem_of_map_to_list.
Qed.

Lemma equal_range_absent index (v : DataType) :
  _map index !! v = None ->
  equal_range index v = (length (entries index), length (entries index)).
Proof.
  intros Hnone. unfold equal_range.
  destruct (list_find (fun entry => entry.1 = v) (entries index))
    as [[i [v' rows']] |] eqn:Hfind; [| reflexivity].
  apply list_find_Some in Hfind as (Hentry & Hkey & _). simpl in Hkey. subst v'.
  assert (_map index !! v = Some rows') as Hrows'
    by (by apply elem_of_map_to_list, list_elem_of_lookup_2 with i).
  congruence.
Qed.

Lemma make_index_filled (chunks_to_index : list (ChunkID * Chunk)) (column_id : ColumnID) :
  forall v rows,
    _map (make_index get_segment chunks_to_index column_id) !! v = Some rows -> rows <> [].
Proof.
  unfold make_index, insert_entries. simpl. apply insert_chunks_filled.
  intros v rows. simpl. by rewrite lookup_empty.
Qed.

(** A chunk id names one chunk. *)
Lemma chunk_of_id (chunks : list (ChunkID * Chunk)) (c : ChunkID) (chunk chunk' : Chunk) :
  NoDup chunks.*1 -> (c, chunk) ∈ chunks -> (c, chunk') ∈ chunks -> chunk = chunk'.
Proof.
  intros Hids [i Hi]%list_elem_of_lookup [j Hj]%list_elem_of_lookup.
  assert (i = j) as ->.
  { apply (NoDup_lookup chunks.*1 i j c Hids); rewrite list_lookup_fmap.
    - by rewrite Hi.
    - by rewrite Hj. }
  congruence.
Qed.

(** Where [equal_range] cuts the entries of the map. *)
Lemma equal_range_split index (v : DataType) :
  exists i e,
    equal_range index v = (i, e)
    /\ i <= e <= length (entries index)
    /\ concat (take (e - i) (drop i (entries index))).*2 = default [] (_map index !! v)
    /\ forall v' rows',
         (v', rows') ∈ take i (entries index) ++ drop e (entries index)
         <-> _map index !! v' = Some rows' /\ v' <> v.
Proof.
  destruct (_map index !! v) as [rows |] eqn:Hrows.
  - destruct (equal_range_present index v rows Hrows) as (i & Hrange & Hentry).
    pose proof (lookup_lt_Some _ _ _ Hentry) as Hi.
    exists i, (S i). split; [exact Hrange |]. split; [lia |]. split.
    + replace (S i - i) with 1 by lia. rewrite (drop_S _ _ _ Hentry).
      cbn [take fmap list_fmap concat snd default]. by rewrite app_nil_r.
    + intros v' rows'.
      pose proof (NoDup_fst_map_to_list (_map index)) as Hkeys.
      pose proof (take_drop_middle _ _ _ Hentry) as Hsplit.
      fold (entries index) in Hkeys. split.
      * intros Hin. assert ((v', rows') ∈ entries index) as Hall.
        { rewrite <- Hsplit. apply elem_of_app in Hin as [Hin | Hin];
            apply elem_of_app; [by left | right; by right]. }
        split; [by apply elem_of_map_to_list |].
        intros ->. rewrite <- Hsplit in Hkeys.
        rewrite fmap_app, fmap_cons in Hkeys. simpl in Hkeys.
        apply NoDup_app in Hkeys as (_ & Hapart & Hrest).
        apply NoDup_cons in Hrest as [Hnot _].
        apply elem_of_app in Hin as [Hin | Hin].
        -- apply (Hapart v); [| by left]. apply list_elem_of_fmap. by exists (v, rows').
        -- apply Hnot. apply list_elem_of_fmap. by exists (v, rows').
      * intros [Hin%elem_of_map_to_list Hne]. fold (entries index) in Hin.
        rewrite <- Hsplit in Hin.
        apply elem_of_app in Hin as [Hin | [Hin | Hin]%elem_of_cons];
          apply elem_of_app; [by left | | by right].
        by injection Hin as -> _.
  - exists (length (entries index)), (length (entries index)).
    split; [by apply equal_range_absent |]. split; [lia |]. split.
    + by rewrite Nat.sub_diag.
    + intros v' rows'. rewrite drop_all, app_nil_r, firstn_all.
      unfold entries. rewrite elem_of_map_to_list. split.
      * intros Hin. split; [exact Hin | congruence].
      * by intros [Hin _].
Qed.

(** X22: going from [cbegin()] to [cend()] visits every row of the
    indexed chunks that is not NULL, each once, and [std::distance] of the
    two is their number; going from [null_cbegin()] to [null_cend()] visits
    the NULL rows. *)
Theorem iteration_visits_every_row (chunks_to_index : list (ChunkID * Chunk))
    (column_id : ColumnID) (Hids : NoDup chunks_to_index.*1) :
  let index := make_index get_segment chunks_to_index column_id in
  exists rows : list RowID,
    visit_range (length rows) index (cbegin index) (cend index) = Some rows
    /\ distance (length rows) index (cbegin index) (cend index) = Some (length rows)
    /\ NoDup rows
    /\ (forall c o,
          {| chunk_id := c; chunk_offset := o |} ∈ rows
          <-> exists chunk v, (c, chunk) ∈ chunks_to_index
                /\ get_segment chunk column_id !! o = Some (Some v))
    /\ visit_range (length (_null_values index)) index (null_cbegin index) (null_cend index)
       = Some (_null_values index).
Proof.
  cbv zeta. set (index := make_index get_segment chunks_to_index column_id).
  destruct (make_index_holds chunks_to_index column_id Hids) as [[Hv Hn Hf Hd Hnd] _].
  fold index in Hv, Hn, Hf, Hd, Hnd.
  exists (concat (entries index).*2).
  assert (visit_range (length (concat (entries index).*2)) index (cbegin index) (cend index)
          = Some (concat (entries index).*2)) as Hvisit.
  { unfold cbegin, cend, hash_map_iterator.
    pose proof (visit_entries index (length (entries index)) Hf 0
                  (length (concat (entries index).*2))) as Hall.
    rewrite drop_0, firstn_all in Hall. apply Hall; simpl; lia. }
  split; [exact Hvisit |]. split; [by apply distance_of_visited |].
  assert (forall l, l ∈ (entries index).*2 -> exists v, _map index !! v = Some l) as Hvector.
  { intros l ([v l'] & -> & Hin)%list_elem_of_fmap. exists v. by apply elem_of_map_to_list. }
  split; [| split].
  - apply NoDup_concat_disjoint.
    + intros l [v Hl]%Hvector. by eapply Hd.
    + intros i j l k [c o] Hi Hj Hl Hk.
      rewrite list_lookup_fmap in Hi, Hj.
      destruct (entries index !! i) as [[v l'] |] eqn:Hentry; [| done].
      destruct (entries index !! j) as [[v' k'] |] eqn:Hentry'; [| done].
      simpl in Hi, Hj. injection Hi as ->. injection Hj as ->.
      assert (_map index !! v = Some l) as Hmap
        by (by apply elem_of_map_to_list, list_elem_of_lookup_2 with i).
      assert (_map index !! v' = Some k) as Hmap'
        by (by apply elem_of_map_to_list, list_elem_of_lookup_2 with j).
      assert (v = v') as <-.
      { pose proof (proj1 (Hv v c o)) as Hrow. rewrite Hmap in Hrow.
        pose proof (proj1 (Hv v' c o)) as Hrow'. rewrite Hmap' in Hrow'.
        destruct (Hrow Hl) as (chunk & Hin & Hvalue).
        destruct (Hrow' Hk) as (chunk' & Hin' & Hvalue').
        rewrite (chunk_of_id _ _ _ _ Hids Hin Hin') in Hvalue. congruence. }
      apply (NoDup_lookup (entries index).*1 i j v).
      * apply NoDup_fst_map_to_list.
      * by rewrite list_lookup_fmap, Hentry.
      * by rewrite list_lookup_fmap, Hentry'.
  - intros c o. rewrite elem_of_concat. split.
    + intros (l & [v Hl]%Hvector & Hrow).
      pose proof (proj1 (Hv v c o)) as Hpresent. rewrite Hl in Hpresent.
      destruct (Hpresent Hrow) as (chunk & Hin & Hvalue). by exists chunk, v.
    + intros (chunk & v & Hin & Hvalue).
      assert ({| chunk_id := c; chunk_offset := o |} ∈ default [] (_map index !! v)) as Hrow
        by (apply Hv; by exists chunk).
      destruct (_map index !! v) as [l |] eqn:Hl; [| by apply elem_of_nil in Hrow].
      exists l. split; [| exact Hrow].
      apply list_elem_of_fmap. exists (v, l). split; [done |]. by apply elem_of_map_to_list.
  - unfold null_cbegin, null_cend.
    rewrite (visit_nulls index (length (_null_values index)) 0) by lia.
    by rewrite drop_0.
Qed.

(** X23: the range of [range_equals] for a value is the vector of that
    value, the empty range at [cend()] when the map has no such key; the two
    ranges of [range_not_equals] are the rows under the other values. *)
Theorem range_equals_visits_the_vector (chunks_to_index : list (ChunkID * Chunk))
    (column_id : ColumnID) (value : DataType) :
  let index := make_index get_segment chunks_to_index column_id in
  let rows := default [] (_map index !! value) in
  let range := range_equals index value in
  let others := range_not_equals index value in
  visit_range (length rows) index range.1 range.2 = Some rows
  /\ (_map index !! value = None -> range = (cend index, cend index))
  /\ exists before after : list RowID,
       visit_range (length before) index others.1.1 others.1.2 = Some before
       /\ visit_range (length after) index others.2.1 others.2.2 = Some after
       /\ forall r, r ∈ before ++ after
            <-> exists value', value' <> value /\ r ∈ default [] (_map index !! value').
Proof.
  cbv zeta. set (index := make_index get_segment chunks_to_index column_id).
  pose proof (make_index_filled chunks_to_index column_id) as Hf. fold index in Hf.
  destruct (equal_range_split index value) as (i & e & Hrange & Hie & Hmid & Hothers).
  unfold range_not_equals, range_equals, cbegin, cend, hash_map_iterator.
  rewrite Hrange. simpl. split; [| split].
  - rewrite <- Hmid.
    pose proof (visit_entries index (e - i) Hf i
                  (length (concat (take (e - i) (drop i (entries index))).*2))) as Hvisit.
    replace (i + (e - i)) with e in Hvisit by lia. apply Hvisit; lia.
  - intros Hnone. rewrite (equal_range_absent index value Hnone) in Hrange.
    by injection Hrange as <- <-.
  - exists (concat (take i (entries index)).*2), (concat (drop e (entries index)).*2).
    split; [| split].
    + pose proof (visit_entries index i Hf 0
                    (length (concat (take i (entries index)).*2))) as Hvisit.
      rewrite drop_0 in Hvisit. apply Hvisit; simpl; lia.
    + pose proof (visit_entries index (length (entries index) - e) Hf e
                    (length (concat (drop e (entries index)).*2))) as Hvisit.
      replace (e + (length (entries index) - e)) with (length (entries index)) in Hvisit by lia.
      rewrite take_ge in Hvisit by (rewrite length_drop; lia).
      apply Hvisit; lia.
    + intros r. rewrite <- concat_app, <- fmap_app, elem_of_concat. split.
      * intros (l & ([value' l'] & -> & Hin)%list_elem_of_fmap & Hr).
        apply Hothers in Hin as [Hmap Hne]. exists value'. split; [exact Hne |].
        by rewrite Hmap.
      * intros (value' & Hne & Hr).
        destruct (_map index !! value') as [l |] eqn:Hmap; [| by apply elem_of_nil in Hr].
        exists l. split; [| exact Hr]. apply list_elem_of_fmap. exists (value', l).
        split; [done |]. by apply Hothers.
Qed.

End Facts.

Lemma index_holds_every_row_witness :
  NoDup two_chunks.*1
  /\ let index := make_index column_of two_chunks 0 in
     forall v rows, _map index !! v = Some rows -> rows <> [] /\ NoDup rows.
Proof.
  assert (NoDup two_chunks.*1) as Hids.
  { apply NoDup_cons. split; [| apply NoDup_singleton].
    rewrite list_elem_of_singleton. discriminate. }
  split; [exact Hids |]. cbv zeta.
  destruct (index_holds_every_row column_of two_chunks 0 Hids) as (_ & _ & Hvectors & _).
  exact Hvectors.
Defined.

Lemma iteration_visits_every_row_witness :
  let index := make_index column_of two_chunks 0 in
  exists rows : list RowID,
    visit_range (length rows) index (cbegin index) (cend index) = Some rows
    /\ distance (length rows) index (cbegin index) (cend index) = Some (length rows)
    /\ NoDup rows.
Proof.
  cbv zeta.
  assert (NoDup two_chunks.*1) as Hids.
  { apply NoDup_cons. split; [| apply NoDup_singleton].
    rewrite list_elem_of_singleton. discriminate. }
  destruct (iteration_visits_every_row column_of two_chunks 0 Hids)
    as (rows & Hvisit & Hdistance & Hnodup & _).
  exists rows. split; [exact Hvisit |]. split; [exact Hdistance | exact Hnodup].
Defined.

(** The index of the two chunks, run. *)
Example two_chunks_indexed :
  let index := make_index column_of two_chunks 0 in
  _map index !! 7%Z = Some [{| chunk_id := 0; chunk_offset := 0 |};
                            {| chunk_id := 1; chunk_offset := 1 |};
                            {| chunk_id := 1; chunk_offset := 2 |}]
  /\ _null_values index = [{| chunk_id := 0; chunk_offset := 1 |}]
  /\ (length <$> visit_range 5 index (cbegin index) (cend index)) = Some 5
  /\ visit_range 3 index (range_equals index 7%Z).1 (range_equals index 7%Z).2
     = _map index !! 7%Z
  /\ insert_entries column_of index two_chunks 0 = (0, index)
  /\ (insert_entries column_of empty_index (two_chunks ++ two_chunks) 0).1 = 2.
Proof. vm_compute. repeat split. Qed.

End PartialHashIndexFacts.

(** ** scheduler_test.cpp: the expected output of the grouping test *)

Module ExpectedOutputFacts.
Import Scheduler.

Local Open Scope nat_scope.

Lemma flat_map_app_perm {A B} (f g : A -> list B) (l : list A) :
  flat_map (fun x => f x ++ g x) l ≡ₚ flat_map f l ++ flat_map g l.
Proof.
  induction l as [| x l IH]; [reflexivity |]. simpl. rewrite IH.
  rewrite <- !app_assoc. apply Permutation_app_head.
  rewrite !app_assoc. apply Permutation_app_tail, Permutation_app_comm.
Qed.

(** Among the residues there is one for a number. *)
Lemma one_residue (x r n : nat) :
  r < n ->
  flat_map (fun g => if decide (r = g) then [x] else []) (seq 0 n) = [x].
Proof.
  intros Hr.
  assert (forall m, flat_map (fun g => if decide (r = g) then [x] else []) (seq 0 m)
                    = if decide (r < m) then [x] else []) as Hcount.
  { induction m as [| m IH]; [reflexivity |].
    rewrite seq_S, flat_map_app, IH. simpl.
    destruct (decide (r < m)), (decide (r = m)), (decide (r < S m)); try lia; reflexivity. }
  rewrite Hcount. by rewrite decide_True.
Qed.

Lemma residues_partition (l : list nat) (num_groups : nat) :
  0 < num_groups ->
  flat_map (fun g => filter (fun k => k `mod` num_groups = g) l) (seq 0 num_groups) ≡ₚ l.
Proof.
  intros Hgroups. induction l as [| x l IH].
  - induction (seq 0 num_groups) as [| g gs IHg]; [reflexivity | exact IHg].
  - rewrite (flat_map_ext _
               (fun g => (if decide (x `mod` num_groups = g) then [x] else [])
                         ++ filter (fun k => k `mod` num_groups = g) l)).
    + rewrite flat_map_app_perm, IH, one_residue; [reflexivity |].
      apply Nat.mod_upper_bound. lia.
    + intros g. rewrite filter_cons. by destruct (decide (x `mod` num_groups = g)).
Qed.

Lemma own_residue (task_count num_groups g : nat) :
  task_count <= num_groups ->
  filter (fun k => k `mod` num_groups = g) (seq 0 task_count)
  = if decide (g < task_count) then [g] else [].
Proof.
  intros Hle. induction task_count as [| n IH]; [reflexivity |].
  rewrite seq_S, filter_app, IH by lia. simpl.
  rewrite filter_cons, Nat.mod_small by lia.
  destruct (decide (g < n)), (decide (n = g)), (decide (g < S n));
    try lia; subst; simpl; by rewrite ?app_nil_r.
Qed.

Lemma singletons_up_to (task_count : nat) :
  forall start n,
    flat_map (fun g => if decide (g < task_count) then [g] else []) (seq start n)
    = seq start (Nat.min (start + n) task_count - start).
Proof.
  intros start n. revert start. induction n as [| n IH]; intros start; simpl.
  - by replace (Nat.min (start + 0) task_count - start) with 0 by lia.
  - rewrite IH. destruct (decide (start < task_count)).
    + replace (Nat.min (start + S n) task_count - start)
        with (S (Nat.min (S start + n) task_count - S start)) by lia.
      reflexivity.
    + replace (Nat.min (S start + n) task_count - S start) with 0 by lia.
      by replace (Nat.min (start + S n) task_count - start) with 0 by lia.
Qed.

(** X24: the output that the grouping test expects lists every task id
    below [TASK_COUNT] once, whatever the positive number of groups is; with
    one group, or with at least as many groups as tasks, it is the ids in
    ascending order, and with no group it is empty. *)
Theorem expected_output_lists_every_task_once (task_count num_groups : nat) :
  (0 < num_groups -> expected_output task_count num_groups ≡ₚ seq 0 task_count)
  /\ (0 < num_groups -> task_count <= num_groups ->
      expected_output task_count num_groups = seq 0 task_count)
  /\ expected_output task_count 1 = seq 0 task_count
  /\ expected_output task_count 0 = [].
Proof.
  split; [| split; [| split]].
  - intros Hgroups. rewrite GroupingFacts.expected_output_residues by exact Hgroups.
    by apply residues_partition.
  - intros Hgroups Hle. rewrite GroupingFacts.expected_output_residues by exact Hgroups.
    rewrite (flat_map_ext _ (fun g => if decide (g < task_count) then [g] else [])).
    + rewrite singletons_up_to. f_equal. lia.
    + intros g. by apply own_residue.
  - rewrite GroupingFacts.expected_output_residues by lia. cbn [seq flat_map].
    rewrite app_nil_r. induction (seq 0 task_count) as [| k l IH]; [reflexivity |].
    rewrite filter_cons_True by apply Nat.mod_1_r. by rewrite IH.
  - reflexivity.
Qed.

Lemma expected_output_lists_every_task_once_witness :
  expected_output 50 10 ≡ₚ seq 0 50 /\ expected_output 5 10 = seq 0 5.
Proof.
  destruct (expected_output_lists_every_task_once 50 10) as (Hperm & _).
  destruct (expected_output_lists_every_task_once 5 10) as (_ & Hsame & _).
  split; [apply Hperm; lia | apply Hsame; lia].
Defined.

End ExpectedOutputFacts.

(** ** The pointer sort benchmark: [TestPointer] *)

Module PointerBenchmarkFacts.
Import PointerBenchmark.

(** X25: of the three ways to resolve a [TestPointer] through its frame,
    the simple and the likely one always agree; the branchless one agrees
    with them when the frame has data or the pointer is null, and answers the
    null pointer for every pointer of a frame without data, so that reading
    through it fails. *)
Theorem branchless_needs_frame_data (p : TestPointer) (f : Frame)
    (Hframe : frame p = Some f) :
  get 1 p = get 0 p
  /\ (get 2 p = get 0 p <-> data f <> 0 \/ ptr_or_offset p = 0)
  /\ (data f = 0 ->
      get 2 p = inr 0 /\ operator_star 2 p = inl DereferencingNullPointer
      /\ get 0 p = inr (ptr_or_offset p)).
Proof.
  unfold operator_star, get. simpl.
  unfold get_pointer_simple, get_pointer_likely, get_pointer_dummy__branchless.
  rewrite Hframe. split; [reflexivity |].
  destruct (Z.eqb_spec (data f) 0) as [Hnull | Hdata]; simpl.
  - rewrite Hnull. simpl. split; [| by intros _].
    split.
    + intros [= Heq]. right. by rewrite <- Heq.
    + intros [Hdata | ->]; [done | reflexivity].
  - split; [| done]. split; [by left | reflexivity].
Qed.

(** A frame without data and the address 4096: only the branchless way
    loses the address. *)
Lemma branchless_needs_frame_data_witness :
  get 0 {| frame := Some {| data := 0 |}; ptr_or_offset := 4096 |} = inr 4096
  /\ get 2 {| frame := Some {| data := 0 |}; ptr_or_offset := 4096 |} = inr 0.
Proof.
  destruct (branchless_needs_frame_data
              {| frame := Some {| data := 0 |}; ptr_or_offset := 4096 |}
              {| data := 0 |} eq_refl) as (_ & _ & Hnull).
  destruct (Hnull eq_refl) as (Hbranchless & _ & Hsimple).
  split; [exact Hsimple | exact Hbranchless].
Defined.

End PointerBenchmarkFacts.

(** ** storage/fsst_segment/fsst_encoder.hpp: the loops of [_on_encode] *)

Module FSSTEncoderFacts.
Import FSSTEncoder.

Lemma collect_positions (segment : list SegmentPosition) (c : Collected) :
  let c' := foldl collect_position c segment in
  values c' = values c ++ ((fun position => if is_null position then [] else value position)
                           <$> segment)
  /\ null_values c' = null_values c ++ (is_null <$> segment)
  /\ has_null_values c' = has_null_values c || existsb is_null segment.
Proof.
  revert c. induction segment as [| position segment IH]; intros c; simpl.
  - by rewrite !app_nil_r, orb_false_r.
  - destruct (IH (collect_position c position)) as (Hvalues & Hnulls & Hhas).
    rewrite Hvalues, Hnulls, Hhas. unfold collect_position.
    destruct (is_null position); simpl; rewrite <- !app_assoc; by rewrite ?orb_true_r.
Qed.

(** X26: what the encoder collects from a segment: one string and one
    flag per row, in the order of the rows; the string of a row that is NULL
    is the empty string whatever value the row carries, the string of
    any other row is its value; and the NULL flags are handed on exactly when
    some row is NULL. *)
Theorem collect_replaces_null_values (segment : list SegmentPosition) :
  let c := collect segment in
  values c = (fun position => if is_null position then [] else value position) <$> segment
  /\ null_values c = is_null <$> segment
  /\ length (values c) = length segment
  /\ (has_null_values c = true <-> exists position, position ∈ segment /\ is_null position = true)
  /\ null_values_optional c
     = if existsb is_null segment then Some (is_null <$> segment) else None.
Proof.
  cbv zeta.
  assert (collect segment
          = foldl collect_position
              {| values := []; null_values := []; has_null_values := false |} segment) as ->
    by (by destruct segment).
  destruct (collect_positions segment
              {| values := []; null_values := []; has_null_values := false |})
    as (Hvalues & Hnulls & Hhas).
  simpl in Hvalues, Hnulls, Hhas. unfold null_values_optional.
  rewrite Hvalues, Hnulls, Hhas. split; [reflexivity |]. split; [reflexivity |].
  split; [by rewrite length_fmap |]. split; [| reflexivity].
  rewrite existsb_exists. split.
  - intros (position & Hin%list_elem_of_In & Hnull). by exists position.
  - intros (position & Hin%list_elem_of_In & Hnull). by exists position.
Qed.

Lemma sum_list_take_le (l : list nat) (i : nat) : (sum_list (take i l) <= sum_list l)%nat.
Proof.
  rewrite <- (take_drop i l) at 2. rewrite sum_list_with_app. lia.
Qed.

Lemma measure_rows_steps (rows : list pmr_string) (total : Z) (lengths : list Z) :
  foldl (fun '(total_length, row_lengths) row =>
           (unsigned_wrap (total_length + Z.of_nat (length row)),
            row_lengths ++ [Z.of_nat (length row)]))
        (total, lengths) rows
  = (foldl (fun t row => unsigned_wrap (t + Z.of_nat (length row))) total rows,
     lengths ++ ((fun row => Z.of_nat (length row)) <$> rows)).
Proof.
  revert total lengths. induction rows as [| row rows IH]; intros total lengths; simpl.
  - by rewrite app_nil_r.
  - by rewrite IH, <- app_assoc.
Qed.

Lemma total_length_sum (rows : list pmr_string) (total : Z) :
  0 <= total ->
  total + Z.of_nat (sum_list (length <$> rows)) < 2 ^ 32 ->
  foldl (fun t row => unsigned_wrap (t + Z.of_nat (length row))) total rows
  = total + Z.of_nat (sum_list (length <$> rows)).
Proof.
  revert total. induction rows as [| row rows IH]; intros total Htotal Hfit;
    cbn [foldl fmap list_fmap sum_list_with] in *; unfold id in *.
  - lia.
  - unfold unsigned_wrap at 2. rewrite Z.mod_small by lia. rewrite IH by lia. lia.
Qed.

(** The offsets when the loop has filled those up to [k]. *)
Lemma fill_offsets_steps (lengths : list nat) (k : nat) :
  Z.of_nat (sum_list lengths) < 2 ^ 32 ->
  (k <= length lengths)%nat ->
  exists offsets,
    foldl (fun '(offsets, aggregated_offset_sum) index =>
             let aggregated_offset_sum' :=
               size_t_wrap (aggregated_offset_sum
                            + Z.of_nat (default 0%nat (lengths !! (index - 1)%nat))) in
             (<[index := unsigned_wrap aggregated_offset_sum']> offsets,
              aggregated_offset_sum'))
          (<[0%nat := 0]> (replicate (length lengths + 1) 0), 0)
          (seq 1 k)
    = (offsets, Z.of_nat (sum_list (take k lengths)))
    /\ length offsets = (length lengths + 1)%nat
    /\ (forall i, (i <= k)%nat -> offsets !! i = Some (Z.of_nat (sum_list (take i lengths))))
    /\ (forall i, (k < i <= length lengths)%nat -> offsets !! i = Some 0).
Proof.
  intros Htotal. induction k as [| k IH]; intros Hk.
  - exists (<[0%nat := 0]> (replicate (length lengths + 1) 0)).
    split; [reflexivity |]. rewrite length_insert, length_replicate.
    split; [reflexivity |]. split.
    + intros i Hi. replace i with 0%nat by lia.
      rewrite list_lookup_insert_eq by (rewrite length_replicate; lia). reflexivity.
    + intros i Hi. rewrite list_lookup_insert_ne by lia.
      apply lookup_replicate_2. lia.
  - destruct (IH ltac:(lia)) as (offsets & Hrun & Hlen & Hfilled & Hrest).
    rewrite seq_S, foldl_snoc, Hrun. cbn zeta beta iota.
    replace (1 + k - 1)%nat with k by lia.
    destruct (lookup_lt_is_Some_2 lengths k ltac:(lia)) as [l Hl].
    rewrite Hl. cbn [default].
    assert (size_t_wrap (Z.of_nat (sum_list (take k lengths)) + Z.of_nat l)
            = Z.of_nat (sum_list (take (S k) lengths))) as Hsum.
    { rewrite (take_S_r _ _ _ Hl), sum_list_with_app. simpl.
      pose proof (sum_list_take_le lengths (S k)) as Hle.
      rewrite (take_S_r _ _ _ Hl), sum_list_with_app in Hle. simpl in Hle.
      unfold size_t_wrap. rewrite Z.mod_small; lia. }
    change (id l) with l. rewrite Hsum.
    assert (unsigned_wrap (Z.of_nat (sum_list (take (S k) lengths)))
            = Z.of_nat (sum_list (take (S k) lengths))) as Hsmall.
    { pose proof (sum_list_take_le lengths (S k)). unfold unsigned_wrap.
      rewrite Z.mod_small; lia. }
    rewrite Hsmall.
    exists (<[(1 + k)%nat := Z.of_nat (sum_list (take (S k) lengths))]> offsets).
    split; [reflexivity |]. rewrite length_insert. split; [exact Hlen |]. split.
    + intros i Hi. destruct (decide (i = S k)) as [-> | Hne].
      * rewrite list_lookup_insert_eq by lia. reflexivity.
      * rewrite list_lookup_insert_ne by lia. apply Hfilled. lia.
    + intros i Hi. rewrite list_lookup_insert_ne by lia. apply Hrest. lia.
Qed.

(** X27: the sizes the encoder computes, while the sums stay below
    [2 ^ 32]: the buffer is 16 bytes and twice the bytes of all rows; the
    offsets are one more than the rows, start at 0, are the running sums of
    the compressed lengths, so that row [i] lies between offset [i] and
    offset [i + 1], and end at the size the buffer is cut to. *)
Theorem offsets_are_running_sums (rows : list pmr_string)
    (compressed_value_lengths : list nat) :
  (16 + 2 * Z.of_nat (sum_list (length <$> rows)) < 2 ^ 32 ->
   (measure_rows rows).2 = (fun row => Z.of_nat (length row)) <$> rows
   /\ compressed_buffer_size rows = 16 + 2 * Z.of_nat (sum_list (length <$> rows)))
  /\ (Z.of_nat (sum_list compressed_value_lengths) < 2 ^ 32 ->
      let offsets := (fill_offsets compressed_value_lengths).1 in
      let aggregated_offset_sum := (fill_offsets compressed_value_lengths).2 in
      length offsets = S (length compressed_value_lengths)
      /\ aggregated_offset_sum = Z.of_nat (sum_list compressed_value_lengths)
      /\ (forall i, (i <= length compressed_value_lengths)%nat ->
            offsets !! i = Some (Z.of_nat (sum_list (take i compressed_value_lengths))))
      /\ (forall i l, compressed_value_lengths !! i = Some l ->
            exists first next,
              offsets !! i = Some first /\ offsets !! S i = Some next
              /\ next - first = Z.of_nat l)
      /\ last offsets = Some aggregated_offset_sum).
Proof.
  split.
  - intros Hfit. unfold compressed_buffer_size, measure_rows.
    rewrite measure_rows_steps. simpl.
    rewrite total_length_sum by lia. split; [reflexivity |].
    unfold unsigned_wrap. rewrite Z.mod_small; lia.
  - intros Hfit.
    destruct (fill_offsets_steps compressed_value_lengths (length compressed_value_lengths)
                Hfit ltac:(lia)) as (offsets & Hrun & Hlen & Hfilled & _).
    unfold fill_offsets. cbv zeta in Hrun |- *.
    rewrite Hrun. simpl. rewrite firstn_all.
    split; [lia |]. split; [reflexivity |]. split; [exact Hfilled |]. split.
    + intros i l Hl. pose proof (lookup_lt_Some _ _ _ Hl) as Hi.
      exists (Z.of_nat (sum_list (take i compressed_value_lengths))),
        (Z.of_nat (sum_list (take (S i) compressed_value_lengths))).
      split; [apply Hfilled; lia |]. split; [apply Hfilled; lia |].
      rewrite (take_S_r _ _ _ Hl), sum_list_with_app. simpl. lia.
    + rewrite last_lookup, Hlen. replace (Init.Nat.pred (length compressed_value_lengths + 1))
        with (length compressed_value_lengths) by lia.
      rewrite Hfilled by lia. by rewrite firstn_all.
Qed.

(** Two rows, compressed to 3 and 5 bytes. *)
Lemma offsets_are_running_sums_witness :
  (fill_offsets [3; 5]%nat).1 = [0; 3; 8] /\ (fill_offsets [3; 5]%nat).2 = 8
  /\ length (fill_offsets [3; 5]%nat).1 = 3%nat.
Proof.
  split; [reflexivity |].
  destruct (offsets_are_running_sums [] [3; 5]%nat) as [_ Hoffsets].
  destruct (Hoffsets ltac:(simpl; lia)) as (Hlen & Hsum & _).
  split; [exact Hsum | exact Hlen].
Defined.

End FSSTEncoderFacts.

(** ** utils/plugin_manager.cpp *)

Module PluginManagerFacts.
Import PluginManager.

Section Facts.
  Context {PluginName : Type} `{Countable PluginName}.
  Context (name_le : relation PluginName) `{!RelDecision name_le}.
  Context {PluginHandle AbstractPlugin TypeInfo : Type} `{!EqDecision TypeInfo}.
  Context (typeid : AbstractPlugin -> TypeInfo).

Lemma loaded_plugins_names (m : Manager PluginName PluginHandle AbstractPlugin) (name : PluginName) :
  name ∈ loaded_plugins name_le m <-> is_Some (_plugins m !! name).
Proof.
  unfold loaded_plugins. cbv zeta. rewrite merge_sort_Permutation, list_elem_of_fmap. split.
  - intros ([n w] & -> & Hin). apply elem_of_map_to_list in Hin. by exists w.
  - intros [w Hw]. exists (name, w). split; [done | by apply elem_of_map_to_list].
Qed.

(** Erasing the entry the iteration starts with leaves the other entries
    in their order. *)
Lemma erase_first_keeps_order (plugins : gmap PluginName (PluginHandleWrapper PluginHandle AbstractPlugin))
    (name : PluginName) (w : PluginHandleWrapper PluginHandle AbstractPlugin)
    (rest : list (PluginName * PluginHandleWrapper PluginHandle AbstractPlugin)) :
  map_to_list plugins = (name, w) :: rest ->
  map_to_list (delete name plugins) = rest.
Proof.
  intros Hlist.
  assert (Hw : plugins !! name = Some w).
  { apply elem_of_map_to_list. rewrite Hlist. left. }
  assert (Hfirst : map_to_list (<[name := w]> (delete name plugins))
                   = (name, w) :: map_to_list (delete name plugins)).
  { apply map_to_list_insert_first_key; [apply lookup_delete_eq |].
    rewrite insert_delete_id by exact Hw. exists w. by rewrite Hlist. }
  rewrite insert_delete_id, Hlist in Hfirst by exact Hw. congruence.
Qed.

Lemma clean_up_loop_unloads (fuel : nat) (m : Manager PluginName PluginHandle AbstractPlugin) :
  (size (_plugins m) <= fuel)%nat ->
  _plugins (clean_up_loop fuel m) = ∅
  /\ calls (clean_up_loop fuel m)
     = calls m ++ flat_map unloading (map_to_list (_plugins m)).
Proof.
  revert m. induction fuel as [| fuel IH]; intros m Hsize.
  - assert (Hempty : _plugins m = ∅) by (apply map_size_empty_iff; lia).
    simpl. rewrite Hempty, map_to_list_empty, app_nil_r. done.
  - simpl. destruct (map_to_list (_plugins m)) as [| [name w] rest] eqn:Hlist.
    + apply map_to_list_empty_iff in Hlist. simpl. by rewrite app_nil_r.
    + assert (Hw : _plugins m !! name = Some w).
      { apply elem_of_map_to_list. rewrite Hlist. left. }
      destruct (IH (_unload_and_erase_plugin (name, w) m)) as (Hempty & Hcalls).
      { simpl. rewrite map_size_delete_Some by eauto. lia. }
      split; [done |].
      rewrite Hcalls. simpl. rewrite (erase_first_keeps_order _ _ _ _ Hlist).
      by rewrite <- !app_assoc.
Qed.

(** X28.  Unloading a loaded plugin stops it before its library is closed and
    makes no other call, takes its name and no other out of the loaded
    plugins, and a second unloading of the same name fails. *)
Theorem unload_plugin_stops_then_closes (m : Manager PluginName PluginHandle AbstractPlugin) (name : PluginName)
    (w : PluginHandleWrapper PluginHandle AbstractPlugin)
    (Hloaded : _plugins m !! name = Some w) :
  exists m',
    unload_plugin name m = inr m'
    /\ calls m' = calls m ++ [Stop (plugin w); DlClose (handle w)]
    /\ (forall other, other ∈ loaded_plugins name_le m'
                      <-> other ∈ loaded_plugins name_le m /\ other <> name)
    /\ (forall other, other <> name -> _plugins m' !! other = _plugins m !! other)
    /\ unload_plugin name m' = inl (DoesNotExist name).
Proof.
  unfold unload_plugin. rewrite Hloaded. eexists. split; [done |].
  unfold _unload_and_erase_plugin. simpl. split; [by rewrite <- app_assoc |].
  split; [| split].
  - intros other. rewrite !loaded_plugins_names. simpl.
    destruct (decide (other = name)) as [-> | Hne].
    + rewrite lookup_delete_eq. split; [by intros [? ?] | by intros [_ ?]].
    + rewrite lookup_delete_ne by done. split; [done | by intros [? _]].
  - intros other Hne. by rewrite lookup_delete_ne.
  - by rewrite lookup_delete_eq.
Qed.

(** X29.  When the order of the names is total, [loaded_plugins] is in
    ascending order, has no name twice, and has exactly the names that are
    keys of [_plugins]. *)
Theorem loaded_plugins_sorted_names (m : Manager PluginName PluginHandle AbstractPlugin) (Htotal : Total name_le) :
  Sorted name_le (loaded_plugins name_le m)
  /\ NoDup (loaded_plugins name_le m)
  /\ length (loaded_plugins name_le m) = size (_plugins m)
  /\ (forall name, name ∈ loaded_plugins name_le m <-> is_Some (_plugins m !! name)).
Proof.
  split; [| split; [| split]].
  - apply Sorted_merge_sort, Htotal.
  - unfold loaded_plugins. cbv zeta. rewrite merge_sort_Permutation.
    apply NoDup_fst_map_to_list.
  - unfold loaded_plugins. cbv zeta.
    by rewrite merge_sort_Permutation, length_fmap, length_map_to_list.
  - apply loaded_plugins_names.
Qed.

(** X30.  [_clean_up] leaves no plugin loaded: the entries of [_plugins]
    are unloaded one after the other in the iteration order of the map, each
    plugin stopped right before its own library is closed, and no other call
    is made; afterwards nothing is a duplicate. *)
Theorem clean_up_unloads_every_plugin (m : Manager PluginName PluginHandle AbstractPlugin) :
  _plugins (_clean_up m) = ∅
  /\ loaded_plugins name_le (_clean_up m) = []
  /\ (forall plugin_ref, _is_duplicate typeid (_clean_up m) plugin_ref = false)
  /\ calls (_clean_up m) = calls m ++ flat_map unloading (map_to_list (_plugins m)).
Proof.
  destruct (clean_up_loop_unloads (size (_plugins m)) m) as (Hempty & Hcalls); [done |].
  fold (_clean_up m) in Hempty, Hcalls.
  split; [done |]. split; [| split].
  - unfold loaded_plugins. by rewrite Hempty, map_to_list_empty.
  - intros plugin_ref. unfold _is_duplicate. by rewrite Hempty, map_to_list_empty.
  - exact Hcalls.
Qed.
End Facts.

Lemma unload_plugin_stops_then_closes_witness :
  let w := {| handle := 40%nat; plugin := 7%nat |} in
  let m := {| _plugins := <[2%nat := w]> {[ 5%nat := {| handle := 41%nat; plugin := 8%nat |} ]};
              calls := [] |} in
  _plugins m !! 2%nat = Some w
  /\ exists m',
       unload_plugin 2%nat m = inr m'
       /\ calls m' = calls m ++ [Stop (plugin w); DlClose (handle w)]
       /\ (forall other, other ∈ loaded_plugins le m'
                         <-> other ∈ loaded_plugins le m /\ other <> 2%nat)
       /\ (forall other, other <> 2%nat -> _plugins m' !! other = _plugins m !! other)
       /\ unload_plugin 2%nat m' = inl (DoesNotExist 2%nat).
Proof.
  cbv zeta. split; [reflexivity |].
  apply (unload_plugin_stops_then_closes le). reflexivity.
Defined.

Lemma loaded_plugins_sorted_names_witness :
  let m := {| _plugins := <[5%nat := {| handle := 41%nat; plugin := 8%nat |}]>
                            {[ 2%nat := {| handle := 40%nat; plugin := 7%nat |} ]};
              calls := @nil (Call nat nat) |} in
  Total le
  /\ Sorted le (loaded_plugins le m)
  /\ NoDup (loaded_plugins le m)
  /\ length (loaded_plugins le m) = size (_plugins m)
  /\ (forall name, name ∈ loaded_plugins le m <-> is_Some (_plugins m !! name)).
Proof.
  cbv zeta. split; [exact Nat.le_total |].
  apply (loaded_plugins_sorted_names le). exact Nat.le_total.
Defined.

Example two_plugins_sorted :
  loaded_plugins le {| _plugins := <[5%nat := {| handle := 41%nat; plugin := 8%nat |}]>
                                     {[ 2%nat := {| handle := 40%nat; plugin := 7%nat |} ]};
                       calls := @nil (Call nat nat) |} = [2%nat; 5%nat].
Proof. vm_compute. reflexivity. Qed.

(** Three plugins: the calls follow the order in which the map is iterated. *)
Example three_plugins_cleaned_up :
  let m := {| _plugins := <[5%nat := {| handle := 41%nat; plugin := 8%nat |}]>
                            (<[2%nat := {| handle := 40%nat; plugin := 7%nat |}]>
                               {[ 9%nat := {| handle := 42%nat; plugin := 6%nat |} ]});
              calls := [] |} in
  (map_to_list (_plugins m)).*1 = [2%nat; 9%nat; 5%nat]
  /\ calls (_clean_up m)
     = [Stop 7%nat; DlClose 40%nat; Stop 6%nat; DlClose 42%nat; Stop 8%nat; DlClose 41%nat].
Proof. vm_compute. split; reflexivity. Qed.

End PluginManagerFacts.
